(** * tell-me-something-i-dont-know: the query and discovery scripts

    A shallow embedding of the two build scripts of the repository
    (the query script that produces [site/data.json] and the discovery
    script that appends to [build/models.yaml]) together with the
    properties of their retry ladder, topic classifier, statistics and
    append-only merge.

    Conventions of the embedding.
    - A JavaScript string is a [string] whose characters are read as
      UTF-16 code units below 256; on that fragment [toLowerCase],
      [trim] and the regular-expression dot are modelled exactly.
    - The remote API is an oracle from the history of requests and the
      current request to the outcome of [fetch]; the history is the
      mutable state of the query script. The RegExp objects of the
      classifier live in a heap of their own ([detectTopicsRun]), which
      the list of topics is shown not to depend on.
    - Console output and the politeness delays ([sleep]) are left out:
      nothing below depends on them. *)

From Stdlib Require Import String Ascii List Bool Arith ZArith QArith Lia.
From Stdlib Require Import Sorting.Sorted Numbers.DecimalString.
From stdpp Require Import gmap strings.
Import ListNotations.

Set Warnings "-register-all,-clear-no-such-hyp".

Local Open Scope string_scope.
Local Open Scope list_scope.
Local Open Scope bool_scope.
Local Open Scope nat_scope.

(** ** JavaScript strings *)

Module JsString.

Fixpoint mapChars (f : ascii -> ascii) (s : string) : string :=
  match s with
  | EmptyString => EmptyString
  | String c s' => String (f c) (mapChars f s')
  end.

(** [String.prototype.toLowerCase] on a code unit below 256: the
    ASCII capitals and the Latin-1 capitals (all of U+00C0..U+00DE
    but the multiplication sign U+00D7) move up by 32. *)
Definition lowerChar (c : ascii) : ascii :=
  let n := nat_of_ascii c in
  if ((65 <=? n) && (n <=? 90))
     || ((192 <=? n) && (n <=? 222) && negb (n =? 215))
  then ascii_of_nat (n + 32) else c.

Definition toLowerCase (s : string) : string := mapChars lowerChar s.

(** [toUpperCase] is only ever applied to a single word character
    (see [deriveModelName]), so only the ASCII letters matter. *)
Definition upperChar (c : ascii) : ascii :=
  let n := nat_of_ascii c in
  if (97 <=? n) && (n <=? 122) then ascii_of_nat (n - 32) else c.

(** White space of [trim] below 256: TAB, LF, VT, FF, CR, SP, NBSP. *)
Definition isWhitespace (c : ascii) : bool :=
  let n := nat_of_ascii c in
  ((9 <=? n) && (n <=? 13)) || (n =? 32) || (n =? 160).

Fixpoint trimStart (s : string) : string :=
  match s with
  | EmptyString => EmptyString
  | String c s' => if isWhitespace c then trimStart s' else s
  end.

Fixpoint trimEnd (s : string) : string :=
  match s with
  | EmptyString => EmptyString
  | String c s' =>
      let t := trimEnd s' in
      if isWhitespace c && String.eqb t EmptyString
      then EmptyString else String c t
  end.

Definition trim (s : string) : string := trimEnd (trimStart s).

(** [s.startsWith(p)] *)
Definition startsWith (s p : string) : bool := String.prefix p s.

(** [s.includes(needle)] *)
Fixpoint includes (s needle : string) : bool :=
  String.prefix needle s
  || match s with
     | EmptyString => false
     | String _ s' => includes s' needle
     end.

(** [s.slice(0, n)] *)
Fixpoint slice0 (n : nat) (s : string) : string :=
  match n, s with
  | S n', String c s' => String c (slice0 n' s')
  | _, _ => EmptyString
  end.

(** [s.split(sep)] for a one-character separator: never empty. *)
Fixpoint split (sep : ascii) (s : string) : list string :=
  match s with
  | EmptyString => [EmptyString]
  | String c s' =>
      if Ascii.eqb c sep then EmptyString :: split sep s'
      else match split sep s' with
           | [] => [String c EmptyString]
           | h :: t => String c h :: t
           end
  end.

(** Template interpolation of a non-negative integer. *)
Definition ofNat (n : nat) : string :=
  NilEmpty.string_of_uint (Nat.to_uint n).

(** A falsy string is the empty one. *)
Definition truthy (s : string) : bool := negb (String.eqb s EmptyString).

(** [s.endsWith(suffix)]: some tail of [s] is [suffix]. *)
Fixpoint endsWith (s suffix : string) : bool :=
  String.eqb s suffix
  || match s with
     | EmptyString => false
     | String _ s' => endsWith s' suffix
     end.

(** The characters that string literals of this file do not spell out. *)
Definition newline : string := String (ascii_of_nat 10) EmptyString.
Definition dquote : string := String (ascii_of_nat 34) EmptyString.

End JsString.

(** ** Regular expressions

    Every pattern of the keyword table is a sequence of literal
    characters and of [.*]; [parse] reads exactly that fragment, and
    [keywords_in_fragment] below checks that the table stays in it. *)

Module RegExp.

Inductive item : Type :=
| Lit (c : ascii)
| AnyStar.

Fixpoint parse (src : string) : list item :=
  match src with
  | EmptyString => []
  | String c rest =>
      match rest with
      | String d rest' =>
          if Ascii.eqb c "."%char && Ascii.eqb d "*"%char
          then AnyStar :: parse rest'
          else Lit c :: parse rest
      | EmptyString => [Lit c]
      end
  end.

(** Characters that would mean something else than themselves. *)
Definition isMeta (c : ascii) : bool :=
  existsb (Ascii.eqb c)
    (list_ascii_of_string "\^$.*+?()[]{}|").

Definition inFragment (src : string) : bool :=
  forallb (fun i => match i with Lit c => negb (isMeta c) | AnyStar => true end)
          (parse src).

(** The dot matches everything but a line terminator. Of the four line
    terminators (LF, CR, U+2028, U+2029) the first two are code units a
    string of this development can hold. *)
Definition dotMatches (c : ascii) : bool :=
  let n := nat_of_ascii c in negb ((n =? 10) || (n =? 13)).

(** [starFrom k text]: does the continuation [k] match after the dot
    has eaten some prefix of [text]? *)
Fixpoint starFrom (k : list ascii -> bool) (text : list ascii) : bool :=
  k text
  || match text with
     | c :: rest => dotMatches c && starFrom k rest
     | [] => false
     end.

(** Match anchored at the start of [text]. *)
Fixpoint matchHere (re : list item) (text : list ascii) : bool :=
  match re with
  | [] => true
  | Lit c :: re' =>
      match text with
      | x :: rest => Ascii.eqb c x && matchHere re' rest
      | [] => false
      end
  | AnyStar :: re' => starFrom (matchHere re') text
  end.

(** Unanchored search: try every start position, left to right. *)
Fixpoint search (re : list item) (text : list ascii) : bool :=
  matchHere re text
  || match text with
     | _ :: rest => search re rest
     | [] => false
     end.

(** [new RegExp(src).test(text)]: no flags, so no [lastIndex] state. *)
Definition test (src text : string) : bool :=
  search (parse src) (list_ascii_of_string text).

(** *** RegExp objects

    A RegExp is an object: [test] reads its [lastIndex] and, under the
    [g] or [y] flag, starts there and writes the end of the match back.
    The functions below follow RegExpBuiltinExec. *)

(** [starEnd k text]: the greedy star, longest prefix first, then the
    continuation [k]; the result is the number of characters consumed. *)
Fixpoint starEnd (k : list ascii -> option nat) (text : list ascii) : option nat :=
  match text with
  | c :: rest =>
      if dotMatches c then
        match starEnd k rest with
        | Some n => Some (S n)
        | None => k text
        end
      else k text
  | [] => k text
  end.

(** The length of the match anchored at the start of [text]. *)
Fixpoint matchEnd (re : list item) (text : list ascii) : option nat :=
  match re with
  | [] => Some 0
  | Lit c :: re' =>
      match text with
      | x :: rest => if Ascii.eqb c x then option_map S (matchEnd re' rest) else None
      | [] => None
      end
  | AnyStar :: re' => starEnd (matchEnd re') text
  end.

Definition found (end_ : option nat) : bool :=
  match end_ with Some _ => true | None => false end.

Record object : Type := mkObject {
  source : string;
  global : bool;
  sticky : bool;
  lastIndex : nat
}.

Definition setLastIndex (r : object) (i : nat) : object :=
  mkObject (source r) (global r) (sticky r) i.

(** Try the position [pos], whose suffix is [text], then (unless sticky)
    the following ones; the result is the index where the match ends. *)
Fixpoint scan (stick : bool) (re : list item) (text : list ascii) (pos : nat)
    : option nat :=
  match matchEnd re text with
  | Some n => Some (pos + n)
  | None =>
      if stick then None
      else match text with
           | _ :: rest => scan stick re rest (S pos)
           | [] => None
           end
  end.

(** [r.test(text)]: the answer and the object afterwards. Without [g]
    and [y] the search starts at 0 and [lastIndex] is left alone. *)
Definition exec (r : object) (text : string) : bool * object :=
  let chars := list_ascii_of_string text in
  let flagged := global r || sticky r in
  let start := if flagged then lastIndex r else 0 in
  if length chars <? start
  then (false, if flagged then setLastIndex r 0 else r)
  else match scan (sticky r) (parse (source r)) (skipn start chars) start with
       | Some e => (true, if flagged then setLastIndex r e else r)
       | None => (false, if flagged then setLastIndex r 0 else r)
       end.

End RegExp.

(** ** JavaScript values and exceptions *)

(** A value as [JSON.parse] produces it. Objects are kept as the list of
    their members; numbers are integers (token counts and the like). *)
Inductive JsVal : Type :=
| JUndefined
| JNull
| JBool (b : bool)
| JNum (n : Z)
| JStr (s : string)
| JArr (elems : list JsVal)
| JObj (members : list (string * JsVal)).

(** What the code looks at in a caught exception [e]: [e.name],
    [e.message] (absent on a thrown non-Error) and [String(e)]. *)
Record JsError : Type := mkError {
  err_name : string;
  err_message : option string;
  err_string : string
}.

Definition Fallible (A : Type) : Type := (JsError + A)%type.

Module Js.

Definition isNullish (v : JsVal) : bool :=
  match v with JUndefined | JNull => true | _ => false end.

(** [a ?? b] *)
Definition orElse (a b : JsVal) : JsVal := if isNullish a then b else a.

(** [ToBoolean] *)
Definition truthy (v : JsVal) : bool :=
  match v with
  | JUndefined | JNull => false
  | JBool b => b
  | JNum n => negb (Z.eqb n 0)
  | JStr s => JsString.truthy s
  | JArr _ | JObj _ => true
  end.

Definition describe (v : JsVal) : string :=
  match v with JNull => "null" | _ => "undefined" end.

(** The TypeError of V8 for a property read on [undefined] or [null]. *)
Definition readError (base : JsVal) (prop : string) : JsError :=
  let msg := String.append "Cannot read properties of "
               (String.append (describe base)
                  (String.append " (reading '" (String.append prop "')"))) in
  mkError "TypeError" (Some msg) (String.append "TypeError: " msg).

(** The TypeError for calling a property that is not a function. *)
Definition notAFunction (what : string) : JsError :=
  let msg := String.append what " is not a function" in
  mkError "TypeError" (Some msg) (String.append "TypeError: " msg).

Fixpoint lookupMember (k : string) (ms : list (string * JsVal)) : JsVal :=
  match ms with
  | [] => JUndefined
  | (k', v) :: rest => if String.eqb k k' then v else lookupMember k rest
  end.

(** [base.prop] for the property names the scripts read ([choices],
    [message], [content], [usage], ...): none of them is inherited by
    an array, a string, a number or a boolean. *)
Definition getProp (base : JsVal) (prop : string) : Fallible JsVal :=
  match base with
  | JUndefined | JNull => inl (readError base prop)
  | JObj ms => inr (lookupMember prop ms)
  | _ => inr JUndefined
  end.

(** [base[0]] *)
Definition getFirst (base : JsVal) : Fallible JsVal :=
  match base with
  | JUndefined | JNull => inl (readError base "0")
  | JObj ms => inr (lookupMember "0" ms)
  | JArr (v :: _) => inr v
  | JStr (String c _) => inr (JStr (String c EmptyString))
  | _ => inr JUndefined
  end.

(** Fields that the source types as [number] or [string]: a JSON
    value of another type is outside the declared interface and is
    read as absent. *)
Definition asNumber (v : JsVal) : option Z :=
  match v with JNum n => Some n | _ => None end.

Definition asString (v : JsVal) : option string :=
  match v with JStr s => Some s | _ => None end.

End Js.

(** Sequencing of fallible reads inside the [try] block. *)
Definition tryBind {A B : Type} (x : Fallible A) (f : A -> Fallible B) : Fallible B :=
  match x with
  | inl e => inl e
  | inr a => f a
  end.

Notation "'try!' x <- c ; k" := (tryBind c (fun x => k))
  (at level 10, x name, c at level 100, k at level 200, only parsing).

(** ** Data model of the query script *)

Record ModelConfig : Type := mkModelConfig {
  mc_id : string;
  mc_name : string;
  mc_provider : string;
  mc_license : string;
  mc_released : option string
}.

Record Config : Type := mkConfig {
  cfg_prompt : string;
  cfg_temperature : Q;
  cfg_max_tokens : Z;
  cfg_runs_per_model : option nat;
  cfg_models : list ModelConfig
}.

Record RunResult : Type := mkRunResult {
  success : bool;
  content : JsVal;
  tokens_prompt : option Z;
  tokens_completion : option Z;
  tokens_reasoning : option Z;
  finish_reason : option string;
  topics : option (list string);
  reasoning : option string;
  error : option string
}.

Record ModelEntry : Type := mkModelEntry {
  id : string;
  name : string;
  provider : string;
  license : string;
  released : option string;
  runs : list RunResult
}.

(** [{ success: false, content: null, error }] *)
Definition failed (msg : string) : RunResult :=
  mkRunResult false JNull None None None None None None (Some msg).

(** ** The remote completion API *)

(** The [Response] of [fetch] as the code uses it: [status] (and [ok]),
    [text()] and [json()], each of which may reject. *)
Record Response : Type := mkResponse {
  status : nat;
  text_result : Fallible string;
  json_result : Fallible JsVal
}.

Definition ok (r : Response) : bool := (200 <=? status r) && (status r <=? 299).

Inductive FetchOutcome : Type :=
| FetchThrows (e : JsError)
| FetchResponse (r : Response).

(** The payload of one POST, as far as it varies. *)
Record Request : Type := mkRequest {
  req_model : string;
  req_prompt : string;
  req_temperature : Q;
  req_max_tokens : Z
}.

(** The world of the query script: the requests issued so far, oldest first. *)
Definition World : Type := list Request.

Definition Api : Type := World -> Request -> FetchOutcome.

(** The body of the [try] block after [fetch] resolved with [resp]. *)
Definition readResponse (resp : Response) : Fallible RunResult :=
  if negb (ok resp) then
    try! text <- text_result resp;
    inr (failed (String.append "HTTP "
                   (String.append (JsString.ofNat (status resp))
                      (String.append ": " (JsString.slice0 200 text)))))
  else
    try! data <- json_result resp;
    try! choices <- Js.getProp data "choices";
    try! choice <- Js.getFirst choices;
    try! message <- Js.getProp choice "message";
    try! content <- Js.getProp message "content";
    try! reasoning0 <- Js.getProp message "reasoning";
    let reasoning := Js.orElse reasoning0 JUndefined in
    try! usage0 <- Js.getProp data "usage";
    let usage := Js.orElse usage0 (JObj []) in
    try! prompt_tokens <- Js.getProp usage "prompt_tokens";
    try! completion_tokens <- Js.getProp usage "completion_tokens";
    try! reasoning_tokens <- Js.getProp usage "reasoning_tokens";
    try! finish <- Js.getProp choice "finish_reason";
    inr {| success := true;
           content := content;
           tokens_prompt := Js.asNumber (Js.orElse prompt_tokens (JNum 0));
           tokens_completion := Js.asNumber (Js.orElse completion_tokens (JNum 0));
           tokens_reasoning := Js.asNumber (Js.orElse reasoning_tokens JUndefined);
           finish_reason := Js.asString (Js.orElse finish (JStr "unknown"));
           topics := None;
           reasoning := if Js.truthy reasoning then Js.asString reasoning else None;
           error := None |}.

(** [err.message ?? String(e)] *)
Definition messageOf (e : JsError) : string :=
  match err_message e with
  | Some m => m
  | None => err_string e
  end.

(** The [catch] block. *)
Definition catchError (e : JsError) : RunResult :=
  if String.eqb (err_name e) "TimeoutError" then failed "timeout"
  else failed (JsString.slice0 200 (messageOf e)).

(** What [queryModel] returns once [fetch] has settled. *)
Definition settle (o : FetchOutcome) : RunResult :=
  match o with
  | FetchThrows e => catchError e
  | FetchResponse resp =>
      match readResponse resp with
      | inl e => catchError e
      | inr r => r
      end
  end.

(** [queryModel]: one POST, logged in the world; it never rejects. *)
Definition queryModel (api : Api) (modelId prompt : string) (temperature : Q)
    (maxTokens : Z) (w : World) : RunResult * World :=
  let req := mkRequest modelId prompt temperature maxTokens in
  (settle (api w req), w ++ [req]).

(** ** Topic classifier *)

(** The keyword registry, in the order of the object literal. No key is
    an array index, so [Object.entries] enumerates it in this order
    (see [topicKeywords_ordinary]). *)
Definition topicKeywords : list (string * list string) :=
  [ ("jellyfish", ["jellyfish"; "medusa"; "cnidarian"]);
    ("octopus", ["octopus"; "octopi"; "octopuses"; "cephalopod"]);
    ("eiffel tower", ["eiffel tower"; "gustave eiffel"]);
    ("honey", ["honey never spoils"; "honey doesn't expire"; "honey found in tombs"]);
    ("bananas", ["bananas are berries"; "banana is a berry"; "banana.*radioactive"]);
    ("cleopatra", ["cleopatra.*pyramid"; "cleopatra.*moon landing"; "cleopatra.*closer in time"]);
    ("oxford university", ["oxford.*university.*aztec"; "oxford.*older"]);
    ("mantis shrimp", ["mantis shrimp"]);
    ("tardigrade", ["tardigrade"; "water bear"]);
    ("venus", ["venus.*day.*year"; "venus.*longer"]);
    ("blue whale", ["blue whale.*heart"; "blue whale.*tongue"]);
    ("shakespeare", ["shakespeare.*invented"; "shakespeare.*words"]);
    ("dna", ["share.*dna.*banana"; "dna.*banana"]);
    ("space", ["neutron star"; "teaspoon.*star"; "space.*silent"]);
    ("platypus", ["platypus"]);
    ("sloths", ["sloth"]);
    ("trees", ["more trees.*stars"; "trees on earth.*stars"]);
    ("anglo-zanzibar war",
       ["anglo-zanzibar"; "zanzibar war"; "shortest war"; "shortest recorded war"]) ].

(** The inner loop: push the topic at the first keyword that matches,
    then [break]. *)
Fixpoint keywordLoop (lower topic : string) (keywords : list string)
    (topics : list string) : list string :=
  match keywords with
  | [] => topics
  | kw :: rest =>
      if RegExp.test kw lower then topics ++ [topic]
      else keywordLoop lower topic rest topics
  end.

(** The outer loop over the entries of a registry. *)
Definition topicLoop (lower : string) (registry : list (string * list string))
    (topics : list string) : list string :=
  fold_left (fun acc entry => keywordLoop lower (fst entry) (snd entry) acc)
            registry topics.

Definition detectTopics (text : string) : list string :=
  topicLoop (JsString.toLowerCase text) topicKeywords [].

(** [detectTopics(result.content!)] at run time: the non-null assertion
    is erased, and [text.toLowerCase()] throws on anything but a string. *)
Definition detectTopicsOf (v : JsVal) : Fallible (list string) :=
  match v with
  | JStr s => inr (detectTopics s)
  | JUndefined | JNull => inl (Js.readError v "toLowerCase")
  | _ => inl (Js.notAFunction "text.toLowerCase")
  end.

(** *** The classifier over the heap of RegExp objects

    [new RegExp(kw)] allocates an object and [test] may read and write
    its [lastIndex]; here the loops of [detectTopics] are written with
    that heap threaded through. [detectTopicsRun_pure] shows that the
    list returned is the one of [detectTopics], whatever the heap. *)

Definition Heap : Type := list RegExp.object.

(** [new RegExp(src)]: a fresh object, no flags, [lastIndex] 0; the
    reference is its address. *)
Definition newRegExp (src : string) (h : Heap) : nat * Heap :=
  (length h, h ++ [RegExp.mkObject src false false 0]).

(** [re.test(text)] through a reference (every reference the program
    holds is allocated, the last branch is never taken). *)
Definition regExpTest (ref : nat) (text : string) (h : Heap) : bool * Heap :=
  match h !! ref with
  | Some r => let (matched, r') := RegExp.exec r text in (matched, <[ref := r']> h)
  | None => (false, h)
  end.

Fixpoint keywordLoopRun (lower topic : string) (keywords : list string)
    (topics : list string) (h : Heap) : list string * Heap :=
  match keywords with
  | [] => (topics, h)
  | kw :: rest =>
      let (re, h1) := newRegExp kw h in
      let (matched, h2) := regExpTest re lower h1 in
      if matched then (topics ++ [topic], h2)
      else keywordLoopRun lower topic rest topics h2
  end.

Definition topicLoopRun (lower : string) (registry : list (string * list string))
    (topics : list string) (h : Heap) : list string * Heap :=
  fold_left (fun acc entry =>
               keywordLoopRun lower (fst entry) (snd entry) (fst acc) (snd acc))
            registry (topics, h).

Definition detectTopicsRun (text : string) (h : Heap) : list string * Heap :=
  topicLoopRun (JsString.toLowerCase text) topicKeywords [] h.

(** ** Plain objects used as ordered maps

    [Object.entries] and [JSON.stringify] enumerate the own keys of an
    object with the array indices first, in ascending numeric order, and
    then the other string keys in insertion order. An object is kept as
    the list of its entries in that order. Names that a plain object
    inherits from [Object.prototype] ([constructor], [toString], ...)
    are not modelled; [ordinaryKey] excludes them. *)

Module JsObject.

Definition isDigit (c : ascii) : bool :=
  let n := nat_of_ascii c in (48 <=? n) && (n <=? 57).

Fixpoint digitsValue (acc : N) (s : string) : option N :=
  match s with
  | EmptyString => Some acc
  | String c s' =>
      if isDigit c
      then digitsValue (acc * 10 + (N_of_ascii c - 48))%N s'
      else None
  end.

(** A canonical numeric string below 2^32 - 1. *)
Definition arrayIndex (k : string) : option N :=
  match k with
  | EmptyString => None
  | String c rest =>
      if Ascii.eqb c "0"%char && negb (String.eqb rest EmptyString) then None
      else match digitsValue 0%N k with
           | Some n => if (n <? 4294967295)%N then Some n else None
           | None => None
           end
  end.

Definition inheritedNames : list string :=
  [ "__proto__"; "constructor"; "hasOwnProperty"; "isPrototypeOf";
    "propertyIsEnumerable"; "toLocaleString"; "toString"; "valueOf";
    "__defineGetter__"; "__defineSetter__"; "__lookupGetter__";
    "__lookupSetter__" ].

Definition ordinaryKey (k : string) : bool :=
  match arrayIndex k with
  | Some _ => false
  | None => negb (existsb (String.eqb k) inheritedNames)
  end.

Section Ops.
Context {V : Type}.

Definition t : Type := list (string * V).

Fixpoint get (k : string) (o : t) : option V :=
  match o with
  | [] => None
  | (k', v) :: rest => if String.eqb k k' then Some v else get k rest
  end.

Fixpoint replace (k : string) (v : V) (o : t) : t :=
  match o with
  | [] => []
  | (k', v') :: rest =>
      if String.eqb k k' then (k', v) :: rest
      else (k', v') :: replace k v rest
  end.

(** Place of a new array index: before the first larger index and
    before every other key. *)
Fixpoint insertIndex (n : N) (k : string) (v : V) (o : t) : t :=
  match o with
  | [] => [(k, v)]
  | (k', v') :: rest =>
      match arrayIndex k' with
      | Some n' =>
          if (n <? n')%N then (k, v) :: o
          else (k', v') :: insertIndex n k v rest
      | None => (k, v) :: o
      end
  end.

(** [o[k] = v] *)
Definition set (k : string) (v : V) (o : t) : t :=
  match get k o with
  | Some _ => replace k v o
  | None =>
      match arrayIndex k with
      | Some n => insertIndex n k v o
      | None => o ++ [(k, v)]
      end
  end.

(** [Object.entries(o)] *)
Definition entries (o : t) : list (string * V) := o.

(** [Object.fromEntries(l)] *)
Definition fromEntries (l : list (string * V)) : t :=
  fold_left (fun o kv => set (fst kv) (snd kv) o) l [].
End Ops.

Arguments t : clear implicits.

End JsObject.

(** ** Statistics *)

Record Stats : Type := mkStats {
  total_models : nat;
  total_responses : nat;
  total_tokens : Z;
  total_reasoning_tokens : Z;
  topic_frequency : JsObject.t nat
}.

(** The mutable locals of [computeStats]. *)
Record Tally : Type := mkTally {
  topicCounts : JsObject.t nat;
  totalResponses : nat;
  totalTokens : Z;
  totalReasoningTokens : Z
}.

(** [topicCounts[topic] = (topicCounts[topic] ?? 0) + 1] *)
Definition bump (counts : JsObject.t nat) (topic : string) : JsObject.t nat :=
  JsObject.set topic (default 0 (JsObject.get topic counts) + 1) counts.

(** The two token totals are kept in [Z]. The code adds doubles: the
    two agree as long as the counts are non-negative integers and the
    total stays within 2^53 ([safeCounts]); beyond, the double rounds. *)
Definition tallyRun (acc : Tally) (run : RunResult) : Tally :=
  if success run then
    {| topicCounts := fold_left bump (default [] (topics run)) (topicCounts acc);
       totalResponses := totalResponses acc + 1;
       totalTokens := (totalTokens acc + default 0 (tokens_completion run))%Z;
       totalReasoningTokens :=
         (totalReasoningTokens acc + default 0 (tokens_reasoning run))%Z |}
  else acc.

Definition tallyModel (acc : Tally) (model : ModelEntry) : Tally :=
  fold_left tallyRun (runs model) acc.

(** [Array.prototype.sort] is stable; with the comparator
    [(a, b) => b[1] - a[1]] an entry stays in front of every later entry
    whose count is not larger. *)
Fixpoint insertDesc (x : string * nat) (l : list (string * nat)) : list (string * nat) :=
  match l with
  | [] => [x]
  | y :: l' => if snd x <? snd y then y :: insertDesc x l' else x :: l
  end.

Definition sortDesc (l : list (string * nat)) : list (string * nat) :=
  fold_right insertDesc [] l.

(** [.slice(0, n)] on an array *)
Definition sliceTo {A : Type} (n : nat) (l : list A) : list A := firstn n l.

Definition computeStats (models : list ModelEntry) : Stats :=
  let acc := fold_left tallyModel models (mkTally [] 0 0%Z 0%Z) in
  let topicFrequency :=
    JsObject.fromEntries
      (sliceTo 20 (sortDesc (JsObject.entries (topicCounts acc)))) in
  {| total_models := length models;
     total_responses := totalResponses acc;
     total_tokens := totalTokens acc;
     total_reasoning_tokens := totalReasoningTokens acc;
     topic_frequency := topicFrequency |}.

(** ** The query script: control flow *)

(** How a computation of [main] ends: normally, by an uncaught
    exception (reported by [main().catch]), or by [process.exit]. *)
Inductive Outcome (A : Type) : Type :=
| Ok (a : A)
| Thrown (e : JsError)
| Exited (code : nat).

Arguments Ok {A} a.
Arguments Thrown {A} e.
Arguments Exited {A} code.

(** State (the request log) and abrupt completion. *)
Definition M (A : Type) : Type := World -> Outcome A * World.

Definition ret {A : Type} (a : A) : M A := fun w => (Ok a, w).

Definition bind {A B : Type} (m : M A) (f : A -> M B) : M B :=
  fun w =>
    match m w with
    | (Ok a, w') => f a w'
    | (Thrown e, w') => (Thrown e, w')
    | (Exited c, w') => (Exited c, w')
    end.

(** An awaited call that cannot reject. *)
Definition lift {A : Type} (act : World -> A * World) : M A :=
  fun w => let (a, w') := act w in (Ok a, w').

(** A synchronous expression that may throw. *)
Definition liftF {A : Type} (x : Fallible A) : M A :=
  fun w => match x with inl e => (Thrown e, w) | inr a => (Ok a, w) end.

Definition exit {A : Type} (code : nat) : M A := fun w => (Exited code, w).

Notation "'do!' x <- c ; k" := (bind c (fun x => k))
  (at level 10, x name, c at level 100, k at level 200, only parsing).

Record Args : Type := mkArgs {
  filterStr : option string;
  dryRun : bool;
  append : bool
}.

(** The loop over [process.argv.slice(2)]. *)
Fixpoint parseArgs (args : list string) (acc : Args) : Args :=
  match args with
  | [] => acc
  | a :: rest =>
      if String.eqb a "--filter" then
        match rest with
        | v :: rest' =>
            if JsString.truthy v
            then parseArgs rest' (mkArgs (Some v) (dryRun acc) (append acc))
            else parseArgs rest acc
        | [] => acc
        end
      else if String.eqb a "--dry-run" then
        parseArgs rest (mkArgs (filterStr acc) true (append acc))
      else if String.eqb a "--append" then
        parseArgs rest (mkArgs (filterStr acc) (dryRun acc) true)
      else parseArgs rest acc
  end.

Definition optTruthy (s : option string) : bool :=
  match s with Some v => JsString.truthy v | None => false end.

(** [--filter]: keep the models whose id or name contains one of the
    comma-separated, trimmed, lower-cased fragments. *)
Definition applyFilter (filterStr : option string) (models : list ModelConfig)
    : list ModelConfig :=
  match filterStr with
  | Some fs =>
      if JsString.truthy fs then
        let filters :=
          map (fun f => JsString.toLowerCase (JsString.trim f))
              (JsString.split ","%char fs) in
        List.filter (fun m =>
                  existsb (fun f =>
                             JsString.includes (JsString.toLowerCase (mc_id m)) f
                             || JsString.includes (JsString.toLowerCase (mc_name m)) f)
                          filters)
               models
      else models
  | None => models
  end.

(** The dataset file as [--append] finds it: unreadable or not JSON
    (the [catch] starts fresh), or parsed, with or without [models]. *)
Inductive DataFile : Type :=
| Unreadable
| Parsed (models : option (list ModelEntry)).

(** [for (const m of existingData) existingIds.add(m.id)] *)
Definition collectIds (existingData : list ModelEntry) : gset string :=
  fold_left (fun ids m => ids ∪ {[ id m ]}) existingData ∅.

Definition loadExisting (append : bool) (file : DataFile)
    : gset string * list ModelEntry :=
  if append then
    match file with
    | Parsed old =>
        let existingData := default [] old in
        (collectIds existingData, existingData)
    | Unreadable => (∅, [])
    end
  else (∅, []).

Definition retryTokens : list Z := [2500; 5000; 10000]%Z.

(** [!result.content || !result.content.trim()] *)
Definition contentIsEmpty (v : JsVal) : Fallible bool :=
  if negb (Js.truthy v) then inr true
  else match v with
       | JStr s => inr (negb (JsString.truthy (JsString.trim s)))
       | _ => inl (Js.notAFunction "result.content.trim")
       end.

Definition setTopics (r : RunResult) (ts : list string) : RunResult :=
  {| success := success r; content := content r;
     tokens_prompt := tokens_prompt r; tokens_completion := tokens_completion r;
     tokens_reasoning := tokens_reasoning r; finish_reason := finish_reason r;
     topics := Some ts; reasoning := reasoning r; error := error r |}.

Section Orchestrator.

Variable api : Api.
Variable prompt : string.
Variable temperature : Q.

(** The [while] loop of the retry ladder; [ladder] is what is left of
    [retryTokens] after [retries] boosted attempts. The emptiness test
    comes before the bound test, as in the loop condition. *)
Fixpoint retryLoop (modelId : string) (ladder : list Z) (result : RunResult)
    : M RunResult :=
  if success result then
    do! empty <- liftF (contentIsEmpty (content result));
    if empty then
      match ladder with
      | boostedTokens :: rest =>
          do! result' <- lift (queryModel api modelId prompt temperature boostedTokens);
          retryLoop modelId rest result'
      | [] => ret result
      end
    else ret result
  else ret result.

(** One iteration of the loop over [runIdx]: the value pushed on [runs]. *)
Definition attemptRun (modelId : string) (maxTokens : Z) : M RunResult :=
  do! first <- lift (queryModel api modelId prompt temperature maxTokens);
  do! result <- retryLoop modelId retryTokens first;
  if success result then
    do! ts <- liftF (detectTopicsOf (content result));
    ret (setTopics result ts)
  else ret result.

Fixpoint runLoop (modelId : string) (maxTokens : Z) (remaining : nat)
    (runs : list RunResult) : M (list RunResult) :=
  match remaining with
  | O => ret runs
  | S remaining' =>
      do! result <- attemptRun modelId maxTokens;
      runLoop modelId maxTokens remaining' (runs ++ [result])
  end.

Definition entryOf (model : ModelConfig) (runs : list RunResult) : ModelEntry :=
  {| id := mc_id model;
     name := mc_name model;
     provider := mc_provider model;
     license := mc_license model;
     released := if optTruthy (mc_released model) then mc_released model else None;
     runs := runs |}.

(** The loop over the (filtered) catalog. *)
Fixpoint modelLoop (existingIds : gset string) (maxTokens : Z) (runsPerModel : nat)
    (models : list ModelConfig) (results : list ModelEntry) : M (list ModelEntry) :=
  match models with
  | [] => ret results
  | model :: rest =>
      if bool_decide (mc_id model ∈ existingIds) then
        modelLoop existingIds maxTokens runsPerModel rest results
      else
        do! runs <- runLoop (mc_id model) maxTokens runsPerModel [];
        modelLoop existingIds maxTokens runsPerModel rest
                  (results ++ [entryOf model runs])
  end.

End Orchestrator.

Record Meta : Type := mkMeta {
  meta_prompt : string;
  meta_temperature : Q;
  meta_max_tokens : Z;
  meta_runs_per_model : nat;
  meta_generated_at : string;
  meta_total_models : nat
}.

(** What is written to [site/data.json]. *)
Record Dataset : Type := mkDataset {
  ds_meta : Meta;
  ds_stats : Stats;
  ds_models : list ModelEntry
}.

Definition noArgs : Args := mkArgs None false false.

(** [main] of the query script. [now] is the clock reading used for
    [generated_at]; the result is the dataset written, if any (a dry
    run writes nothing). *)
Definition main (api : Api) (argv : list string) (apiKey : option string)
    (config : Config) (file : DataFile) (now : string) : M (option Dataset) :=
  let args := parseArgs argv noArgs in
  if negb (optTruthy apiKey) && negb (dryRun args) then exit 1
  else
    let prompt := cfg_prompt config in
    let temperature := cfg_temperature config in
    let maxTokens := cfg_max_tokens config in
    let runsPerModel := default 3 (cfg_runs_per_model config) in
    let models := applyFilter (filterStr args) (cfg_models config) in
    let '(existingIds, existingData) := loadExisting (append args) file in
    if dryRun args then ret None
    else
      do! results <- modelLoop api prompt temperature existingIds maxTokens
                       runsPerModel models existingData;
      let stats := computeStats results in
      ret (Some {| ds_meta := {| meta_prompt := prompt;
                                 meta_temperature := temperature;
                                 meta_max_tokens := maxTokens;
                                 meta_runs_per_model := runsPerModel;
                                 meta_generated_at := now;
                                 meta_total_models := total_models stats |};
                   ds_stats := stats;
                   ds_models := results |}).

(** ** The discovery script *)

Module Discovery.

Record LicenseEntry : Type := mkLicenseEntry {
  prefix : string;
  le_license : string;
  le_provider : string
}.

(** Provider prefix to license and provider; more specific first. *)
Definition LICENSE_MAP : list LicenseEntry :=
  [ mkLicenseEntry "google/gemma" "open-weights" "Google";
    mkLicenseEntry "microsoft/phi" "open-source" "Microsoft";
    mkLicenseEntry "anthropic/" "commercial" "Anthropic";
    mkLicenseEntry "openai/" "commercial" "OpenAI";
    mkLicenseEntry "x-ai/" "commercial" "xAI";
    mkLicenseEntry "google/" "commercial" "Google";
    mkLicenseEntry "meta-llama/" "open-weights" "Meta";
    mkLicenseEntry "mistralai/" "open-weights" "Mistral";
    mkLicenseEntry "deepseek/" "open-source" "DeepSeek";
    mkLicenseEntry "qwen/" "open-source" "Alibaba";
    mkLicenseEntry "nvidia/" "open-source" "NVIDIA";
    mkLicenseEntry "cohere/" "open-source" "Cohere" ].

(** [[...new Set(xs)]]: first occurrences, in order. *)
Fixpoint uniqueFrom (seen : gset string) (xs : list string) : list string :=
  match xs with
  | [] => []
  | x :: rest =>
      if bool_decide (x ∈ seen) then uniqueFrom seen rest
      else x :: uniqueFrom (seen ∪ {[ x ]}) rest
  end.

Definition ALLOWED_PREFIXES : list string :=
  uniqueFrom ∅
    (map (fun m => String.append (hd EmptyString (JsString.split "/"%char (prefix m))) "/")
         LICENSE_MAP).

Record ModelYaml : Type := mkModelYaml {
  my_id : string;
  my_name : string;
  my_provider : string;
  my_license : string
}.

Record LicenseInfo : Type := mkLicenseInfo {
  li_license : string;
  li_provider : string
}.

Fixpoint firstLicense (entries : list LicenseEntry) (modelId : string)
    : option LicenseInfo :=
  match entries with
  | [] => None
  | entry :: rest =>
      if JsString.startsWith modelId (prefix entry)
      then Some (mkLicenseInfo (le_license entry) (le_provider entry))
      else firstLicense rest modelId
  end.

Definition getLicenseInfo (modelId : string) : option LicenseInfo :=
  firstLicense LICENSE_MAP modelId.

Definition isAllowedModel (modelId : string) : bool :=
  existsb (fun p => JsString.startsWith modelId p) ALLOWED_PREFIXES.

(** [\w] *)
Definition isWordChar (c : ascii) : bool :=
  let n := nat_of_ascii c in
  ((48 <=? n) && (n <=? 57)) || ((65 <=? n) && (n <=? 90))
  || ((97 <=? n) && (n <=? 122)) || (n =? 95).

(** [.replace(/[-_]/g, ' ')] *)
Definition separatorsToSpaces (s : string) : string :=
  JsString.mapChars
    (fun c => if Ascii.eqb c "-"%char || Ascii.eqb c "_"%char then " "%char else c) s.

(** [.replace(/\b\w/g, c => c.toUpperCase())]: a word character that
    does not follow a word character is upper-cased. *)
Fixpoint capitalizeWords (afterWord : bool) (s : string) : string :=
  match s with
  | EmptyString => EmptyString
  | String c s' =>
      let w := isWordChar c in
      String (if w && negb afterWord then JsString.upperChar c else c)
             (capitalizeWords w s')
  end.

Definition deriveModelName (modelId : string) (apiName : option string) : string :=
  if optTruthy (option_map JsString.trim apiName)
  then JsString.trim (default EmptyString apiName)
  else
    let idPart := nth 1 (JsString.split "/"%char modelId) modelId in
    capitalizeWords false (separatorsToSpaces idPart).

(** An entry of the remote catalog, as [getAllModels] returns it. *)
Record Candidate : Type := mkCandidate {
  cand_id : string;
  cand_name : string
}.

(** [new Map(allModels.map(m => [m.id, m.name]))]: the last entry of
    an id wins. *)
Definition modelMapOf (allModels : list Candidate) : gmap string string :=
  fold_left (fun m c => <[cand_id c := cand_name c]> m) allModels ∅.

(** The accumulators of the two candidate loops. *)
Definition CandState : Type := (list Candidate * gset string)%type.

Definition addCandidate (st : CandState) (c : Candidate) : CandState :=
  let '(candidates, seenIds) := st in
  if negb (bool_decide (cand_id c ∈ seenIds)) && isAllowedModel (cand_id c)
  then (candidates ++ [c], seenIds ∪ {[ cand_id c ]})
  else st.

(** Ranked models first, then the full list. *)
Definition buildCandidates (rankedIds : list string) (allModels : list Candidate)
    : list Candidate :=
  let modelMap := modelMapOf allModels in
  let ranked :=
    fold_left (fun st rid =>
                 addCandidate st (mkCandidate rid (default EmptyString (modelMap !! rid))))
              rankedIds ([], ∅) in
  fst (fold_left addCandidate allModels ranked).

(** The loop that collects the models not yet in the YAML. *)
Fixpoint findNewModels (existingIds : gset string) (candidates : list Candidate)
    (newModels : list ModelYaml) : list ModelYaml :=
  match candidates with
  | [] => newModels
  | candidate :: rest =>
      if bool_decide (cand_id candidate ∈ existingIds) then
        findNewModels existingIds rest newModels
      else if JsString.includes (cand_id candidate) ":" then
        findNewModels existingIds rest newModels
      else
        match getLicenseInfo (cand_id candidate) with
        | None => findNewModels existingIds rest newModels
        | Some licenseInfo =>
            findNewModels existingIds rest
              (newModels ++
                 [ mkModelYaml (cand_id candidate)
                     (deriveModelName (cand_id candidate) (Some (cand_name candidate)))
                     (li_provider licenseInfo) (li_license licenseInfo) ])
        end
  end.

(** [main] up to the decision of what to append: [allModels] and
    [rankedIds] are what the two fetches returned, [yamlModels] the
    models already in [models.yaml]. *)
Definition main (allModels : list Candidate) (rankedIds : list string)
    (yamlModels : list ModelYaml) : list ModelYaml :=
  let existingIds : gset string := list_to_set (map my_id yamlModels) in
  findNewModels existingIds (buildCandidates rankedIds allModels) [].

(** Is [k] a name that the empty object [{}] inherits? *)
Definition inherited (k : string) : bool :=
  existsb (String.eqb k) JsObject.inheritedNames.

(** The loop [(byLicense[m.license] ??= []).push(m)]: one group per
    license, created when the license is first met. [byLicense] starts
    as [{}], with [Object.prototype] behind it: for a license that is
    one of the inherited names the read finds the inherited value, which
    is not nullish and has no [push], and the call throws a TypeError
    ([None]). *)
Fixpoint groupLoop (newModels : list ModelYaml)
    (byLicense : JsObject.t (list ModelYaml))
    : option (JsObject.t (list ModelYaml)) :=
  match newModels with
  | [] => Some byLicense
  | m :: rest =>
      if inherited (my_license m) then None
      else
        groupLoop rest
          (JsObject.set (my_license m)
             (default [] (JsObject.get (my_license m) byLicense) ++ [m])
             byLicense)
  end.

Definition groupByLicense (newModels : list ModelYaml)
    : option (JsObject.t (list ModelYaml)) :=
  groupLoop newModels [].

(** The four lines and the blank line written for one model. *)
Definition yamlLines (m : ModelYaml) : string :=
  String.append "  - id: "
    (String.append JsString.dquote
       (String.append (my_id m)
          (String.append JsString.dquote
             (String.append JsString.newline
  (String.append "    name: "
    (String.append JsString.dquote
       (String.append (my_name m)
          (String.append JsString.dquote
             (String.append JsString.newline
  (String.append "    provider: "
    (String.append JsString.dquote
       (String.append (my_provider m)
          (String.append JsString.dquote
             (String.append JsString.newline
  (String.append "    license: "
    (String.append JsString.dquote
       (String.append (my_license m)
          (String.append JsString.dquote
             (String.append JsString.newline JsString.newline))))))))))))))))))).

Definition additionsHeader : string :=
  String.append JsString.newline
    (String.append "  # === Auto-discovered models ===" JsString.newline).

(** The two nested loops over [Object.values(byLicense)]. *)
Definition additionsOf (byLicense : JsObject.t (list ModelYaml)) : string :=
  fold_left
    (fun additions group =>
       fold_left (fun acc m => String.append acc (yamlLines m)) group additions)
    (map snd (JsObject.entries byLicense))
    additionsHeader.

(** [appendModelsToYaml]: the new content of [models.yaml], given the
    content read; [None] when the grouping loop throws, which is before
    [writeFile]. *)
Definition appendModelsToYaml (existing : string) (newModels : list ModelYaml)
    : option string :=
  let existing' :=
    if JsString.endsWith existing JsString.newline then existing
    else String.append existing JsString.newline in
  match groupByLicense newModels with
  | Some byLicense => Some (String.append existing' (additionsOf byLicense))
  | None => None
  end.

(** What the end of [main] does to [models.yaml]. *)
Inductive Written : Type :=
| Untouched
| Rewritten (content : string)
| Rejected.

(** The end of [main]: nothing is written when there is no new model,
    and [main().catch] ends the process when the append throws. *)
Definition writeBack (yamlContent : string) (newModels : list ModelYaml)
    : Written :=
  match newModels with
  | [] => Untouched
  | _ :: _ =>
      match appendModelsToYaml yamlContent newModels with
      | Some content => Rewritten content
      | None => Rejected
      end
  end.

End Discovery.

(** ** Vocabulary of the statements *)

(** Does some keyword of a registry entry match the lower-cased text? *)
Definition topicMatches (lower : string) (entry : string * list string) : bool :=
  existsb (fun kw => RegExp.test kw lower) (snd entry).

(** The exception that reaches the [catch] block of [queryModel], if
    any: a rejected [fetch], a rejected [text()] or [json()], or a
    TypeError of the property reads. *)
Definition caught (o : FetchOutcome) : option JsError :=
  match o with
  | FetchThrows e => Some e
  | FetchResponse resp =>
      match readResponse resp with
      | inl e => Some e
      | inr _ => None
      end
  end.

(** The error string of a non-2xx response with body [body]. *)
Definition httpMessage (resp : Response) (body : string) : string :=
  String.append "HTTP "
    (String.append (JsString.ofNat (status resp))
       (String.append ": " (JsString.slice0 200 body))).

(** A success whose content the loop condition finds empty. *)
Definition emptySuccess (r : RunResult) : Prop :=
  success r = true /\ contentIsEmpty (content r) = inr true.

(** A success whose content is an empty or whitespace-only string. *)
Definition blankSuccess (r : RunResult) : Prop :=
  success r = true
  /\ exists text, content r = JStr text /\ JsString.trim text = EmptyString.

(** [w'] is [w] followed by requests that all satisfy [P]. *)
Definition extends (P : Request -> Prop) (w w' : World) : Prop :=
  exists added, w' = w ++ added /\ Forall P added.

(** A request for the model [modelId]. *)
Definition forModel (modelId : string) (r : Request) : Prop :=
  req_model r = modelId.

(** The models of the catalog that are queried. *)
Definition queried (existingIds : gset string) (models : list ModelConfig)
    : list ModelConfig :=
  List.filter (fun m => negb (bool_decide (mc_id m ∈ existingIds))) models.

(** A request for a model that is not in the persisted dataset. *)
Definition notExisting (existingIds : gset string) (r : Request) : Prop :=
  req_model r ∉ existingIds.

(** An API whose successes carry a string as content (possibly empty),
    as the interface of the source declares. *)
Definition wellTyped (api : Api) : Prop :=
  forall w req, success (settle (api w req)) = true ->
                exists text, content (settle (api w req)) = JStr text.

Definition stringOnSuccess (r : RunResult) : Prop :=
  success r = true -> exists text, content r = JStr text.

(** The topics of the successful runs of all models, in the order in
    which [computeStats] meets them. *)
Definition successTopics (models : list ModelEntry) : list string :=
  flat_map (fun m =>
              flat_map (fun r => if success r then default [] (topics r) else [])
                       (runs m))
           models.

(** Position of the first occurrence of [t] (the length, if none). *)
Fixpoint firstIndex (t : string) (l : list string) : nat :=
  match l with
  | [] => 0
  | x :: l' => if String.eqb t x then 0 else S (firstIndex t l')
  end.

(** The invariant of the counting loop after the topics [seen]: the
    keys are the topics seen, in the order of their first occurrence,
    each with the number of its occurrences. *)
Record Counted (seen : list string) (counts : JsObject.t nat) : Prop := mkCounted {
  counted_keys : forall t, In t (map fst counts) <-> In t seen;
  counted_values : forall t c, JsObject.get t counts = Some c ->
                               c = count_occ string_dec seen t;
  counted_order :
    StronglySorted (fun k1 k2 => firstIndex k1 seen < firstIndex k2 seen)
                   (map fst counts)
}.

(** Larger count first; among equal counts, the earlier entry first. *)
Definition ranked (before : string * nat -> string * nat -> Prop)
    (a b : string * nat) : Prop :=
  snd b < snd a \/ (snd a = snd b /\ before a b).

(** What [attemptRun] pushes on [runs]: a success with a string as
    content, its topics and no error, or a failure with [content = null],
    no topics and an error message. *)
Definition classified (r : RunResult) : Prop :=
  (success r = true
   /\ exists text, content r = JStr text
                   /\ topics r = Some (detectTopics text) /\ error r = None)
  \/ (success r = false /\ content r = JNull /\ topics r = None
      /\ exists msg, error r = Some msg).

(** A success with [content: null]. *)
Definition nullSuccess (r : RunResult) : Prop :=
  success r = true /\ content r = JNull.




(** A request that [main] may issue for the configuration at hand. *)
Definition configured (prompt : string) (temperature : Q) (maxTokens : Z)
    (ids : list string) (r : Request) : Prop :=
  In (req_model r) ids
  /\ req_prompt r = prompt
  /\ req_temperature r = temperature
  /\ In (req_max_tokens r) (maxTokens :: retryTokens).

(** [w'] is [w] followed by at most [bound] requests, all satisfying [P]. *)
(** The requests issued for one model: at most [bound] of them, each
    for that model and as configured. *)
Definition blockOf (prompt : string) (temperature : Q) (maxTokens : Z)
    (bound : nat) (model : ModelConfig) (block : list Request) : Prop :=
  length block <= bound
  /\ Forall (configured prompt temperature maxTokens [mc_id model]) block.

Definition issued (P : Request -> Prop) (bound : nat) (w w' : World) : Prop :=
  exists added, w' = w ++ added /\ Forall P added /\ length added <= bound.

(** The labels of the registry, in its order. *)
Definition registryLabels : list string := map fst topicKeywords.

(** A text of white space only. *)
Definition allWhitespace (s : string) : bool :=
  forallb JsString.isWhitespace (list_ascii_of_string s).

(** A pattern whose first item is a literal character that is no white space. *)
Definition startsWithInk (kw : string) : bool :=
  match RegExp.parse kw with
  | RegExp.Lit c :: _ => negb (JsString.isWhitespace c)
  | _ => false
  end.

(** The guards of the discovery loop on an id: not in the YAML, no
    variant suffix, a license entry. *)
Definition isNewId (existingIds : gset string) (modelId : string) : bool :=
  negb (bool_decide (modelId ∈ existingIds))
  && negb (JsString.includes modelId ":")
  && match Discovery.getLicenseInfo modelId with Some _ => true | None => false end.

(** The YAML record built for a candidate that has a license entry. *)
Definition recordOf (c : Discovery.Candidate) : Discovery.ModelYaml :=
  match Discovery.getLicenseInfo (Discovery.cand_id c) with
  | Some info =>
      Discovery.mkModelYaml (Discovery.cand_id c)
        (Discovery.deriveModelName (Discovery.cand_id c) (Some (Discovery.cand_name c)))
        (Discovery.li_provider info) (Discovery.li_license info)
  | None =>
      Discovery.mkModelYaml (Discovery.cand_id c)
        (Discovery.deriveModelName (Discovery.cand_id c) (Some (Discovery.cand_name c)))
        EmptyString EmptyString
  end.

(** Concatenation of strings, in order. *)
Definition concatStrings (l : list string) : string :=
  fold_right String.append EmptyString l.

(** A hyphen or an underscore. *)
Definition isSeparator (c : ascii) : bool :=
  Ascii.eqb c "-"%char || Ascii.eqb c "_"%char.

(** A pattern without [.*]: it is read as the sequence of its characters. *)
Definition literal (s : string) : Prop :=
  RegExp.parse s = map RegExp.Lit (list_ascii_of_string s).

(** Characters without a line terminator among them. *)
Definition oneLine (gap : list ascii) : bool := forallb RegExp.dotMatches gap.

(** ** Sample inputs *)

(** An API that answers every request with the same status and body;
    the body is not JSON. *)
Definition alwaysStatus (code : nat) (body : string) : Api :=
  fun _ _ =>
    FetchResponse
      (mkResponse code (inr body)
         (inl (mkError "SyntaxError" (Some "Unexpected token")
                 "SyntaxError: Unexpected token"))).

(** An API that answers 502 and breaks the connection before the
    body arrives: [text()] and [json()] reject. *)
Definition brokenBody : Api :=
  fun _ _ =>
    FetchResponse
      (mkResponse 502
         (inl (mkError "TypeError" (Some "terminated") "TypeError: terminated"))
         (inl (mkError "TypeError" (Some "terminated") "TypeError: terminated"))).

(** [c.repeat(n)] *)
Fixpoint repeatChar (n : nat) (c : ascii) : string :=
  match n with
  | O => EmptyString
  | S n' => String c (repeatChar n' c)
  end.

(** An API on which every request runs into the 120 s timeout. *)
Definition timingOut : Api :=
  fun _ _ =>
    FetchThrows
      (mkError "TimeoutError" (Some "The operation was aborted due to timeout")
         "TimeoutError: The operation was aborted due to timeout").

(** A completion with the given [content], as the API sends it. *)
Definition completion (c : JsVal) : FetchOutcome :=
  FetchResponse
    (mkResponse 200 (inr EmptyString)
       (inr (JObj [ ("choices",
                     JArr [ JObj [ ("message", JObj [("content", c)]);
                                   ("finish_reason", JStr "stop") ] ]);
                    ("usage", JObj [ ("prompt_tokens", JNum 12);
                                     ("completion_tokens", JNum 40) ]) ]))).

Definition alwaysContent (c : JsVal) : Api := fun _ _ => completion c.

(** Empty content for the first [n] requests, [text] afterwards. *)
Definition contentAfter (n : nat) (text : string) : Api :=
  fun w _ => if length w <? n then completion (JStr EmptyString)
             else completion (JStr text).

Definition demoConfig : Config :=
  mkConfig "Tell me something I don't know." (7 # 10) 1000%Z (Some 2)
    [ mkModelConfig "openai/gpt-4" "GPT-4" "OpenAI" "commercial" None;
      mkModelConfig "openai/gpt-5" "GPT-5" "OpenAI" "commercial" (Some "2025-08");
      mkModelConfig "qwen/qwen3" "Qwen 3" "Alibaba" "open-source" None ].

Definition demoEntry : ModelEntry :=
  mkModelEntry "openai/gpt-4" "GPT-4" "OpenAI" "commercial" None
    [ setTopics (settle (completion (JStr "Sloths are slow."))) ["sloths"] ].

(** Persisted: one model that left the catalog, one that [--filter]
    below excludes, one that is still in the catalog and selected. *)
Definition demoPersisted : list ModelEntry :=
  [ mkModelEntry "legacy/model" "Legacy" "Nobody" "commercial" None
      [ failed "timeout" ];
    mkModelEntry "qwen/qwen3" "Qwen 3" "Alibaba" "open-source" None [];
    demoEntry ].

Definition demoArgv : list string := ["--append"; "--filter"; "GPT , claude"].

Definition demoRun : Outcome (option Dataset) * World :=
  main (alwaysContent (JStr "The immortal jellyfish.")) demoArgv (Some "sk-or-demo")
       demoConfig (Parsed (Some demoPersisted)) "2026-01-01T00:00:00.000Z" [].

Definition demoDataset : Dataset :=
  match fst demoRun with
  | Ok (Some dataset) => dataset
  | _ => mkDataset (mkMeta "" 0 0%Z 0 "" 0) (mkStats 0 0 0%Z 0%Z []) []
  end.

(** * Properties *)

(** ** Strings and patterns *)

Section StringFacts.

Lemma mapChars_app f (a b : string) :
  JsString.mapChars f (String.append a b)
  = String.append (JsString.mapChars f a) (JsString.mapChars f b).
Proof. induction a as [|c a IH]; simpl; [reflexivity | now rewrite IH]. Qed.

Lemma toLowerCase_app (a b : string) :
  JsString.toLowerCase (String.append a b)
  = String.append (JsString.toLowerCase a) (JsString.toLowerCase b).
Proof. apply mapChars_app. Qed.

Lemma chars_app (a b : string) :
  list_ascii_of_string (String.append a b)
  = list_ascii_of_string a ++ list_ascii_of_string b.
Proof. induction a as [|c a IH]; simpl; [reflexivity | now rewrite IH]. Qed.

Lemma slice0_length n s : String.length (JsString.slice0 n s) <= n.
Proof.
  revert s; induction n as [|n IH]; intros [|c s]; simpl; try lia.
  specialize (IH s); lia.
Qed.

Lemma slice0_nonempty n s :
  s <> EmptyString -> JsString.slice0 (S n) s <> EmptyString.
Proof. destruct s; simpl; [congruence | discriminate]. Qed.

Lemma string_length_app (a b : string) :
  String.length (String.append a b) = String.length a + String.length b.
Proof. induction a as [|c a IH]; simpl; [reflexivity | now rewrite IH]. Qed.

Lemma matchHere_literal (l rest : list ascii) :
  RegExp.matchHere (map RegExp.Lit l) (l ++ rest) = true.
Proof.
  induction l as [|c l IH]; simpl; [reflexivity |].
  now rewrite Ascii.eqb_refl, IH.
Qed.

Lemma search_skip re (pre text : list ascii) :
  RegExp.matchHere re text = true -> RegExp.search re (pre ++ text) = true.
Proof.
  intros H; induction pre as [|c pre IH]; simpl.
  - destruct text; simpl; rewrite H; reflexivity.
  - rewrite IH. apply orb_true_r.
Qed.

(** A pattern without [.*] is found wherever it occurs. *)
Lemma test_literal (kw pre post : string) :
  RegExp.parse kw = map RegExp.Lit (list_ascii_of_string kw) ->
  RegExp.test kw (String.append pre (String.append kw post)) = true.
Proof.
  intros Hp. unfold RegExp.test. rewrite Hp, !chars_app.
  apply search_skip, matchHere_literal.
Qed.

End StringFacts.

(** ** Topic classifier *)

(** Every pattern of the registry lies in the modelled fragment. *)
Lemma keywords_in_fragment :
  forallb (fun e => forallb RegExp.inFragment (snd e)) topicKeywords = true.
Proof. vm_compute. reflexivity. Qed.

(** No label of the registry is an array index or an inherited name, so
    the registry enumerates in the order it is written. *)
Lemma topicKeywords_ordinary :
  forallb (fun e => JsObject.ordinaryKey (fst e)) topicKeywords = true.
Proof. vm_compute. reflexivity. Qed.

Lemma keywordLoop_spec lower topic kws acc :
  keywordLoop lower topic kws acc
  = if existsb (fun kw => RegExp.test kw lower) kws then acc ++ [topic] else acc.
Proof.
  induction kws as [|kw kws IH]; simpl; [reflexivity |].
  destruct (RegExp.test kw lower); simpl; [reflexivity | exact IH].
Qed.

Lemma topicLoop_spec lower registry acc :
  topicLoop lower registry acc
  = acc ++ map fst (List.filter (topicMatches lower) registry).
Proof.
  unfold topicLoop. revert acc.
  induction registry as [|e registry IH]; intros acc; simpl.
  - now rewrite app_nil_r.
  - rewrite IH, keywordLoop_spec. unfold topicMatches at 2.
    destruct (existsb _ (snd e)); simpl; [now rewrite <- app_assoc | reflexivity].
  Qed.

(** The two loops compute the registry labels that match, in registry
    order, each at most once. *)
Lemma detectTopics_spec text :
  detectTopics text
  = map fst (List.filter (topicMatches (JsString.toLowerCase text)) topicKeywords).
Proof. unfold detectTopics. now rewrite topicLoop_spec. Qed.

Lemma detectTopics_NoDup text : List.NoDup (detectTopics text).
Proof.
  rewrite detectTopics_spec.
  assert (Hnd : List.NoDup (map fst topicKeywords)).
  { unfold topicKeywords. cbn [map fst].
    repeat (apply List.NoDup_cons; [simpl; intuition discriminate |]).
    apply List.NoDup_nil. }
  revert Hnd. generalize topicKeywords.
  induction l as [|e l IH]; simpl; intros Hnd; [constructor |].
  inversion Hnd as [|? ? Hx Hl]; subst.
  destruct (topicMatches _ e); simpl; [| now apply IH].
  constructor; [| now apply IH].
  intros Hin. apply Hx. apply in_map_iff in Hin. destruct Hin as [y [Hy Hin]].
  apply filter_In in Hin. apply in_map_iff. exists y. tauto.
Qed.

Lemma starEnd_starFrom (kE : list ascii -> option nat) (kB : list ascii -> bool) :
  (forall t, RegExp.found (kE t) = kB t) ->
  forall text, RegExp.found (RegExp.starEnd kE text) = RegExp.starFrom kB text.
Proof.
  intros Hk text. induction text as [| c rest IH]; simpl.
  - rewrite Hk. now rewrite orb_false_r.
  - destruct (RegExp.dotMatches c); simpl.
    + rewrite <- IH. destruct (RegExp.starEnd kE rest).
      * now rewrite orb_true_r.
      * rewrite orb_false_r. apply Hk.
    + rewrite orb_false_r. apply Hk.
Qed.

Lemma matchEnd_matchHere (re : list RegExp.item) :
  forall text, RegExp.found (RegExp.matchEnd re text) = RegExp.matchHere re text.
Proof.
  induction re as [| i re IH]; intros text; simpl.
  - reflexivity.
  - destruct i.
    + destruct text as [| x rest]; [reflexivity |].
      destruct (Ascii.eqb c x); simpl; [| reflexivity].
      rewrite <- IH. now destruct (RegExp.matchEnd re rest).
    + apply starEnd_starFrom, IH.
Qed.

Lemma scan_search (re : list RegExp.item) :
  forall text pos,
    RegExp.found (RegExp.scan false re text pos) = RegExp.search re text.
Proof.
  induction text as [| c rest IH]; intros pos; simpl;
    rewrite <- matchEnd_matchHere; destruct (RegExp.matchEnd re _); simpl; auto.
Qed.

(** [test] on an object without flags neither reads nor writes
    [lastIndex]. *)
Lemma exec_unflagged (src : string) (i : nat) (text : string) :
  RegExp.exec (RegExp.mkObject src false false i) text
  = (RegExp.test src text, RegExp.mkObject src false false i).
Proof.
  unfold RegExp.exec, RegExp.test. simpl.
  rewrite <- (scan_search (RegExp.parse src) (list_ascii_of_string text) 0).
  now destruct (RegExp.scan false _ _ 0).
Qed.

(** A test on a freshly allocated object answers as [RegExp.test],
    whatever the heap holds. *)
Lemma fresh_test (kw text : string) (h : Heap) :
  fst (regExpTest (fst (newRegExp kw h)) text (snd (newRegExp kw h)))
  = RegExp.test kw text.
Proof.
  unfold newRegExp, regExpTest, Heap. cbn [fst snd].
  rewrite lookup_app_r by lia. rewrite Nat.sub_diag. simpl.
  rewrite exec_unflagged. reflexivity.
Qed.

Lemma keywordLoopRun_pure (lower topic : string) (keywords : list string) :
  forall topics h,
    fst (keywordLoopRun lower topic keywords topics h)
    = keywordLoop lower topic keywords topics.
Proof.
  induction keywords as [| kw rest IH]; intros topics h; simpl; [reflexivity |].
  pose proof (fresh_test kw lower h) as Hf. unfold newRegExp in Hf.
  cbn [fst snd] in Hf.
  destruct (regExpTest (length h) lower _) as [matched h2]. simpl in Hf.
  subst matched. destruct (RegExp.test kw lower); [reflexivity | apply IH].
Qed.

Lemma topicLoopRun_pure (lower : string) (registry : list (string * list string)) :
  forall topics h,
    fst (topicLoopRun lower registry topics h) = topicLoop lower registry topics.
Proof.
  unfold topicLoopRun, topicLoop.
  induction registry as [| entry rest IH]; intros topics h; simpl; [reflexivity |].
  destruct (keywordLoopRun lower (fst entry) (snd entry) topics h) as [topics' h'] eqn:E.
  rewrite IH. f_equal.
  rewrite <- (keywordLoopRun_pure lower (fst entry) (snd entry) topics h), E.
  reflexivity.
Qed.

(** The list returned does not depend on the heap: the embedding of
    [detectTopics] as a function of the text is the program's. *)
Lemma detectTopicsRun_pure (text : string) (h : Heap) :
  fst (detectTopicsRun text h) = detectTopics text.
Proof. apply topicLoopRun_pure. Qed.

(** A RegExp kept between two tests under the [g] flag would answer
    differently the second time: the heap is what repeated invocations
    could disagree on. *)
Example global_flag_remembers :
  let r := RegExp.mkObject "jellyfish" true false 0 in
  RegExp.exec r "a jellyfish"
  = (true, RegExp.mkObject "jellyfish" true false 11)
  /\ fst (RegExp.exec (snd (RegExp.exec r "a jellyfish")) "a jellyfish") = false.
Proof. split; reflexivity. Qed.

(** C5. The classifier is deterministic: invoked on the same text from
    any two states of the heap of RegExp objects — in particular a
    second time on the heap the first invocation left — it returns the
    same list of topics, element for element and in the same order.
    Every RegExp it tests is allocated for that one test and carries no
    flag, so no [lastIndex] written by an earlier test is read; the list
    is the one the function [detectTopics] of the text gives. *)
Theorem detectTopics_deterministic (text : string) (h1 h2 : Heap) :
  fst (detectTopicsRun text h1) = fst (detectTopicsRun text h2)
  /\ fst (detectTopicsRun text (snd (detectTopicsRun text h1)))
     = fst (detectTopicsRun text h1)
  /\ fst (detectTopicsRun text h1) = detectTopics text.
Proof. now rewrite !detectTopicsRun_pure. Qed.

(** C7. A response that contains "jellyfish" anywhere, in any letter
    case (a substring whose lower-casing is "jellyfish"), gets the
    topic label "jellyfish". *)
Theorem jellyfish_detected (before mid after : string) :
  JsString.toLowerCase mid = "jellyfish" ->
  In "jellyfish" (detectTopics (String.append before (String.append mid after))).
Proof.
  intros Hmid. rewrite detectTopics_spec, !toLowerCase_app, Hmid.
  apply in_map_iff. exists (hd ("", []) topicKeywords). split; [reflexivity |].
  apply filter_In. split; [left; reflexivity |].
  unfold topicMatches. simpl snd. cbn [existsb].
  now rewrite (test_literal "jellyfish" _ _ eq_refl).
Qed.

Lemma jellyfish_detected_witness :
  In "jellyfish" (detectTopics "Did you know the immortal JellyFISH ages backwards?").
Proof.
  apply (jellyfish_detected "Did you know the immortal " "JellyFISH" " ages backwards?").
  reflexivity.
Defined.

(** ** Discovery: variant identifiers *)

(** Where the entries of [findNewModels] come from: the accumulator, or
    a candidate that passed the three guards of the loop. *)
Lemma findNewModels_origin existingIds candidates acc (m : Discovery.ModelYaml) :
  In m (Discovery.findNewModels existingIds candidates acc) ->
  In m acc
  \/ exists c, In c candidates
       /\ Discovery.my_id m = Discovery.cand_id c
       /\ (Discovery.cand_id c ∉ existingIds)
       /\ JsString.includes (Discovery.cand_id c) ":" = false
       /\ Discovery.getLicenseInfo (Discovery.cand_id c) <> None.
Proof.
  revert acc. induction candidates as [|c cs IH]; intros acc; simpl; [tauto |].
  assert (Hskip : In m (Discovery.findNewModels existingIds cs acc) ->
            In m acc \/ (exists c0, (c = c0 \/ In c0 cs)
              /\ Discovery.my_id m = Discovery.cand_id c0
              /\ (Discovery.cand_id c0 ∉ existingIds)
              /\ JsString.includes (Discovery.cand_id c0) ":" = false
              /\ Discovery.getLicenseInfo (Discovery.cand_id c0) <> None)).
  { intros H. destruct (IH _ H) as [Ha | [c0 [Hin Hrest]]]; [now left |].
    right. exists c0. tauto. }
  case_bool_decide as Hex; [exact Hskip |].
  destruct (JsString.includes (Discovery.cand_id c) ":") eqn:Hvar; [exact Hskip |].
  destruct (Discovery.getLicenseInfo (Discovery.cand_id c)) as [info|] eqn:Hlic;
    [| exact Hskip].
  intros H. destruct (IH _ H) as [Ha | [c0 [Hin Hrest]]].
  - apply in_app_or in Ha. destruct Ha as [Ha | [<- | []]]; [now left |].
    right. exists c. simpl. rewrite Hlic. repeat split; auto; discriminate.
  - right. exists c0. tauto.
Qed.

(** C8. A candidate whose identifier contains the variant delimiter [:]
    never reaches the new-model list, whatever the ranked list, the
    remote catalog and the YAML contain, and even when its prefix is
    allowed. *)
Theorem variant_ids_excluded (allModels : list Discovery.Candidate)
    (rankedIds : list string) (yamlModels : list Discovery.ModelYaml)
    (modelId : string) :
  JsString.includes modelId ":" = true ->
  ~ In modelId (map Discovery.my_id (Discovery.main allModels rankedIds yamlModels)).
Proof.
  intros Hvar Hin. apply in_map_iff in Hin. destruct Hin as [m [Hid Hin]].
  unfold Discovery.main in Hin.
  apply findNewModels_origin in Hin. destruct Hin as [[] | [c [_ [Hc [_ [Hno _]]]]]].
  rewrite <- Hid, Hc, Hno in Hvar. discriminate.
Qed.

Lemma variant_ids_excluded_witness :
  Discovery.isAllowedModel "openai/gpt-4:free" = true
  /\ ~ In "openai/gpt-4:free"
         (map Discovery.my_id
            (Discovery.main
               [ Discovery.mkCandidate "openai/gpt-4:free" "GPT-4 (free)";
                 Discovery.mkCandidate "openai/gpt-4" "GPT-4" ]
               ["openai/gpt-4:free"] [])).
Proof.
  split; [vm_compute; reflexivity |].
  apply (variant_ids_excluded _ _ _ "openai/gpt-4:free"). vm_compute. reflexivity.
Defined.

(** The sibling without the suffix is appended by the same run. *)
Example plain_id_appended :
  map Discovery.my_id
    (Discovery.main
       [ Discovery.mkCandidate "openai/gpt-4:free" "GPT-4 (free)";
         Discovery.mkCandidate "openai/gpt-4" "GPT-4" ]
       ["openai/gpt-4:free"] [])
  = ["openai/gpt-4"].
Proof. vm_compute. reflexivity. Qed.

(** ** One request: [queryModel] *)

Lemma readResponse_http resp body :
  ok resp = false -> text_result resp = inr body ->
  readResponse resp = inr (failed (httpMessage resp body)).
Proof. intros Hok Htext. unfold readResponse. now rewrite Hok, Htext. Qed.

Lemma caught_unreadable_body resp e :
  ok resp = false -> text_result resp = inl e ->
  caught (FetchResponse resp) = Some e.
Proof. intros Hok Htext. unfold caught, readResponse. now rewrite Hok, Htext. Qed.

(** Malformed JSON: [resp.json()] rejects. *)
Lemma caught_malformed_json resp e :
  ok resp = true -> json_result resp = inl e ->
  caught (FetchResponse resp) = Some e.
Proof. intros Hok Hjson. unfold caught, readResponse. now rewrite Hok, Hjson. Qed.

(** Structurally unexpected JSON: no [choices], or an empty one. *)
Lemma caught_no_choice resp data choices :
  ok resp = true -> json_result resp = inr data ->
  Js.getProp data "choices" = inr choices ->
  Js.getFirst choices = inr JUndefined ->
  caught (FetchResponse resp) = Some (Js.readError JUndefined "message").
Proof.
  intros Hok Hjson Hch Hfirst. unfold caught, readResponse.
  now rewrite Hok, Hjson; simpl; rewrite Hch; simpl; rewrite Hfirst.
Qed.

Lemma catchError_failed e :
  success (catchError e) = false /\ content (catchError e) = JNull.
Proof. unfold catchError. now destruct (String.eqb _ _). Qed.

(** A counterexample to C6 as stated: a non-2xx response whose body
    cannot be read ([resp.text()] rejects) is caught by the [catch]
    block, and the error recorded is the exception's message, not
    ["HTTP <status>: "] followed by a part of the body. *)
Lemma unreadable_body_not_http_error :
  let request := mkRequest "openai/gpt-4" "Tell me something" (7 # 10) 1000%Z in
  let result := fst (queryModel brokenBody "openai/gpt-4" "Tell me something"
                       (7 # 10) 1000%Z []) in
  (exists resp, brokenBody [] request = FetchResponse resp
                /\ status resp = 502 /\ ok resp = false)
  /\ success result = false
  /\ error result = Some "terminated"
  /\ forall diagnostic,
       error result <> Some (String.append "HTTP 502: " diagnostic).
Proof.
  repeat split.
  - eexists. repeat split; reflexivity.
  - intros diagnostic. vm_compute. discriminate.
Qed.

(** C6 (amended). A request answered with a non-2xx status is recorded as
    a failed RunResult: [success] false, [content] null. If the body can
    be read the error is ["HTTP <status>: "] followed by the first 200
    characters of the body at most; if reading the body fails the error
    is ["timeout"] for a TimeoutError and otherwise the first 200
    characters of the exception's message. Either way the run loop
    stores the result without a retry and goes on with the remaining
    runs. *)
Theorem http_error_recorded (api : Api) (prompt : string) (temperature : Q)
    (modelId : string) (maxTokens : Z) (w : World) (resp : Response) :
  api w (mkRequest modelId prompt temperature maxTokens) = FetchResponse resp ->
  ok resp = false ->
  let request := mkRequest modelId prompt temperature maxTokens in
  let result := fst (queryModel api modelId prompt temperature maxTokens w) in
  success result = false
  /\ content result = JNull
  /\ (forall body, text_result resp = inr body ->
        error result
        = Some (String.append "HTTP "
                  (String.append (JsString.ofNat (status resp))
                     (String.append ": " (JsString.slice0 200 body))))
        /\ String.length (JsString.slice0 200 body) <= 200)
  /\ (forall e, text_result resp = inl e ->
        error result
        = Some (if String.eqb (err_name e) "TimeoutError" then "timeout"
                else JsString.slice0 200 (messageOf e)))
  /\ queryModel api modelId prompt temperature maxTokens w = (result, w ++ [request])
  /\ attemptRun api prompt temperature modelId maxTokens w = (Ok result, w ++ [request])
  /\ forall remaining runs,
       runLoop api prompt temperature modelId maxTokens (S remaining) runs w
       = runLoop api prompt temperature modelId maxTokens remaining
           (runs ++ [result]) (w ++ [request]).
Proof.
  intros Hapi Hok request result.
  assert (Hq : queryModel api modelId prompt temperature maxTokens w
               = (result, w ++ [request])) by reflexivity.
  assert (Hr : result = settle (FetchResponse resp)).
  { unfold result, queryModel. cbn [fst]. now rewrite Hapi. }
  assert (Hf : success result = false /\ content result = JNull).
  { rewrite Hr. simpl. unfold readResponse. rewrite Hok. simpl.
    destruct (text_result resp) as [e | body]; simpl.
    - apply catchError_failed.
    - split; reflexivity. }
  assert (Ha : attemptRun api prompt temperature modelId maxTokens w
               = (Ok result, w ++ [request])).
  { clearbody result. unfold attemptRun, bind, lift. rewrite Hq.
    unfold retryTokens. cbn [retryLoop]. rewrite (proj1 Hf). unfold ret.
    now rewrite (proj1 Hf). }
  split; [apply Hf |]. split; [apply Hf |].
  split; [| split; [| split; [exact Hq | split; [exact Ha |]]]].
  - intros body Htext. split; [| apply slice0_length].
    rewrite Hr. simpl. now rewrite (readResponse_http _ _ Hok Htext).
  - intros e Htext. rewrite Hr. simpl. unfold readResponse.
    rewrite Hok, Htext. simpl. unfold catchError.
    now destruct (String.eqb (err_name e) "TimeoutError").
  - intros remaining runs. simpl. unfold bind at 1. now rewrite Ha.
Qed.

Lemma http_error_recorded_witness :
  error (fst (queryModel (alwaysStatus 429 "rate limited") "openai/gpt-4"
                "Tell me something" (7 # 10) 1000%Z []))
  = Some "HTTP 429: rate limited".
Proof.
  exact (proj1 (proj1 (proj2 (proj2
           (http_error_recorded (alwaysStatus 429 "rate limited")
              "Tell me something" (7 # 10) "openai/gpt-4" 1000%Z [] _
              eq_refl eq_refl)))
         "rate limited" eq_refl)).
Defined.

(** What [queryModel] returns on each kind of failure. *)
Lemma settle_http resp body :
  ok resp = false -> text_result resp = inr body ->
  settle (FetchResponse resp) = failed (httpMessage resp body).
Proof. intros Hok Htext. simpl. now rewrite (readResponse_http _ _ Hok Htext). Qed.

Lemma settle_caught o e : caught o = Some e -> settle o = catchError e.
Proof.
  destruct o as [e' | resp]; simpl.
  - now intros [= ->].
  - destruct (readResponse resp); [now intros [= ->] | discriminate].
Qed.

Lemma readResponse_success resp r :
  readResponse resp = inr r -> ok resp = true -> success r = true.
Proof.
  unfold readResponse. intros H Hok. rewrite Hok in H. simpl in H.
  repeat match type of H with
         | tryBind ?x _ = _ => destruct x; simpl in H; [discriminate |]
         end.
  now injection H as <-.
Qed.

(** A counterexample to C9 as stated: on a non-2xx status with a long
    body the error string is "HTTP 500: " followed by 200 characters,
    210 characters in all, not at most 200. *)
Lemma http_error_exceeds_200 :
  let result :=
    fst (queryModel (alwaysStatus 500 (repeatChar 300 "x")) "openrouter/auto"
           "Tell me something" (7 # 10) 1000%Z []) in
  success result = false
  /\ exists msg, error result = Some msg
                 /\ String.length msg = 210 /\ 200 < String.length msg.
Proof.
  split; [reflexivity |]. eexists. split; [reflexivity |].
  split; [vm_compute; reflexivity | apply Nat.ltb_lt; vm_compute; reflexivity].
Qed.

(** A JSON document that has [choices[0].message] but no [content] is
    not a failure: it is returned as a success without content. *)
Example missing_content_is_success :
  settle (FetchResponse
            (mkResponse 200 (inr "")
               (inr (JObj [("choices", JArr [JObj [("message", JObj [])]])]))))
  = mkRunResult true JUndefined (Some 0%Z) (Some 0%Z) None (Some "unknown")
      None None None.
Proof. reflexivity. Qed.

(** An exception without a message leaves an empty error string. *)
Example empty_message_empty_error :
  error (settle (FetchThrows (mkError "Error" (Some "") "Error"))) = Some "".
Proof. reflexivity. Qed.

(** C9 (amended). [queryModel] is total: it returns a RunResult and logs
    one request, whatever [fetch] does. When an exception reaches its
    [catch] block (rejected fetch, unreadable body, malformed JSON, a
    document without [choices[0].message]) the result is a failure with
    [content = null] and the error "timeout" for a TimeoutError, and
    otherwise the exception message cut to at most 200 characters
    (non-empty when the message is). On a non-2xx status with a
    readable body the result is a failure with [content = null] and the
    non-empty error "HTTP <status>: " plus at most 200 characters of
    the body. Every failure is one of these two kinds. *)
Theorem queryModel_failures (api : Api) (modelId prompt : string) (temperature : Q)
    (maxTokens : Z) (w : World) :
  let request := mkRequest modelId prompt temperature maxTokens in
  let result := fst (queryModel api modelId prompt temperature maxTokens w) in
  snd (queryModel api modelId prompt temperature maxTokens w) = w ++ [request]
  /\ (forall e, caught (api w request) = Some e ->
        success result = false /\ content result = JNull
        /\ (err_name e = "TimeoutError" -> error result = Some "timeout")
        /\ (err_name e <> "TimeoutError" ->
              error result = Some (JsString.slice0 200 (messageOf e))
              /\ String.length (JsString.slice0 200 (messageOf e)) <= 200
              /\ (messageOf e <> EmptyString ->
                    JsString.slice0 200 (messageOf e) <> EmptyString)))
  /\ (forall resp body,
        api w request = FetchResponse resp -> ok resp = false ->
        text_result resp = inr body ->
        success result = false /\ content result = JNull
        /\ error result = Some (httpMessage resp body)
        /\ httpMessage resp body <> EmptyString
        /\ String.length (httpMessage resp body)
           <= String.length (String.append "HTTP "
                               (String.append (JsString.ofNat (status resp)) ": "))
              + 200)
  /\ (success result = false ->
        (exists e, caught (api w request) = Some e)
        \/ (exists resp body,
              api w request = FetchResponse resp /\ ok resp = false
              /\ text_result resp = inr body)).
Proof.
  intros request result. subst result. unfold queryModel. fold request.
  cbn [fst snd].
  split; [reflexivity |]. split; [| split].
  - intros e He. rewrite (settle_caught _ _ He).
    destruct (catchError_failed e) as [Hs Hc]. repeat split; auto.
    + intros Hn. unfold catchError. now rewrite Hn.
    + unfold catchError. destruct (String.eqb_spec (err_name e) "TimeoutError");
        [contradiction | reflexivity].
    + apply slice0_length.
    + intros Hm. now apply slice0_nonempty.
  - intros resp body Hapi Hok Htext. rewrite Hapi, (settle_http _ _ Hok Htext).
    repeat split; auto.
    unfold httpMessage. rewrite !string_length_app.
      pose proof (slice0_length 200 body). lia.
  - intros Hfail. destruct (api w request) as [e | resp] eqn:Hapi.
    + left. now exists e.
    + cbn [settle] in Hfail. destruct (readResponse resp) as [e | r] eqn:Hread.
      * left. exists e. cbn [caught]. now rewrite Hread.
      * destruct (ok resp) eqn:Hok.
        -- rewrite (readResponse_success _ _ Hread Hok) in Hfail. discriminate.
        -- unfold readResponse in Hread. rewrite Hok in Hread. cbn [negb] in Hread.
           destruct (text_result resp) as [e | body] eqn:Htext; [discriminate |].
           right. exists resp, body. auto.
Qed.

Lemma queryModel_failures_witness :
  error (fst (queryModel timingOut "openai/gpt-4" "Tell me something" (7 # 10) 1000%Z []))
  = Some "timeout"
  /\ error (fst (queryModel (alwaysStatus 503 "down") "openai/gpt-4"
                   "Tell me something" (7 # 10) 1000%Z []))
     = Some "HTTP 503: down".
Proof.
  split.
  - destruct (queryModel_failures timingOut "openai/gpt-4" "Tell me something"
                (7 # 10) 1000%Z []) as [_ [Hc _]].
    destruct (Hc _ eq_refl) as [_ [_ [Ht _]]]. exact (Ht eq_refl).
  - destruct (queryModel_failures (alwaysStatus 503 "down") "openai/gpt-4"
                "Tell me something" (7 # 10) 1000%Z []) as [_ [_ [Hh _]]].
    destruct (Hh _ "down" eq_refl eq_refl eq_refl) as [_ [_ [He _]]]. exact He.
Defined.

(** ** The retry ladder *)

Section Ladder.

Variable api : Api.
Variable prompt : string.
Variable temperature : Q.
Variable modelId : string.

Let request (k : Z) : Request := mkRequest modelId prompt temperature k.
Let answer (w : World) (k : Z) : RunResult := settle (api w (request k)).

Lemma blank_is_empty r : blankSuccess r -> emptySuccess r.
Proof.
  intros [Hs [text [Hc Ht]]]. split; [exact Hs |].
  rewrite Hc. unfold contentIsEmpty. cbn [Js.truthy].
  destruct (JsString.truthy text); cbn [negb]; [| reflexivity].
  now rewrite Ht.
Qed.

Lemma retryLoop_unfold ladder result :
  retryLoop api prompt temperature modelId ladder result
  = if success result then
      bind (liftF (contentIsEmpty (content result)))
        (fun empty =>
           if empty then
             match ladder with
             | k :: rest =>
                 bind (lift (queryModel api modelId prompt temperature k))
                      (retryLoop api prompt temperature modelId rest)
             | [] => ret result
             end
           else ret result)
    else ret result.
Proof. destruct ladder; reflexivity. Qed.

(** An empty success climbs one rung. *)
Lemma retryLoop_climb k rest result w :
  emptySuccess result ->
  retryLoop api prompt temperature modelId (k :: rest) result w
  = retryLoop api prompt temperature modelId rest (answer w k) (w ++ [request k]).
Proof.
  intros [Hs He]. rewrite retryLoop_unfold, Hs.
  unfold bind at 1, liftF. rewrite He. reflexivity.
Qed.

(** With the ladder exhausted, an empty success is what is left. *)
Lemma retryLoop_exhausted result w :
  emptySuccess result ->
  retryLoop api prompt temperature modelId [] result w = (Ok result, w).
Proof.
  intros [Hs He]. rewrite retryLoop_unfold, Hs.
  unfold bind, liftF. rewrite He. reflexivity.
Qed.

(** Content ends the loop. *)
Lemma retryLoop_content ladder result text w :
  success result = true -> content result = JStr text ->
  JsString.trim text <> EmptyString ->
  retryLoop api prompt temperature modelId ladder result w = (Ok result, w).
Proof.
  intros Hs Hc Ht. rewrite retryLoop_unfold, Hs, Hc.
  unfold bind, liftF, contentIsEmpty. cbn [Js.truthy].
  assert (Htext : JsString.truthy text = true).
  { destruct text; [now elim Ht | reflexivity]. }
  rewrite Htext. cbn [negb].
  assert (Htrim : JsString.truthy (JsString.trim text) = true).
  { destruct (JsString.trim text); [now elim Ht | reflexivity]. }
  rewrite Htrim. reflexivity.
Qed.

(** A failure ends the loop. *)
Lemma retryLoop_failure ladder result w :
  success result = false ->
  retryLoop api prompt temperature modelId ladder result w = (Ok result, w).
Proof. intros Hs. now rewrite retryLoop_unfold, Hs. Qed.

Lemma attemptRun_unfold maxTokens w :
  attemptRun api prompt temperature modelId maxTokens w
  = bind (retryLoop api prompt temperature modelId retryTokens (answer w maxTokens))
      (fun result =>
         if success result then
           bind (liftF (detectTopicsOf (content result)))
                (fun ts => ret (setTopics result ts))
         else ret result)
      (w ++ [request maxTokens]).
Proof. reflexivity. Qed.

(** C2. When the first request and the first boosted retry come back
    as successes with empty content and the second boosted retry comes
    back with content, the stored RunResult is that third response
    (with its topics attached): [success = true], the non-empty
    content, and the request that produced it asked for 5000 tokens,
    the second rung of the ladder, whatever [max_tokens] is
    configured. *)
Theorem boosted_retry_result (maxTokens : Z) (w : World) (text : string) :
  let w1 := w ++ [request maxTokens] in
  let w2 := w1 ++ [request 2500] in
  let third := answer w2 5000 in
  emptySuccess (answer w maxTokens) ->
  emptySuccess (answer w1 2500) ->
  success third = true ->
  content third = JStr text ->
  JsString.trim text <> EmptyString ->
  exists stored log,
    attemptRun api prompt temperature modelId maxTokens w = (Ok stored, log)
    /\ stored = setTopics third (detectTopics text)
    /\ success stored = true
    /\ content stored = JStr text
    /\ log = w ++ [request maxTokens; request 2500; request 5000]
    /\ List.last log (request maxTokens) = request 5000
    /\ nth_error retryTokens 1 = Some 5000%Z.
Proof.
  intros w1 w2 third H0 H1 Hs Hc Ht.
  exists (setTopics third (detectTopics text)),
         (w ++ [request maxTokens; request 2500; request 5000]).
  split.
  - rewrite attemptRun_unfold. unfold bind at 1. unfold retryTokens.
    rewrite (retryLoop_climb _ _ _ _ H0).
    rewrite (retryLoop_climb _ _ _ _ H1).
    fold w1 w2 third.
    rewrite (retryLoop_content _ _ _ _ Hs Hc Ht), Hs.
    unfold bind, liftF, ret. rewrite Hc. cbn [detectTopicsOf].
    subst w2 w1. now rewrite <- !app_assoc.
  - repeat split; auto.
    change (w ++ [request maxTokens; request 2500; request 5000])
      with (w ++ [request maxTokens; request 2500] ++ [request 5000]).
    rewrite app_assoc. apply List.last_last.
Qed.

(** C1 (amended). When every attempt of the ladder (the first request
    and the three boosted retries) comes back as a success with an
    empty or whitespace-only string, the stored RunResult is the last
    of these responses with its topics attached: [success = true],
    the blank content, no error. Four requests were made, with the
    configured budget and then 2500, 5000 and 10000 tokens. *)
Theorem exhausted_ladder_result (maxTokens : Z) (w : World) :
  let w1 := w ++ [request maxTokens] in
  let w2 := w1 ++ [request 2500] in
  let w3 := w2 ++ [request 5000] in
  let fourth := answer w3 10000 in
  blankSuccess (answer w maxTokens) ->
  blankSuccess (answer w1 2500) ->
  blankSuccess (answer w2 5000) ->
  blankSuccess fourth ->
  exists stored text,
    attemptRun api prompt temperature modelId maxTokens w
    = (Ok stored,
       w ++ [request maxTokens; request 2500; request 5000; request 10000])
    /\ content fourth = JStr text
    /\ JsString.trim text = EmptyString
    /\ stored = setTopics fourth (detectTopics text)
    /\ success stored = true
    /\ content stored = JStr text.
Proof.
  intros w1 w2 w3 fourth H0 H1 H2 H3.
  destruct H3 as [Hs [text [Hc Ht]]].
  exists (setTopics fourth (detectTopics text)), text.
  split; [| repeat split; auto].
  rewrite attemptRun_unfold. unfold bind at 1. unfold retryTokens.
  rewrite (retryLoop_climb _ _ _ _ (blank_is_empty _ H0)).
  rewrite (retryLoop_climb _ _ _ _ (blank_is_empty _ H1)).
  rewrite (retryLoop_climb _ _ _ _ (blank_is_empty _ H2)).
  fold w1 w2 w3 fourth.
  rewrite (retryLoop_exhausted _ _ (blank_is_empty _ (conj Hs (ex_intro _ text (conj Hc Ht))))).
  rewrite Hs. unfold bind, liftF, ret. rewrite Hc. cbn [detectTopicsOf].
  subst w3 w2 w1. now rewrite <- !app_assoc.
Qed.

End Ladder.

Lemma boosted_retry_result_witness :
  exists stored log,
    attemptRun (contentAfter 2 "Honey never spoils.") "Tell me something" (7 # 10)
               "openai/o1" 1000%Z [] = (Ok stored, log)
    /\ stored = setTopics
                  (settle (completion (JStr "Honey never spoils.")))
                  (detectTopics "Honey never spoils.")
    /\ success stored = true
    /\ content stored = JStr "Honey never spoils."
    /\ log = [ mkRequest "openai/o1" "Tell me something" (7 # 10) 1000%Z;
               mkRequest "openai/o1" "Tell me something" (7 # 10) 2500%Z;
               mkRequest "openai/o1" "Tell me something" (7 # 10) 5000%Z ]
    /\ List.last log (mkRequest "openai/o1" "Tell me something" (7 # 10) 1000%Z)
       = mkRequest "openai/o1" "Tell me something" (7 # 10) 5000%Z
    /\ nth_error retryTokens 1 = Some 5000%Z.
Proof.
  apply (boosted_retry_result (contentAfter 2 "Honey never spoils.")
           "Tell me something" (7 # 10) "openai/o1" 1000%Z []
           "Honey never spoils.").
  - split; reflexivity.
  - split; reflexivity.
  - reflexivity.
  - reflexivity.
  - vm_compute. discriminate.
Defined.

(** A counterexample to C1 as stated: the API answers every request
    with a success whose content is the empty string; after the three
    boosted retries the run is stored with [success = true] and no
    error, not as a failure. *)
Lemma empty_content_stored_as_success :
  (forall w req, blankSuccess (settle (alwaysContent (JStr EmptyString) w req)))
  /\ exists stored,
       attemptRun (alwaysContent (JStr EmptyString)) "Tell me something" (7 # 10)
                  "openai/o1" 1000%Z []
       = (Ok stored,
          [ mkRequest "openai/o1" "Tell me something" (7 # 10) 1000%Z;
            mkRequest "openai/o1" "Tell me something" (7 # 10) 2500%Z;
            mkRequest "openai/o1" "Tell me something" (7 # 10) 5000%Z;
            mkRequest "openai/o1" "Tell me something" (7 # 10) 10000%Z ])
       /\ success stored = true
       /\ content stored = JStr EmptyString
       /\ error stored = None.
Proof.
  split.
  - intros w req. split; [reflexivity |]. exists EmptyString. split; reflexivity.
  - eexists. split; [vm_compute; reflexivity |]. repeat split.
Qed.

Lemma exhausted_ladder_result_witness :
  exists stored text,
    attemptRun (alwaysContent (JStr "  ")) "Tell me something" (7 # 10)
               "openai/o1" 1000%Z []
    = (Ok stored,
       [ mkRequest "openai/o1" "Tell me something" (7 # 10) 1000%Z;
         mkRequest "openai/o1" "Tell me something" (7 # 10) 2500%Z;
         mkRequest "openai/o1" "Tell me something" (7 # 10) 5000%Z;
         mkRequest "openai/o1" "Tell me something" (7 # 10) 10000%Z ])
    /\ content (settle (completion (JStr "  "))) = JStr text
    /\ JsString.trim text = EmptyString
    /\ stored = setTopics (settle (completion (JStr "  "))) (detectTopics text)
    /\ success stored = true
    /\ content stored = JStr text.
Proof.
  apply (exhausted_ladder_result (alwaysContent (JStr "  ")) "Tell me something"
           (7 # 10) "openai/o1" 1000%Z []);
    (split; [reflexivity | exists "  "; split; reflexivity]).
Defined.

(** With [content: null] throughout, the exhausted ladder does not even
    store a result: [detectTopics] throws and [main] is aborted. *)
Example null_content_aborts :
  fst (attemptRun (alwaysContent JNull) "Tell me something" (7 # 10)
                  "openai/o1" 1000%Z [])
  = Thrown (Js.readError JNull "toLowerCase").
Proof. vm_compute. reflexivity. Qed.

(** ** The loops of [main]: requests issued and entries produced *)

Lemma extends_refl P w : extends P w w.
Proof. exists []. split; [now rewrite app_nil_r | constructor]. Qed.

Lemma extends_trans P w1 w2 w3 :
  extends P w1 w2 -> extends P w2 w3 -> extends P w1 w3.
Proof.
  intros [a [-> Ha]] [b [-> Hb]]. exists (a ++ b).
  split; [now rewrite app_assoc | now apply Forall_app].
Qed.

Lemma extends_weaken (P Q : Request -> Prop) w w' :
  (forall r, P r -> Q r) -> extends P w w' -> extends Q w w'.
Proof.
  intros HPQ [a [-> Ha]]. exists a. split; [reflexivity |].
  eapply Forall_impl; eauto.
Qed.

Lemma extends_one (P : Request -> Prop) w r : P r -> extends P w (w ++ [r]).
Proof. intros H. exists [r]. split; [reflexivity | now repeat constructor]. Qed.

(** Sequencing keeps the log growing by the same kind of requests. *)
Lemma bind_extends {A B : Type} (P : Request -> Prop) (m : M A) (f : A -> M B) w :
  extends P w (snd (m w)) ->
  (forall a w', extends P w' (snd (f a w'))) ->
  extends P w (snd (bind m f w)).
Proof.
  intros Hm Hf. unfold bind. destruct (m w) as [[a | e | c] w'] eqn:Hmw;
    cbn [snd] in *; auto.
  eapply extends_trans; [exact Hm | apply Hf].
Qed.

Section Loops.

Variable api : Api.
Variable prompt : string.
Variable temperature : Q.

Lemma queryModel_extends modelId k w :
  extends (forModel modelId) w
    (snd (lift (queryModel api modelId prompt temperature k) w)).
Proof. apply extends_one. reflexivity. Qed.

Lemma liftF_extends {A : Type} P (x : Fallible A) w :
  extends P w (snd (liftF x w)).
Proof. unfold liftF. destruct x; apply extends_refl. Qed.

Lemma retryLoop_extends modelId ladder result w :
  extends (forModel modelId) w
    (snd (retryLoop api prompt temperature modelId ladder result w)).
Proof.
  revert result w. induction ladder as [|k rest IH]; intros result w;
    rewrite retryLoop_unfold; destruct (success result);
    try apply extends_refl;
    (apply bind_extends; [apply liftF_extends |]);
    intros [|] w'; try apply extends_refl.
  apply bind_extends; [apply queryModel_extends | intros; apply IH].
Qed.

Lemma attemptRun_extends modelId maxTokens w :
  extends (forModel modelId) w
    (snd (attemptRun api prompt temperature modelId maxTokens w)).
Proof.
  unfold attemptRun.
  apply bind_extends; [apply queryModel_extends |]. intros first w1.
  apply bind_extends; [apply retryLoop_extends |]. intros result w2.
  destruct (success result); [| apply extends_refl].
  apply bind_extends; [apply liftF_extends | intros; apply extends_refl].
Qed.

Lemma runLoop_extends modelId maxTokens remaining runs w :
  extends (forModel modelId) w
    (snd (runLoop api prompt temperature modelId maxTokens remaining runs w)).
Proof.
  revert runs w. induction remaining as [|n IH]; intros runs w; simpl.
  - apply extends_refl.
  - apply bind_extends; [apply attemptRun_extends | intros; apply IH].
Qed.

(** Every run loop that completes has pushed one result per run. *)
Lemma runLoop_length modelId maxTokens remaining runs w out w' :
  runLoop api prompt temperature modelId maxTokens remaining runs w = (Ok out, w') ->
  exists fresh, out = runs ++ fresh /\ length fresh = remaining.
Proof.
  revert runs w. induction remaining as [|n IH]; intros runs w; simpl.
  - intros [= <- _]. exists []. now rewrite app_nil_r.
  - unfold bind at 1.
    destruct (attemptRun api prompt temperature modelId maxTokens w)
      as [[r | e | c] w1]; try discriminate.
    intros H. destruct (IH _ _ H) as [fresh [-> Hlen]].
    exists (r :: fresh). split; [now rewrite <- app_assoc | simpl; lia].
Qed.

Variable existingIds : gset string.
Variable maxTokens : Z.
Variable runsPerModel : nat.

(** No request is ever made for an id of the persisted dataset. *)
Lemma modelLoop_extends models results w :
  extends (notExisting existingIds) w
    (snd (modelLoop api prompt temperature existingIds maxTokens runsPerModel
            models results w)).
Proof.
  revert results w. induction models as [|m rest IH]; intros results w; simpl.
  - apply extends_refl.
  - case_bool_decide as Hin; [apply IH |].
    apply bind_extends; [| intros; apply IH].
    eapply extends_weaken; [| apply runLoop_extends].
    intros r Hr. unfold notExisting. unfold forModel in Hr. now rewrite Hr.
Qed.

(** A completed loop has appended, after the entries it started with,
    one entry per queried model, in catalog order, each with
    [runsPerModel] runs. *)
Lemma modelLoop_results models results w out w' :
  modelLoop api prompt temperature existingIds maxTokens runsPerModel
    models results w = (Ok out, w') ->
  exists fresh,
    out = results ++ fresh
    /\ Forall2 (fun m e => exists runs, e = entryOf m runs
                                        /\ length runs = runsPerModel)
         (queried existingIds models) fresh.
Proof.
  revert results w. induction models as [|m rest IH]; intros results w; simpl.
  - intros [= <- _]. exists []. split; [now rewrite app_nil_r | constructor].
  - case_bool_decide as Hin; cbn [negb]; [apply IH |].
    unfold bind at 1.
    destruct (runLoop api prompt temperature (mc_id m) maxTokens runsPerModel [] w)
      as [[runs | e | c] w1] eqn:Hruns; try discriminate.
    intros H. destruct (IH _ _ H) as [fresh [-> Hfresh]].
    exists (entryOf m runs :: fresh). split; [now rewrite <- app_assoc |].
    constructor; [| exact Hfresh].
    exists runs. split; [reflexivity |].
    destruct (runLoop_length _ _ _ _ _ _ _ Hruns) as [f [-> Hl]]. exact Hl.
Qed.

End Loops.

Lemma fresh_ids (queriedModels : list ModelConfig) (fresh : list ModelEntry) n :
  Forall2 (fun m e => exists runs, e = entryOf m runs /\ length runs = n)
    queriedModels fresh ->
  map id fresh = map mc_id queriedModels
  /\ Forall (fun e => length (runs e) = n) fresh.
Proof.
  induction 1 as [|m e ms es [runs [-> Hl]] _ [IHid IHlen]]; simpl.
  - split; [reflexivity | constructor].
  - split; [now rewrite IHid | now constructor].
Qed.

(** The ids collected from the persisted dataset. *)
Lemma existingIds_spec (entries : list ModelEntry) (ids : gset string) (x : string) :
  x ∈ fold_left (fun ids m => ids ∪ {[ id m ]}) entries ids
  <-> x ∈ ids \/ In x (map id entries).
Proof.
  revert ids. induction entries as [|e entries IH]; intros ids; simpl.
  - tauto.
  - rewrite IH, elem_of_union, elem_of_singleton. intuition (subst; auto).
Qed.

(** ** Append mode *)

(** [main] seen from its loop: either it stops before the loop (exit,
    dry run), or it is the loop followed by the write of the dataset. *)
Lemma main_unfold api argv apiKey config file now w :
  let args := parseArgs argv noArgs in
  let existing := loadExisting (append args) file in
  main api argv apiKey config file now w
  = if negb (optTruthy apiKey) && negb (dryRun args) then (Exited 1, w)
    else if dryRun args then (Ok None, w)
    else
      match modelLoop api (cfg_prompt config) (cfg_temperature config)
              (fst existing) (cfg_max_tokens config)
              (default 3 (cfg_runs_per_model config))
              (applyFilter (filterStr args) (cfg_models config))
              (snd existing) w with
      | (Ok results, w') =>
          (Ok (Some
                 {| ds_meta :=
                      {| meta_prompt := cfg_prompt config;
                         meta_temperature := cfg_temperature config;
                         meta_max_tokens := cfg_max_tokens config;
                         meta_runs_per_model := default 3 (cfg_runs_per_model config);
                         meta_generated_at := now;
                         meta_total_models := total_models (computeStats results) |};
                    ds_stats := computeStats results;
                    ds_models := results |}), w')
      | (Thrown e, w') => (Thrown e, w')
      | (Exited c, w') => (Exited c, w')
      end.
Proof.
  intros args existing. unfold main. fold noArgs. fold args.
  destruct (negb (optTruthy apiKey) && negb (dryRun args)); [reflexivity |].
  subst existing. destruct (loadExisting (append args) file) as [ids data].
  destruct (dryRun args); [reflexivity |].
  cbn [fst snd]. unfold bind.
  destruct (modelLoop _ _ _ _ _ _ _ _ _) as [[results | e | c] w']; reflexivity.
Qed.

Lemma loadExisting_append persisted :
  loadExisting true (Parsed (Some persisted)) = (collectIds persisted, persisted).
Proof. reflexivity. Qed.

Lemma collectIds_spec (persisted : list ModelEntry) (x : string) :
  x ∈ collectIds persisted <-> In x (map id persisted).
Proof. unfold collectIds. rewrite existingIds_spec, elem_of_empty. tauto. Qed.

(** C3. In append mode, for an entry X of the persisted dataset: no
    request is issued for the id of X, however the run ends, and a
    dataset that is written contains X, unchanged, at the position it
    had in the persisted dataset. *)
Theorem append_skips_existing (api : Api) (argv : list string) (apiKey : option string)
    (config : Config) (persisted : list ModelEntry) (now : string)
    (X : ModelEntry) (position : nat) :
  append (parseArgs argv noArgs) = true ->
  nth_error persisted position = Some X ->
  let run := main api argv apiKey config (Parsed (Some persisted)) now [] in
  Forall (fun request => req_model request <> id X) (snd run)
  /\ forall dataset, fst run = Ok (Some dataset) ->
       nth_error (ds_models dataset) position = Some X
       /\ In X (ds_models dataset).
Proof.
  intros Happ HX run. subst run. rewrite main_unfold. rewrite Happ.
  rewrite loadExisting_append. cbn [fst snd].
  assert (Hid : id X ∈ collectIds persisted).
  { apply collectIds_spec. apply in_map. eapply nth_error_In; eauto. }
  destruct (negb (optTruthy apiKey) && negb (dryRun (parseArgs argv noArgs)));
    [split; [constructor | discriminate] |].
  destruct (dryRun (parseArgs argv noArgs)); [split; [constructor | discriminate] |].
  match goal with
  | |- context [modelLoop ?a ?p ?t ?ids ?k ?n ?ms ?rs ?w] =>
      pose proof (modelLoop_extends a p t ids k n ms rs w) as Hlog;
      pose proof (modelLoop_results a p t ids k n ms rs w) as Hres;
      destruct (modelLoop a p t ids k n ms rs w) as [[results | e | c] w']
  end; cbn [fst snd] in *.
  all: destruct Hlog as [added [-> Hadded]]; cbn [app].
  all: split;
    [ eapply List.Forall_impl; [| exact Hadded];
      intros r Hr Heq; apply Hr; unfold notExisting; rewrite Heq; exact Hid
    | try discriminate ].
  intros dataset [= <-]. cbn [ds_models].
  destruct (Hres _ _ eq_refl) as [fresh [-> _]].
  assert (Hnth : nth_error (persisted ++ fresh) position = Some X).
  { rewrite nth_error_app1; [exact HX |]. apply nth_error_Some. congruence. }
  split; [exact Hnth | eapply nth_error_In; exact Hnth].
Qed.

(** C10. In append mode a dataset that is written is the persisted
    dataset, entry for entry and in its order, followed by one entry
    per model of the (filtered) catalog whose id is not persisted, in
    catalog order. Nothing is required of the persisted ids: they may
    be missing from the catalog or excluded by [--filter]. *)
Theorem append_output_order (api : Api) (argv : list string) (apiKey : option string)
    (config : Config) (persisted : list ModelEntry) (now : string)
    (w w' : World) (dataset : Dataset) :
  append (parseArgs argv noArgs) = true ->
  main api argv apiKey config (Parsed (Some persisted)) now w
  = (Ok (Some dataset), w') ->
  exists fresh,
    ds_models dataset = persisted ++ fresh
    /\ map id fresh
       = map mc_id
           (List.filter (fun m => negb (bool_decide (mc_id m ∈ map id persisted)))
              (applyFilter (filterStr (parseArgs argv noArgs)) (cfg_models config)))
    /\ Forall (fun e => length (runs e) = default 3 (cfg_runs_per_model config)) fresh
    /\ Forall (fun e => ~ In (id e) (map id persisted)) fresh.
Proof.
  intros Happ. rewrite main_unfold, Happ, loadExisting_append. cbn [fst snd].
  destruct (negb (optTruthy apiKey) && negb (dryRun (parseArgs argv noArgs)));
    [discriminate |].
  destruct (dryRun (parseArgs argv noArgs)); [discriminate |].
  match goal with
  | |- context [modelLoop ?a ?p ?t ?ids ?k ?n ?ms ?rs ?w] =>
      pose proof (modelLoop_results a p t ids k n ms rs w) as Hres;
      destruct (modelLoop a p t ids k n ms rs w) as [[results | e | c] w1]
  end; try discriminate.
  intros [= <- _]. cbn [ds_models].
  destruct (Hres _ _ eq_refl) as [fresh [-> Hfresh]].
  exists fresh. split; [reflexivity |].
  apply fresh_ids in Hfresh. destruct Hfresh as [Hids Hlen].
  assert (Hq : forall ms,
             queried (collectIds persisted) ms
             = List.filter
                 (fun m => negb (bool_decide (mc_id m ∈ map id persisted))) ms).
  { intros ms. unfold queried. apply filter_ext. intros m. f_equal.
    apply bool_decide_ext. rewrite collectIds_spec. symmetry. apply list_elem_of_In. }
  rewrite Hq in Hids. split; [exact Hids |]. split; [exact Hlen |].
  apply List.Forall_forall. intros e He.
  assert (Hin : In (id e) (map id fresh)) by now apply in_map.
  rewrite Hids in Hin. apply in_map_iff in Hin. destruct Hin as [m [Hm Hin]].
  apply filter_In in Hin. destruct Hin as [_ Hneg].
  rewrite <- Hm. apply negb_true_iff, bool_decide_eq_false in Hneg.
  now rewrite <- list_elem_of_In.
Qed.

(** ** Completion of [main] *)

Section Completion.

Variable api : Api.
Variable prompt : string.
Variable temperature : Q.
Hypothesis api_wellTyped : wellTyped api.

Lemma contentIsEmpty_string text : exists b, contentIsEmpty (JStr text) = inr b.
Proof.
  unfold contentIsEmpty. destruct (negb (Js.truthy (JStr text))); eauto.
Qed.

Lemma retryLoop_completes modelId ladder result w :
  stringOnSuccess result ->
  exists r w',
    retryLoop api prompt temperature modelId ladder result w = (Ok r, w')
    /\ stringOnSuccess r.
Proof.
  revert result w. induction ladder as [|k rest IH]; intros result w Hres;
    rewrite retryLoop_unfold; destruct (success result) eqn:Hs;
    try (exists result, w; split; [reflexivity | exact Hres]);
    destruct (Hres Hs) as [text Hc]; rewrite Hc;
    destruct (contentIsEmpty_string text) as [b Hb];
    unfold bind at 1, liftF; rewrite Hb;
    destruct b; try (exists result, w; split; [reflexivity | exact Hres]).
  unfold bind, lift, queryModel. apply IH. intros Hs'.
  now apply api_wellTyped.
Qed.

Lemma attemptRun_completes modelId maxTokens w :
  exists r w', attemptRun api prompt temperature modelId maxTokens w = (Ok r, w').
Proof.
  rewrite attemptRun_unfold. unfold bind at 1.
  edestruct (retryLoop_completes modelId retryTokens) as [r [w' [Hr Hstr]]];
    [| rewrite Hr].
  - intros Hs. now apply api_wellTyped.
  - destruct (success r) eqn:Hs; [| eauto].
    destruct (Hstr Hs) as [text Hc]. unfold bind, liftF. rewrite Hc. simpl. eauto.
Qed.

Lemma runLoop_completes modelId maxTokens remaining runs w :
  exists out w',
    runLoop api prompt temperature modelId maxTokens remaining runs w = (Ok out, w').
Proof.
  revert runs w. induction remaining as [|n IH]; intros runs w; simpl; [eauto |].
  unfold bind at 1.
  destruct (attemptRun_completes modelId maxTokens w) as [r [w1 ->]]. apply IH.
Qed.

Lemma modelLoop_completes existingIds maxTokens runsPerModel models results w :
  exists out w',
    modelLoop api prompt temperature existingIds maxTokens runsPerModel
      models results w = (Ok out, w').
Proof.
  revert results w. induction models as [|m rest IH]; intros results w; simpl;
    [eauto |].
  case_bool_decide; [apply IH |]. unfold bind at 1.
  destruct (runLoop_completes (mc_id m) maxTokens runsPerModel [] w) as [rs [w1 ->]].
  apply IH.
Qed.

End Completion.

(** With a credential, outside a dry run and against a well-typed API,
    [main] always writes a dataset. *)
Lemma main_completes api argv apiKey config file now w :
  wellTyped api ->
  optTruthy apiKey = true ->
  dryRun (parseArgs argv noArgs) = false ->
  exists dataset w', main api argv apiKey config file now w = (Ok (Some dataset), w').
Proof.
  intros Hapi Hkey Hdry. rewrite main_unfold, Hkey, Hdry. cbn [negb andb].
  match goal with
  | |- context [modelLoop ?a ?p ?t ?ids ?k ?n ?ms ?rs ?w] =>
      destruct (modelLoop_completes a p t Hapi ids k n ms rs w) as [out [w' ->]]
  end.
  eauto.
Qed.

(** *** A concrete append run *)

Lemma append_skips_existing_witness :
  Forall (fun request => req_model request <> "openai/gpt-4") (snd demoRun)
  /\ forall dataset, fst demoRun = Ok (Some dataset) ->
       nth_error (ds_models dataset) 2 = Some demoEntry
       /\ In demoEntry (ds_models dataset).
Proof.
  exact (append_skips_existing (alwaysContent (JStr "The immortal jellyfish."))
           demoArgv (Some "sk-or-demo") demoConfig demoPersisted
           "2026-01-01T00:00:00.000Z" demoEntry 2 eq_refl eq_refl).
Defined.

Lemma append_output_order_witness :
  exists fresh,
    ds_models demoDataset = demoPersisted ++ fresh
    /\ map id fresh = ["openai/gpt-5"]
    /\ Forall (fun e => length (runs e) = 2) fresh
    /\ Forall (fun e => ~ In (id e) (map id demoPersisted)) fresh.
Proof.
  apply (append_output_order (alwaysContent (JStr "The immortal jellyfish."))
           demoArgv (Some "sk-or-demo") demoConfig demoPersisted
           "2026-01-01T00:00:00.000Z" [] (snd demoRun) demoDataset);
    vm_compute; reflexivity.
Defined.

(** The demo run does write a dataset, of four models. *)
Example demoRun_written :
  fst demoRun = Ok (Some demoDataset)
  /\ map id (ds_models demoDataset)
     = ["legacy/model"; "qwen/qwen3"; "openai/gpt-4"; "openai/gpt-5"].
Proof. split; vm_compute; reflexivity. Qed.

(** ** Objects with ordinary keys *)

Section ObjectFacts.

Context {V : Type}.
Implicit Types (o : JsObject.t V) (k : string) (v : V).

Lemma get_None_iff k o : JsObject.get k o = None <-> ~ In k (map fst o).
Proof.
  induction o as [|[k' v'] o IH]; simpl; [tauto |].
  destruct (String.eqb_spec k k') as [-> | Hne].
  - split; [discriminate | intros H; elim H; now left].
  - rewrite IH. intuition congruence.
Qed.

Lemma get_In k v o : JsObject.get k o = Some v -> In (k, v) o.
Proof.
  induction o as [|[k' v'] o IH]; simpl; [discriminate |].
  destruct (String.eqb_spec k k') as [-> | Hne].
  - intros [= ->]. now left.
  - intros H. right. now apply IH.
Qed.

Lemma In_get k v o : List.NoDup (map fst o) -> In (k, v) o -> JsObject.get k o = Some v.
Proof.
  induction o as [|[k' v'] o IH]; simpl; [tauto |].
  intros Hnd [[= -> ->] | Hin].
  - now rewrite String.eqb_refl.
  - inversion Hnd as [|? ? Hk Hnd']; subst.
    destruct (String.eqb_spec k k') as [-> | Hne]; [| now apply IH].
    elim Hk. change k' with (fst (k', v)). now apply in_map.
Qed.

Lemma replace_keys k v o : map fst (JsObject.replace k v o) = map fst o.
Proof.
  induction o as [|[k' v'] o IH]; simpl; [reflexivity |].
  destruct (String.eqb k k'); simpl; [reflexivity | now rewrite IH].
Qed.

Lemma get_replace k v o k0 :
  JsObject.get k o <> None ->
  JsObject.get k0 (JsObject.replace k v o)
  = if String.eqb k0 k then Some v else JsObject.get k0 o.
Proof.
  induction o as [|[k' v'] o IH]; simpl; [congruence |].
  destruct (String.eqb_spec k k') as [-> | Hne]; simpl.
  - intros _. destruct (String.eqb k0 k'); reflexivity.
  - intros H. rewrite (IH H).
    destruct (String.eqb_spec k0 k') as [-> | Hne0]; [| reflexivity].
    destruct (String.eqb_spec k' k); [congruence | reflexivity].
Qed.

Lemma get_app k o o' :
  JsObject.get k (o ++ o')
  = match JsObject.get k o with
    | Some v => Some v
    | None => JsObject.get k o'
    end.
Proof.
  induction o as [|[k' v'] o IH]; simpl; [reflexivity |].
  destruct (String.eqb k k'); [reflexivity | exact IH].
Qed.

(** On a key that is no array index, [set] updates in place or
    appends. *)
Lemma set_ordinary k v o :
  JsObject.arrayIndex k = None ->
  JsObject.set k v o
  = match JsObject.get k o with
    | Some _ => JsObject.replace k v o
    | None => o ++ [(k, v)]
    end.
Proof. intros Hk. unfold JsObject.set. now rewrite Hk. Qed.

Lemma setAll_ordinary (l acc : list (string * V)) :
  List.NoDup (map fst (acc ++ l)) ->
  Forall (fun kv => JsObject.arrayIndex (fst kv) = None) l ->
  fold_left (fun o kv => JsObject.set (fst kv) (snd kv) o) l acc = acc ++ l.
Proof.
  revert acc. induction l as [|[k v] l IH]; intros acc Hnd Hord; simpl.
  - now rewrite app_nil_r.
  - inversion Hord as [|kv l' Hk Hord']; subst. simpl in Hk.
    rewrite (set_ordinary _ _ _ Hk).
    assert (Hfresh : JsObject.get k acc = None).
    { apply get_None_iff. rewrite map_app in Hnd. simpl in Hnd.
      intros Hin. apply List.NoDup_remove_2 in Hnd. apply Hnd.
      apply in_or_app. now left. }
    rewrite Hfresh.
    change (acc ++ (k, v) :: l) with (acc ++ [(k, v)] ++ l).
    rewrite app_assoc. apply IH; [| exact Hord'].
    now rewrite <- app_assoc.
Qed.

(** [Object.fromEntries] gives back a list of entries with distinct
    keys, none of them an array index, in the same order. *)
Lemma fromEntries_ordinary (l : list (string * V)) :
  List.NoDup (map fst l) ->
  Forall (fun kv => JsObject.arrayIndex (fst kv) = None) l ->
  JsObject.fromEntries l = l.
Proof. intros Hnd Hord. apply (setAll_ordinary l []); assumption. Qed.

End ObjectFacts.

(** ** Topic frequency *)

Section FirstIndex.

Lemma firstIndex_lt t l : In t l -> firstIndex t l < length l.
Proof.
  induction l as [|x l IH]; simpl; [tauto |].
  destruct (String.eqb_spec t x) as [-> | Hne]; [lia |].
  intros [-> | Hin]; [congruence | specialize (IH Hin); lia].
Qed.

Lemma firstIndex_app_old t l s : In t l -> firstIndex t (l ++ s) = firstIndex t l.
Proof.
  induction l as [|x l IH]; simpl; [tauto |].
  destruct (String.eqb_spec t x) as [-> | Hne]; [reflexivity |].
  intros [-> | Hin]; [congruence | now rewrite IH].
Qed.

Lemma firstIndex_app_new t l : ~ In t l -> firstIndex t (l ++ [t]) = length l.
Proof.
  induction l as [|x l IH]; simpl.
  - now rewrite String.eqb_refl.
  - intros Hn. destruct (String.eqb_spec t x) as [-> | Hne]; [tauto |].
    rewrite IH; tauto.
Qed.

Lemma count_occ_snoc (l : list string) t t' :
  count_occ string_dec (l ++ [t]) t'
  = count_occ string_dec l t' + (if String.eqb t t' then 1 else 0).
Proof.
  rewrite count_occ_app. simpl.
  destruct (string_dec t t') as [-> | Hne].
  - now rewrite String.eqb_refl.
  - destruct (String.eqb_spec t t'); [congruence | reflexivity].
Qed.

End FirstIndex.

Section SortedFacts.

Context {A : Type}.

Lemma StronglySorted_snoc (R : A -> A -> Prop) l x :
  StronglySorted R l -> Forall (fun a => R a x) l -> StronglySorted R (l ++ [x]).
Proof.
  induction 1 as [|a l Hl IH Ha]; intros Hx; simpl.
  - repeat constructor.
  - inversion Hx as [|? ? Hax Hlx]; subst. constructor; [now apply IH |].
    apply Forall_app. split; [exact Ha | now repeat constructor].
Qed.

Lemma StronglySorted_local (R R' : A -> A -> Prop) l :
  (forall a b, In a l -> In b l -> R a b -> R' a b) ->
  StronglySorted R l -> StronglySorted R' l.
Proof.
  intros Himp Hs. induction Hs as [|a l Hl IH Ha]; constructor.
  - apply IH. intros x y Hx Hy. apply Himp; now right.
  - rewrite List.Forall_forall in *. intros b Hb.
    apply Himp; [now left | now right | now apply Ha].
Qed.

Lemma StronglySorted_of_map {B : Type} (f : A -> B) (R : B -> B -> Prop) l :
  StronglySorted R (map f l) -> StronglySorted (fun a b => R (f a) (f b)) l.
Proof.
  induction l as [|a l IH]; simpl; intros Hs; [constructor |].
  inversion Hs as [|? ? Hl Ha]; subst. constructor; [now apply IH |].
  rewrite List.Forall_forall in *. intros b Hb. apply Ha. now apply in_map.
Qed.

Lemma In_firstn (x : A) n l : In x (firstn n l) -> In x l.
Proof.
  revert n. induction l as [|a l IH]; intros [|n]; simpl; try tauto.
  intros [-> | H]; [now left | right; eapply IH; eauto].
Qed.

Lemma StronglySorted_firstn (R : A -> A -> Prop) n l :
  StronglySorted R l -> StronglySorted R (firstn n l).
Proof.
  intros Hs. revert n. induction Hs as [|a l Hl IH Ha]; intros [|n]; simpl;
    try constructor; [apply IH |].
  rewrite List.Forall_forall in *. intros b Hb. apply Ha.
  eapply In_firstn. exact Hb.
Qed.

End SortedFacts.

(** The tally loop only ever bumps the topics of [successTopics]. *)
Lemma tallyRun_counts acc r :
  topicCounts (tallyRun acc r)
  = fold_left bump (if success r then default [] (topics r) else []) (topicCounts acc).
Proof. unfold tallyRun. destruct (success r); reflexivity. Qed.

Lemma tallyModel_counts acc m :
  topicCounts (tallyModel acc m)
  = fold_left bump
      (flat_map (fun r => if success r then default [] (topics r) else []) (runs m))
      (topicCounts acc).
Proof.
  unfold tallyModel. revert acc.
  induction (runs m) as [|r rs IH]; intros acc; simpl; [reflexivity |].
  now rewrite IH, tallyRun_counts, fold_left_app.
Qed.

Lemma tally_counts models acc :
  topicCounts (fold_left tallyModel models acc)
  = fold_left bump (successTopics models) (topicCounts acc).
Proof.
  revert acc. induction models as [|m ms IH]; intros acc; simpl; [reflexivity |].
  now rewrite IH, tallyModel_counts, fold_left_app.
Qed.

Lemma Counted_nil : Counted [] [].
Proof. split; simpl; [tauto | discriminate | constructor]. Qed.

Lemma Counted_bump seen counts t :
  JsObject.arrayIndex t = None ->
  Counted seen counts -> Counted (seen ++ [t]) (bump counts t).
Proof.
  intros Hord [Hkeys Hvals Horder]. unfold bump. rewrite (set_ordinary _ _ _ Hord).
  destruct (JsObject.get t counts) as [c |] eqn:Hget.
  - (* a topic met before: its count goes up in place *)
    assert (Hseen : In t seen).
    { apply Hkeys. destruct (in_dec string_dec t (map fst counts)) as [H | H]; [exact H |].
      apply get_None_iff in H. congruence. }
    split.
    + intros t'. rewrite replace_keys, Hkeys, in_app_iff. simpl.
      intuition (subst; auto).
    + intros t' c'. rewrite get_replace by congruence. rewrite count_occ_snoc.
      destruct (String.eqb_spec t' t) as [-> | Hne].
      * intros [= <-]. rewrite String.eqb_refl. simpl.
        now rewrite (Hvals _ _ Hget).
      * intros H. rewrite (Hvals _ _ H).
        destruct (String.eqb_spec t t'); [congruence | lia].
    + rewrite replace_keys. eapply StronglySorted_local; [| exact Horder].
      intros a b Ha Hb. apply Hkeys in Ha, Hb.
      now rewrite !firstIndex_app_old.
  - (* a new topic: appended with count 1 *)
    assert (Hnew : ~ In t seen).
    { intros H. apply Hkeys in H. apply get_None_iff in Hget. tauto. }
    split.
    + intros t'. rewrite map_app, !in_app_iff, Hkeys. simpl. tauto.
    + intros t' c'. rewrite get_app, count_occ_snoc.
      destruct (JsObject.get t' counts) as [c0 |] eqn:Hget'.
      * intros [= <-]. rewrite (Hvals _ _ Hget').
        destruct (String.eqb_spec t t') as [<- | Hne]; [congruence | lia].
      * simpl. destruct (String.eqb_spec t' t) as [-> | Hne]; [| discriminate].
        intros [= <-]. rewrite String.eqb_refl.
        rewrite (proj1 (count_occ_not_In string_dec seen t) Hnew). reflexivity.
    + rewrite map_app. simpl. apply StronglySorted_snoc.
      * eapply StronglySorted_local; [| exact Horder].
        intros a b Ha Hb. apply Hkeys in Ha, Hb.
        now rewrite !firstIndex_app_old.
      * apply List.Forall_forall. intros a Ha. apply Hkeys in Ha.
        rewrite firstIndex_app_old by exact Ha.
        rewrite firstIndex_app_new by exact Hnew.
        now apply firstIndex_lt.
Qed.

Lemma Counted_fold stream seen counts :
  Forall (fun t => JsObject.arrayIndex t = None) stream ->
  Counted seen counts ->
  Counted (seen ++ stream) (fold_left bump stream counts).
Proof.
  revert seen counts. induction stream as [|t stream IH]; intros seen counts Hord Hc;
    simpl.
  - now rewrite app_nil_r.
  - inversion Hord as [|? ? Ht Hrest]; subst.
    change (seen ++ t :: stream) with (seen ++ [t] ++ stream). rewrite app_assoc.
    apply IH; [exact Hrest | now apply Counted_bump].
Qed.

Lemma Counted_NoDup seen counts : Counted seen counts -> List.NoDup (map fst counts).
Proof.
  intros [_ _ Horder]. induction Horder as [|k ks Hks IH Hk]; constructor; [| exact IH].
  intros Hin. rewrite List.Forall_forall in Hk. specialize (Hk _ Hin). lia.
Qed.

(** The stable sort by descending count. *)

Lemma insertDesc_In x l y : In y (insertDesc x l) <-> y = x \/ In y l.
Proof.
  induction l as [|z l IH]; simpl; [intuition |].
  destruct (snd x <? snd z); simpl; [rewrite IH |]; intuition.
Qed.

Lemma sortDesc_In l y : In y (sortDesc l) <-> In y l.
Proof.
  induction l as [|x l IH]; simpl; [tauto |].
  rewrite insertDesc_In, IH. intuition.
Qed.

Lemma insertDesc_perm x l : Permutation (insertDesc x l) (x :: l).
Proof.
  induction l as [|z l IH]; simpl; [reflexivity |].
  destruct (snd x <? snd z); [| reflexivity].
  rewrite IH. apply perm_swap.
Qed.

Lemma sortDesc_perm l : Permutation (sortDesc l) l.
Proof.
  induction l as [|x l IH]; simpl; [reflexivity |].
  rewrite insertDesc_perm. now apply perm_skip.
Qed.

Section SortDesc.

(** The order of the entries before the sort. *)
Variable before : string * nat -> string * nat -> Prop.

Lemma insertDesc_sorted x l :
  StronglySorted (ranked before) l -> Forall (before x) l ->
  StronglySorted (ranked before) (insertDesc x l).
Proof.
  induction 1 as [|z l Hl IH Hz]; intros Hx; simpl; [repeat constructor |].
  inversion Hx as [|? ? Hxz Hxl]; subst.
  destruct (Nat.ltb_spec (snd x) (snd z)) as [Hlt | Hge].
  - constructor; [now apply IH |].
    apply List.Forall_forall. intros y Hy. apply insertDesc_In in Hy.
    destruct Hy as [-> | Hy]; [now left |].
    rewrite List.Forall_forall in Hz. now apply Hz.
  - constructor; [now constructor |].
    rewrite List.Forall_forall in *. intros y [<- | Hy].
    + unfold ranked. destruct (Nat.eq_dec (snd x) (snd z)); [right | left]; auto; lia.
    + assert (Hyz : snd y <= snd z) by (destruct (Hz _ Hy) as [? | [? _]]; lia).
      unfold ranked. destruct (Nat.eq_dec (snd x) (snd y)); [right | left]; auto; lia.
Qed.

Lemma sortDesc_sorted l : StronglySorted before l -> StronglySorted (ranked before) (sortDesc l).
Proof.
  induction 1 as [|x l Hl IH Hx]; simpl; [constructor |].
  apply insertDesc_sorted; [exact IH |].
  rewrite List.Forall_forall in *. intros y Hy. apply Hx. now apply sortDesc_In.
Qed.

Lemma StronglySorted_across (l1 l2 : list (string * nat)) a b :
  StronglySorted (ranked before) (l1 ++ l2) -> In a l1 -> In b l2 -> snd b <= snd a.
Proof.
  induction l1 as [|x l1 IH]; simpl; [tauto |].
  intros Hs [-> | Ha] Hb; inversion Hs as [|? ? Hl Hx]; subst.
  - rewrite List.Forall_forall in Hx.
    destruct (Hx b (in_or_app _ _ _ (or_intror Hb))) as [? | [? _]]; lia.
  - now apply IH.
Qed.

End SortDesc.

Lemma ordinaryKey_not_index t :
  JsObject.ordinaryKey t = true -> JsObject.arrayIndex t = None.
Proof. unfold JsObject.ordinaryKey. destruct (JsObject.arrayIndex t); [discriminate | reflexivity]. Qed.

(** Every label the classifier can return is an ordinary key. *)
Lemma detectTopics_ordinary text :
  Forall (fun t => JsObject.ordinaryKey t = true) (detectTopics text).
Proof.
  rewrite detectTopics_spec. apply List.Forall_forall. intros t Ht.
  apply in_map_iff in Ht. destruct Ht as [e [<- He]]. apply filter_In in He.
  pose proof topicKeywords_ordinary as Hall. rewrite forallb_forall in Hall.
  apply Hall. tauto.
Qed.

(** What the counting loop leaves in [topicCounts]. *)
Lemma topicCounts_counted models :
  Forall (fun t => JsObject.ordinaryKey t = true) (successTopics models) ->
  Counted (successTopics models)
    (topicCounts (fold_left tallyModel models (mkTally [] 0 0%Z 0%Z))).
Proof.
  intros Hord. rewrite tally_counts. cbn [topicCounts].
  apply (Counted_fold _ [] []); [| exact Counted_nil].
  eapply List.Forall_impl; [| exact Hord]. intros t. apply ordinaryKey_not_index.
Qed.

(** A counterexample to C4 as stated: with the topics "1", "1" and "0"
    on three successful runs, the object lists "0" (count 1) before "1"
    (count 2): array-index keys enumerate in numeric order, not in the
    order of the sort. *)
Lemma index_topics_not_descending :
  let run ts := mkRunResult true (JStr "text") (Some 12%Z) (Some 40%Z) None
                  (Some "stop") (Some ts) None None in
  let models := [ mkModelEntry "openai/gpt-4" "GPT-4" "OpenAI" "commercial" None
                    [ run ["1"]; run ["1"]; run ["0"] ] ] in
  topic_frequency (computeStats models) = [("0", 1); ("1", 2)]
  /\ ~ StronglySorted (fun a b => snd b <= snd a) (topic_frequency (computeStats models)).
Proof.
  split; [vm_compute; reflexivity |].
  intros Hs. vm_compute in Hs. inversion Hs as [|? ? _ Hall]; subst.
  inversion Hall as [|? ? Hle _]; subst. simpl in Hle. lia.
Qed.

(** C4 (amended). For every sequence of ModelEntries whose successful
    runs carry ordinary topic labels (no array index, no name inherited
    from [Object.prototype]; every label of the classifier is ordinary),
    [topic_frequency] gives each listed topic exactly the number of its
    occurrences among the topics of the successful runs, has distinct
    keys and at most 20 entries, is ordered by descending count with
    ties in the order of first occurrence, and drops only topics that
    are no more frequent than every listed one. *)
Theorem topic_frequency_ordinary (models : list ModelEntry) :
  Forall (fun t => JsObject.ordinaryKey t = true) (successTopics models) ->
  let stream := successTopics models in
  let frequency := topic_frequency (computeStats models) in
  (forall t c, In (t, c) frequency ->
               In t stream /\ c = count_occ string_dec stream t)
  /\ length frequency <= 20
  /\ List.NoDup (map fst frequency)
  /\ StronglySorted
       (fun a b => snd b < snd a
                   \/ (snd a = snd b
                       /\ firstIndex (fst a) stream < firstIndex (fst b) stream))
       frequency
  /\ (forall t, In t stream ->
        In t (map fst frequency)
        \/ (length frequency = 20
            /\ forall e, In e frequency -> count_occ string_dec stream t <= snd e)).
Proof.
  intros Hord stream frequency.
  pose proof (topicCounts_counted models Hord) as Hc.
  set (counts := topicCounts (fold_left tallyModel models (mkTally [] 0 0%Z 0%Z))) in *.
  fold stream in Hc.
  pose proof (Counted_NoDup _ _ Hc) as Hnd.
  destruct Hc as [Hkeys Hvals Horder].
  set (before := fun a b : string * nat =>
                   firstIndex (fst a) stream < firstIndex (fst b) stream).
  assert (Hsorted : StronglySorted (ranked before) (sortDesc counts)).
  { apply sortDesc_sorted. now apply StronglySorted_of_map in Horder. }
  assert (Hnd' : List.NoDup (map fst (sortDesc counts))).
  { eapply Permutation_NoDup; [| exact Hnd].
    apply Permutation_map, Permutation_sym, sortDesc_perm. }
  assert (Hsplit : sortDesc counts
                   = firstn 20 (sortDesc counts) ++ skipn 20 (sortDesc counts))
    by (symmetry; apply firstn_skipn).
  assert (Hnd20 : List.NoDup (map fst (firstn 20 (sortDesc counts)))).
  { rewrite Hsplit, map_app in Hnd'. now apply NoDup_app_remove_r in Hnd'. }
  assert (Hkey : forall e, In e (sortDesc counts) -> In (fst e) stream).
  { intros e He. apply Hkeys. apply in_map. exact (proj1 (sortDesc_In counts e) He). }
  assert (Hfreq : frequency = firstn 20 (sortDesc counts)).
  { subst frequency. unfold computeStats. cbn [topic_frequency].
    unfold sliceTo, JsObject.entries. fold counts.
    apply fromEntries_ordinary; [exact Hnd20 |].
    apply List.Forall_forall. intros e He. apply ordinaryKey_not_index.
    rewrite List.Forall_forall in Hord. apply Hord, Hkey.
    eapply In_firstn; exact He. }
  rewrite Hfreq. repeat split.
  - apply (Hkey (t, c)). eapply In_firstn; eauto.
  - apply Hvals. apply In_get; [exact Hnd |].
    apply (proj1 (sortDesc_In counts _)). eapply In_firstn; eauto.
  - apply firstn_le_length.
  - exact Hnd20.
  - now apply StronglySorted_firstn.
  - intros t Ht. apply Hkeys in Ht. apply in_map_iff in Ht.
    destruct Ht as [[t' c] [Heq Hin]]. simpl in Heq. subst t'.
    assert (Hc : c = count_occ string_dec stream t)
      by (apply Hvals; now apply In_get).
    apply (proj2 (sortDesc_In counts _)) in Hin. rewrite Hsplit in Hin.
    apply in_app_or in Hin. destruct Hin as [Hin | Hin].
    + left. change t with (fst (t, c)). now apply in_map.
    + right. split.
      * rewrite length_firstn. apply Nat.min_l.
        destruct (Nat.le_gt_cases 20 (length (sortDesc counts))) as [H | H];
          [exact H |].
        rewrite skipn_all2 in Hin by lia. destruct Hin.
      * intros e He. rewrite Hsplit in Hsorted.
        pose proof (StronglySorted_across before _ _ e (t, c) Hsorted He Hin) as Hle.
        simpl in Hle. now rewrite <- Hc.
Qed.

Lemma topic_frequency_ordinary_witness :
  let run ok ts := mkRunResult ok (JStr "text") (Some 12%Z) (Some 40%Z) None
                     (Some "stop") (Some ts) None None in
  let models :=
    [ mkModelEntry "openai/gpt-4" "GPT-4" "OpenAI" "commercial" None
        [ run true ["sloths"; "honey"]; run false ["venus"]; run true ["honey"] ];
      mkModelEntry "qwen/qwen3" "Qwen 3" "Alibaba" "open-source" None
        [ run true ["jellyfish"; "octopus"]; run true ["octopus"; "honey"] ] ] in
  topic_frequency (computeStats models)
  = [("honey", 3); ("octopus", 2); ("sloths", 1); ("jellyfish", 1)]
  /\ StronglySorted
       (fun a b => snd b < snd a
                   \/ (snd a = snd b
                       /\ firstIndex (fst a) (successTopics models)
                          < firstIndex (fst b) (successTopics models)))
       (topic_frequency (computeStats models)).
Proof.
  intros run models. split; [vm_compute; reflexivity |].
  apply (topic_frequency_ordinary models).
  assert (Hs : successTopics models
               = ["sloths"; "honey"; "honey"; "jellyfish"; "octopus"; "octopus"; "honey"])
    by reflexivity.
  rewrite Hs. repeat (apply List.Forall_cons; [reflexivity |]). apply List.Forall_nil.
Defined.

(** * Further properties of the query script *)

(** ** Command line *)

Lemma parseArgs_sound (n : nat) :
  forall argv acc, length argv <= n ->
    (append (parseArgs argv acc) = true -> append acc = true \/ In "--append" argv)
    /\ (dryRun (parseArgs argv acc) = true ->
          dryRun acc = true \/ In "--dry-run" argv)
    /\ (forall v, filterStr (parseArgs argv acc) = Some v ->
          filterStr acc = Some v
          \/ (v <> EmptyString
              /\ exists pre post, argv = pre ++ "--filter" :: v :: post)).
Proof.
  induction n as [|n IH]; intros [|a rest] acc Hlen; simpl in Hlen; try lia;
    try (simpl; repeat split; auto; fail).
  assert (Hrest : length rest <= n) by lia.
  assert (Hlater : forall acc',
            append acc' = append acc \/ (append acc' = true /\ a = "--append") ->
            dryRun acc' = dryRun acc \/ (dryRun acc' = true /\ a = "--dry-run") ->
            filterStr acc' = filterStr acc ->
            (append (parseArgs rest acc') = true ->
               append acc = true \/ In "--append" (a :: rest))
            /\ (dryRun (parseArgs rest acc') = true ->
                  dryRun acc = true \/ In "--dry-run" (a :: rest))
            /\ (forall v, filterStr (parseArgs rest acc') = Some v ->
                  filterStr acc = Some v
                  \/ (v <> EmptyString
                      /\ exists pre post, a :: rest = pre ++ "--filter" :: v :: post))).
  { intros acc' Ha Hd Hf. destruct (IH rest acc' Hrest) as [IHa [IHd IHf]].
    repeat split.
    - intros H. destruct (IHa H) as [H' | H']; [| right; now right].
      destruct Ha as [Ha | [_ ->]]; [left; congruence | right; now left].
    - intros H. destruct (IHd H) as [H' | H']; [| right; now right].
      destruct Hd as [Hd | [_ ->]]; [left; congruence | right; now left].
    - intros v H. destruct (IHf v H) as [H' | [Hv [pre [post ->]]]];
        [left; congruence |].
      right. split; [exact Hv |]. now exists (a :: pre), post. }
  simpl. destruct (String.eqb_spec a "--filter") as [-> | Hnf].
  - destruct rest as [|v rest']; [repeat split; auto |].
    destruct (JsString.truthy v) eqn:Hv; [| apply Hlater; auto].
    simpl in Hrest.
    destruct (IH rest' (mkArgs (Some v) (dryRun acc) (append acc)) ltac:(lia))
      as [IHa [IHd IHf]].
    repeat split.
    + intros H. destruct (IHa H) as [H' | H']; [now left | right; right; now right].
    + intros H. destruct (IHd H) as [H' | H']; [now left | right; right; now right].
    + intros v' H. right.
      destruct (IHf v' H) as [[= <-] | [Hv' [pre [post ->]]]].
      * split; [destruct v; [discriminate | discriminate] |]. now exists [], rest'.
      * split; [exact Hv' |]. now exists ("--filter" :: v :: pre), post.
  - destruct (String.eqb_spec a "--dry-run") as [-> | Hnd];
      [apply Hlater; simpl; auto |].
    destruct (String.eqb_spec a "--append") as [-> | Hna];
      [apply Hlater; simpl; auto |].
    apply Hlater; auto.
Qed.

(** X1. A flag is set only if it is on the command line, and the
    filter is a non-empty token that directly follows [--filter]. *)
Theorem parseArgs_flags_present (argv : list string) :
  (append (parseArgs argv noArgs) = true -> In "--append" argv)
  /\ (dryRun (parseArgs argv noArgs) = true -> In "--dry-run" argv)
  /\ (forall v, filterStr (parseArgs argv noArgs) = Some v ->
        v <> EmptyString
        /\ exists pre post, argv = pre ++ "--filter" :: v :: post).
Proof.
  destruct (parseArgs_sound (length argv) argv noArgs (le_n _)) as [Ha [Hd Hf]].
  repeat split.
  - intros H. destruct (Ha H) as [H' | H']; [discriminate | exact H'].
  - intros H. destruct (Hd H) as [H' | H']; [discriminate | exact H'].
  - destruct (Hf v H) as [H' | [H' _]]; [discriminate | exact H'].
  - destruct (Hf v H) as [H' | [_ H']]; [discriminate | exact H'].
Qed.

Lemma parseArgs_flags_present_witness :
  In "--append" demoArgv
  /\ exists pre post, demoArgv = pre ++ "--filter" :: "GPT , claude" :: post.
Proof.
  destruct (parseArgs_flags_present demoArgv) as [Ha [_ Hf]].
  split; [exact (Ha eq_refl) | exact (proj2 (Hf "GPT , claude" eq_refl))].
Defined.

(** The token after [--filter] is the filter, even if it spells a flag. *)
Example filter_swallows_flag :
  parseArgs ["--filter"; "--append"] noArgs = mkArgs (Some "--append") false false.
Proof. reflexivity. Qed.

(** ** The filter *)

Lemma includes_empty s : JsString.includes s EmptyString = true.
Proof. destruct s; reflexivity. Qed.

Lemma filter_all {A : Type} (p : A -> bool) (l : list A) :
  (forall x, In x l -> p x = true) -> List.filter p l = l.
Proof.
  induction l as [|x l IH]; intros H; simpl; [reflexivity |].
  rewrite (H x (or_introl eq_refl)), IH; [reflexivity |].
  intros y Hy. apply H. now right.
Qed.

(** X2. A filter with a blank fragment (a trailing or doubled comma,
    or only spaces between commas) selects the whole catalog: the
    empty string is contained in every id. *)
Theorem applyFilter_blank_fragment (fs fragment : string) (models : list ModelConfig) :
  fs <> EmptyString ->
  In fragment (JsString.split ","%char fs) ->
  JsString.trim fragment = EmptyString ->
  applyFilter (Some fs) models = models.
Proof.
  intros Hfs Hin Hblank. unfold applyFilter.
  assert (Ht : JsString.truthy fs = true) by (destruct fs; [congruence | reflexivity]).
  rewrite Ht. apply filter_all. intros m _.
  apply existsb_exists. exists EmptyString. split.
  - apply in_map_iff. exists fragment. split; [now rewrite Hblank | exact Hin].
  - now rewrite includes_empty.
Qed.

Lemma applyFilter_blank_fragment_witness :
  applyFilter (Some "claude,") (cfg_models demoConfig) = cfg_models demoConfig.
Proof.
  apply (applyFilter_blank_fragment "claude," EmptyString).
  - discriminate.
  - right. left. reflexivity.
  - reflexivity.
Defined.

(** Without the comma the same filter selects nothing here. *)
Example applyFilter_no_match :
  applyFilter (Some "claude") (cfg_models demoConfig) = [].
Proof. reflexivity. Qed.

(** ** Runs that do no work *)

(** X3. A dry run issues no request and writes nothing, with or
    without a credential; outside a dry run a missing or empty
    credential exits with code 1 before any request. *)
Theorem main_without_requests (api : Api) (argv : list string)
    (apiKey : option string) (config : Config) (file : DataFile) (now : string)
    (w : World) :
  (dryRun (parseArgs argv noArgs) = true ->
     main api argv apiKey config file now w = (Ok None, w))
  /\ (dryRun (parseArgs argv noArgs) = false -> optTruthy apiKey = false ->
        main api argv apiKey config file now w = (Exited 1, w)).
Proof.
  rewrite main_unfold. split.
  - intros ->. now rewrite andb_false_r.
  - intros -> ->. reflexivity.
Qed.

Lemma main_without_requests_witness :
  main timingOut ["--dry-run"] None demoConfig Unreadable "now" [] = (Ok None, [])
  /\ main timingOut [] (Some EmptyString) demoConfig Unreadable "now" []
     = (Exited 1, []).
Proof.
  split.
  - exact (proj1 (main_without_requests timingOut ["--dry-run"] None demoConfig
                    Unreadable "now" []) eq_refl).
  - exact (proj2 (main_without_requests timingOut [] (Some EmptyString) demoConfig
                    Unreadable "now" []) eq_refl eq_refl).
Defined.

(** ** Runs without [--append] *)

Lemma queried_empty (models : list ModelConfig) : queried ∅ models = models.
Proof.
  unfold queried. apply filter_all. intros m _.
  rewrite bool_decide_eq_false_2; [reflexivity | apply not_elem_of_empty].
Qed.

(** X4. Without [--append] the dataset file plays no role: the run is
    the same whatever the file holds, and a dataset that is written
    has exactly one entry per model of the filtered catalog, in catalog
    order; nothing of an older dataset is kept. *)
Theorem fresh_run_ignores_file (api : Api) (argv : list string)
    (apiKey : option string) (config : Config) (file1 file2 : DataFile)
    (now : string) (w : World) :
  append (parseArgs argv noArgs) = false ->
  main api argv apiKey config file1 now w = main api argv apiKey config file2 now w
  /\ forall dataset w',
       main api argv apiKey config file1 now w = (Ok (Some dataset), w') ->
       map id (ds_models dataset)
       = map mc_id (applyFilter (filterStr (parseArgs argv noArgs)) (cfg_models config)).
Proof.
  intros Happ. rewrite !main_unfold, Happ. cbn [loadExisting fst snd].
  split; [reflexivity |].
  destruct (negb (optTruthy apiKey) && negb (dryRun (parseArgs argv noArgs)));
    [discriminate |].
  destruct (dryRun (parseArgs argv noArgs)); [discriminate |].
  intros dataset w'.
  match goal with
  | |- context [modelLoop ?a ?p ?t ?ids ?k ?n ?ms ?rs ?w] =>
      pose proof (modelLoop_results a p t ids k n ms rs w) as Hres;
      destruct (modelLoop a p t ids k n ms rs w) as [[results | e | c] w1]
  end; try discriminate.
  intros [= <- _]. cbn [ds_models].
  destruct (Hres _ _ eq_refl) as [fresh [-> Hfresh]].
  apply fresh_ids in Hfresh. rewrite queried_empty in Hfresh.
  destruct Hfresh as [Hids _]. exact Hids.
Qed.

Lemma fresh_run_ignores_file_witness :
  main (alwaysContent (JStr "Honey never spoils.")) ["--filter"; "gpt"]
       (Some "sk-or-demo") demoConfig (Parsed (Some demoPersisted)) "now" []
  = main (alwaysContent (JStr "Honey never spoils.")) ["--filter"; "gpt"]
         (Some "sk-or-demo") demoConfig Unreadable "now" [].
Proof.
  exact (proj1 (fresh_run_ignores_file (alwaysContent (JStr "Honey never spoils."))
                  ["--filter"; "gpt"] (Some "sk-or-demo") demoConfig
                  (Parsed (Some demoPersisted)) Unreadable "now" [] eq_refl)).
Defined.

(** ** One attempt: requests and stored result *)

Lemma retryLoop_requests api prompt temperature modelId ladder result w :
  exists k,
    k <= length ladder
    /\ snd (retryLoop api prompt temperature modelId ladder result w)
       = w ++ map (mkRequest modelId prompt temperature) (firstn k ladder).
Proof.
  revert result w. induction ladder as [|k0 rest IH]; intros result w;
    rewrite retryLoop_unfold; destruct (success result);
    try (exists 0; split; [simpl; lia | now rewrite app_nil_r]);
    unfold bind at 1, liftF;
    destruct (contentIsEmpty (content result)) as [e | [|]];
    try (exists 0; split; [simpl; lia | now rewrite app_nil_r]).
  unfold bind, lift, queryModel.
  destruct (IH (settle (api w (mkRequest modelId prompt temperature k0)))
              (w ++ [mkRequest modelId prompt temperature k0])) as [k [Hk Hlog]].
  exists (S k). split; [simpl; lia |].
  match goal with
  | |- snd ?x = _ =>
      replace x with (retryLoop api prompt temperature modelId rest
                        (settle (api w (mkRequest modelId prompt temperature k0)))
                        (w ++ [mkRequest modelId prompt temperature k0]))
  end.
  - rewrite Hlog. simpl. now rewrite <- app_assoc.
  - destruct (retryLoop api prompt temperature modelId rest _ _) as [[r | e | c] w'];
      reflexivity.
Qed.

Lemma attemptRun_log (api : Api) (prompt : string) (temperature : Q)
    (modelId : string) (maxTokens : Z) (w : World) :
  exists k,
    k <= 3
    /\ snd (attemptRun api prompt temperature modelId maxTokens w)
       = w ++ mkRequest modelId prompt temperature maxTokens
              :: map (mkRequest modelId prompt temperature) (firstn k retryTokens).
Proof.
  rewrite attemptRun_unfold.
  destruct (retryLoop_requests api prompt temperature modelId retryTokens
              (settle (api w (mkRequest modelId prompt temperature maxTokens)))
              (w ++ [mkRequest modelId prompt temperature maxTokens]))
    as [k [Hk Hlog]].
  exists k. split; [exact Hk |].
  unfold bind at 1.
  destruct (retryLoop api prompt temperature modelId retryTokens _ _)
    as [[r | e | c] w'] eqn:Hloop; cbn [snd] in Hlog; subst w';
    rewrite <- app_assoc; try reflexivity.
  destruct (success r); [| reflexivity].
  unfold bind, liftF, ret. destruct (detectTopicsOf (content r)); reflexivity.
Qed.

(** X5. One attempt issues the configured request and then a prefix of
    the ladder 2500, 5000, 10000, in this order, however it ends: at
    most four requests, all for the same model, and never a budget
    outside the ladder. *)
Theorem attemptRun_requests (api : Api) (prompt : string) (temperature : Q)
    (modelId : string) (maxTokens : Z) (w : World) :
  exists k,
    k <= 3
    /\ snd (attemptRun api prompt temperature modelId maxTokens w)
       = w ++ mkRequest modelId prompt temperature maxTokens
              :: map (mkRequest modelId prompt temperature) (firstn k retryTokens)
    /\ length (snd (attemptRun api prompt temperature modelId maxTokens w))
       <= length w + 4.
Proof.
  destruct (attemptRun_log api prompt temperature modelId maxTokens w)
    as [k [Hk Hlog]].
  exists k. split; [exact Hk |]. split; [exact Hlog |].
  rewrite Hlog, length_app. cbn [length]. rewrite length_map, length_firstn. lia.
Qed.

(** X6. A failed first request (timeout, HTTP error, malformed
    response) is stored as it is and never retried: one request. *)
Theorem failure_not_retried (api : Api) (prompt : string) (temperature : Q)
    (modelId : string) (maxTokens : Z) (w : World) :
  success (settle (api w (mkRequest modelId prompt temperature maxTokens))) = false ->
  attemptRun api prompt temperature modelId maxTokens w
  = (Ok (settle (api w (mkRequest modelId prompt temperature maxTokens))),
     w ++ [mkRequest modelId prompt temperature maxTokens]).
Proof.
  intros Hfail. rewrite attemptRun_unfold. unfold bind.
  rewrite (retryLoop_failure _ _ _ _ _ _ _ Hfail), Hfail. reflexivity.
Qed.

Lemma failure_not_retried_witness :
  attemptRun timingOut "Tell me something" (7 # 10) "openai/o1" 1000%Z []
  = (Ok (failed "timeout"),
     [mkRequest "openai/o1" "Tell me something" (7 # 10) 1000%Z]).
Proof.
  exact (failure_not_retried timingOut "Tell me something" (7 # 10) "openai/o1"
           1000%Z [] eq_refl).
Defined.

Lemma readResponse_shape resp r :
  readResponse resp = inr r -> ok resp = true ->
  success r = true /\ topics r = None /\ error r = None.
Proof.
  unfold readResponse. intros H Hok. rewrite Hok in H. simpl in H.
  repeat match type of H with
         | tryBind ?x _ = _ => destruct x; simpl in H; [discriminate |]
         end.
  injection H as <-. repeat split.
Qed.

(** A settled request is a success without error or a [failed] record;
    topics are not attached yet. *)
Lemma settle_shape o :
  topics (settle o) = None
  /\ (success (settle o) = true -> error (settle o) = None)
  /\ (success (settle o) = false -> exists msg, settle o = failed msg).
Proof.
  assert (Hcatch : forall e, exists msg, catchError e = failed msg).
  { intros e. unfold catchError. destruct (String.eqb _ _); eauto. }
  destruct o as [e | resp]; cbn [settle].
  - destruct (Hcatch e) as [msg ->]. repeat split; [discriminate | eauto].
  - destruct (readResponse resp) as [e | r] eqn:Hread.
    + destruct (Hcatch e) as [msg ->]. repeat split; [discriminate | eauto].
    + destruct (ok resp) eqn:Hok.
      * destruct (readResponse_shape _ _ Hread Hok) as [Hs [Ht He]].
        repeat split; auto. congruence.
      * unfold readResponse in Hread. rewrite Hok in Hread. cbn [negb] in Hread.
        destruct (text_result resp); [discriminate |].
        injection Hread as <-. repeat split; [discriminate | eauto].
Qed.

Lemma retryLoop_settled api prompt temperature modelId ladder result w r w' :
  (exists o, result = settle o) ->
  retryLoop api prompt temperature modelId ladder result w = (Ok r, w') ->
  exists o, r = settle o.
Proof.
  revert result w. induction ladder as [|k0 rest IH]; intros result w Hres;
    rewrite retryLoop_unfold; destruct (success result);
    try (intros [= <- _]; exact Hres);
    unfold bind at 1, liftF;
    destruct (contentIsEmpty (content result)) as [e | [|]];
    try discriminate; try (intros [= <- _]; exact Hres).
  unfold bind, lift, queryModel. intros H.
  eapply IH; [| exact H]. eauto.
Qed.

Lemma attemptRun_classified api prompt temperature modelId maxTokens w r w' :
  attemptRun api prompt temperature modelId maxTokens w = (Ok r, w') ->
  classified r.
Proof.
  rewrite attemptRun_unfold. unfold bind at 1.
  destruct (retryLoop api prompt temperature modelId retryTokens _ _)
    as [[last | e | c] w1] eqn:Hloop; try discriminate.
  apply retryLoop_settled in Hloop; [| eauto]. destruct Hloop as [o ->].
  destruct (settle_shape o) as [Ht [Hok Hfail]].
  destruct (success (settle o)) eqn:Hs.
  - unfold bind, liftF, ret.
    destruct (content (settle o)) as [| | b | n | text | l | ms] eqn:Hc;
      cbn [detectTopicsOf]; try discriminate.
    intros [= <- _]. left. unfold classified, setTopics.
    cbn [success content topics error]. rewrite Hs, Hc, (Hok eq_refl). eauto.
  - intros [= <- _]. right. destruct (Hfail eq_refl) as [msg Hmsg].
    rewrite Hmsg. unfold failed. cbn [success content topics error]. eauto.
Qed.

(** X7. Whatever the API answers, a RunResult that [attemptRun] stores
    is of one of two shapes: a success whose content is a string, with
    the topics of that string attached and no error, or a failure with
    [content = null], no topics and an error message. *)
Theorem attemptRun_stored (api : Api) (prompt : string) (temperature : Q)
    (modelId : string) (maxTokens : Z) (w w' : World) (r : RunResult) :
  attemptRun api prompt temperature modelId maxTokens w = (Ok r, w') ->
  (success r = true
   /\ exists text, content r = JStr text
                   /\ topics r = Some (detectTopics text) /\ error r = None)
  \/ (success r = false /\ content r = JNull /\ topics r = None
      /\ exists msg, error r = Some msg).
Proof. intros H. exact (attemptRun_classified _ _ _ _ _ _ _ _ H). Qed.

Lemma attemptRun_stored_witness :
  success (failed "HTTP 429: rate limited") = false
  /\ content (failed "HTTP 429: rate limited") = JNull
  /\ topics (failed "HTTP 429: rate limited") = None
  /\ exists msg, error (failed "HTTP 429: rate limited") = Some msg.
Proof.
  destruct (attemptRun_stored (alwaysStatus 429 "rate limited") "Tell me something"
              (7 # 10) "openai/gpt-4" 1000%Z []
              [mkRequest "openai/gpt-4" "Tell me something" (7 # 10) 1000%Z]
              (failed "HTTP 429: rate limited") eq_refl)
    as [[Hs _] | H]; [discriminate Hs | exact H].
Defined.

(** ** Content that is [null] *)

Lemma null_is_empty r : nullSuccess r -> emptySuccess r.
Proof. intros [Hs Hc]. split; [exact Hs | now rewrite Hc]. Qed.

Lemma attemptRun_null api prompt temperature modelId maxTokens w :
  (forall w0 req, nullSuccess (settle (api w0 req))) ->
  attemptRun api prompt temperature modelId maxTokens w
  = (Thrown (Js.readError JNull "toLowerCase"),
     w ++ [ mkRequest modelId prompt temperature maxTokens;
            mkRequest modelId prompt temperature 2500%Z;
            mkRequest modelId prompt temperature 5000%Z;
            mkRequest modelId prompt temperature 10000%Z ]).
Proof.
  intros Hnull. rewrite attemptRun_unfold. unfold bind at 1. unfold retryTokens.
  rewrite !retryLoop_climb by (apply null_is_empty, Hnull).
  rewrite retryLoop_exhausted by (apply null_is_empty, Hnull).
  match goal with
  | |- (if success (settle (api ?w0 ?req)) then _ else _) _ = _ =>
      destruct (Hnull w0 req) as [Hs Hc]; rewrite Hs;
      unfold bind, liftF; rewrite Hc; cbn [detectTopicsOf]
  end.
  now rewrite <- !app_assoc.
Qed.

(** The first model that is queried starts the loop over its runs. *)
Lemma modelLoop_first api prompt temperature existingIds maxTokens runsPerModel
    models m others results w :
  queried existingIds models = m :: others ->
  exists rest,
    modelLoop api prompt temperature existingIds maxTokens runsPerModel
      models results w
    = bind (runLoop api prompt temperature (mc_id m) maxTokens runsPerModel [])
        (fun runs =>
           modelLoop api prompt temperature existingIds maxTokens runsPerModel
             rest (results ++ [entryOf m runs]))
        w.
Proof.
  induction models as [|m0 models IH]; simpl; [discriminate |].
  case_bool_decide as Hin; cbn [negb].
  - exact IH.
  - intros [= -> _]. now exists models.
Qed.

(** X8. When the API answers every request with a success whose
    content is [null], a run that has at least one model to query (and
    at least one run per model) is aborted by a TypeError after the
    four requests of the first attempt: no dataset is written, not even
    for the models that would have followed. *)
Theorem null_content_aborts_main (api : Api) (argv : list string)
    (apiKey : option string) (config : Config) (file : DataFile) (now : string)
    (w : World) (m : ModelConfig) (others : list ModelConfig) (n : nat) :
  (forall w0 req, nullSuccess (settle (api w0 req))) ->
  optTruthy apiKey = true ->
  dryRun (parseArgs argv noArgs) = false ->
  default 3 (cfg_runs_per_model config) = S n ->
  queried (fst (loadExisting (append (parseArgs argv noArgs)) file))
    (applyFilter (filterStr (parseArgs argv noArgs)) (cfg_models config))
  = m :: others ->
  main api argv apiKey config file now w
  = (Thrown (Js.readError JNull "toLowerCase"),
     w ++ map (mkRequest (mc_id m) (cfg_prompt config) (cfg_temperature config))
              (cfg_max_tokens config :: retryTokens)).
Proof.
  intros Hnull Hkey Hdry Hruns Hq. rewrite main_unfold, Hkey, Hdry, Hruns.
  cbn [negb andb].
  match goal with
  | |- context [modelLoop ?a ?p ?t ?ids ?k ?r ?ms ?rs ?w0] =>
      destruct (modelLoop_first a p t ids k r ms m others rs w0 Hq) as [rest ->]
  end.
  unfold bind at 1. cbn [runLoop]. unfold bind at 1.
  now rewrite (attemptRun_null _ _ _ _ _ _ Hnull).
Qed.

Lemma null_content_aborts_main_witness :
  main (alwaysContent JNull) [] (Some "sk-or-demo") demoConfig Unreadable "now" []
  = (Thrown (Js.readError JNull "toLowerCase"),
     map (mkRequest "openai/gpt-4" (cfg_prompt demoConfig) (7 # 10))
         [1000; 2500; 5000; 10000]%Z).
Proof.
  apply (null_content_aborts_main (alwaysContent JNull) [] (Some "sk-or-demo")
           demoConfig Unreadable "now" []
           (mkModelConfig "openai/gpt-4" "GPT-4" "OpenAI" "commercial" None)
           [ mkModelConfig "openai/gpt-5" "GPT-5" "OpenAI" "commercial" (Some "2025-08");
             mkModelConfig "qwen/qwen3" "Qwen 3" "Alibaba" "open-source" None ]
           1).
  - intros w0 req. split; reflexivity.
  - reflexivity.
  - reflexivity.
  - reflexivity.
  - reflexivity.
Defined.

(** ** A run that completes *)

Lemma alwaysContent_wellTyped text : wellTyped (alwaysContent (JStr text)).
Proof. intros w req _. exists text. reflexivity. Qed.

(** X9. With a credential, outside a dry run, and against an API whose
    successes always carry a string as content (possibly empty), [main]
    never throws: it always ends by writing a dataset. *)
Theorem main_writes_dataset (api : Api) (argv : list string)
    (apiKey : option string) (config : Config) (file : DataFile) (now : string)
    (w : World) :
  wellTyped api ->
  optTruthy apiKey = true ->
  dryRun (parseArgs argv noArgs) = false ->
  exists dataset w',
    main api argv apiKey config file now w = (Ok (Some dataset), w')
    /\ meta_total_models (ds_meta dataset) = length (ds_models dataset)
    /\ total_models (ds_stats dataset) = length (ds_models dataset).
Proof.
  intros Hapi Hkey Hdry. rewrite main_unfold, Hkey, Hdry. cbn [negb andb].
  match goal with
  | |- context [modelLoop ?a ?p ?t ?ids ?k ?n ?ms ?rs ?w] =>
      destruct (modelLoop_completes a p t Hapi ids k n ms rs w) as [out [w' ->]]
  end.
  eexists _, _. split; [reflexivity |]. split; reflexivity.
Qed.

Lemma main_writes_dataset_witness :
  exists dataset w',
    main (alwaysContent (JStr "The immortal jellyfish.")) demoArgv (Some "sk-or-demo")
         demoConfig (Parsed (Some demoPersisted)) "2026-01-01T00:00:00.000Z" []
    = (Ok (Some dataset), w')
    /\ meta_total_models (ds_meta dataset) = length (ds_models dataset)
    /\ total_models (ds_stats dataset) = length (ds_models dataset).
Proof.
  apply (main_writes_dataset (alwaysContent (JStr "The immortal jellyfish.")) demoArgv
           (Some "sk-or-demo") demoConfig (Parsed (Some demoPersisted))
           "2026-01-01T00:00:00.000Z" []).
  - apply alwaysContent_wellTyped.
  - reflexivity.
  - reflexivity.
Defined.

(** ** Counters of [computeStats] *)




Lemma filter_length_le {A : Type} (p : A -> bool) (l : list A) :
  length (List.filter p l) <= length l.
Proof. induction l as [|x l IH]; simpl; [lia |]. destruct (p x); simpl; lia. Qed.




(** ** Topics of a written dataset *)

Lemma runLoop_classified api prompt temperature modelId maxTokens remaining
    runs w out w' :
  runLoop api prompt temperature modelId maxTokens remaining runs w = (Ok out, w') ->
  Forall classified runs -> Forall classified out.
Proof.
  revert runs w. induction remaining as [|n IH]; intros runs w; simpl.
  - now intros [= <- _].
  - unfold bind at 1.
    destruct (attemptRun api prompt temperature modelId maxTokens w)
      as [[r | e | c] w1] eqn:Hrun; try discriminate.
    intros H Hruns. apply (IH _ _ H). apply Forall_app. split; [exact Hruns |].
    apply List.Forall_cons; [| apply List.Forall_nil].
    eapply attemptRun_classified; exact Hrun.
Qed.

Lemma modelLoop_classified api prompt temperature existingIds maxTokens runsPerModel
    models results w out w' :
  modelLoop api prompt temperature existingIds maxTokens runsPerModel
    models results w = (Ok out, w') ->
  exists fresh,
    out = results ++ fresh /\ Forall (fun e => Forall classified (runs e)) fresh.
Proof.
  revert results w. induction models as [|m rest IH]; intros results w; simpl.
  - intros [= <- _]. exists []. split; [now rewrite app_nil_r | constructor].
  - case_bool_decide as Hin; [apply IH |]. unfold bind at 1.
    destruct (runLoop api prompt temperature (mc_id m) maxTokens runsPerModel [] w)
      as [[rs | e | c] w1] eqn:Hruns; try discriminate.
    intros H. destruct (IH _ _ H) as [fresh [-> Hfresh]].
    exists (entryOf m rs :: fresh). split; [now rewrite <- app_assoc |].
    constructor; [| exact Hfresh]. cbn [runs entryOf].
    eapply runLoop_classified; [exact Hruns | constructor].
Qed.

Lemma successTopics_app a b :
  successTopics (a ++ b) = successTopics a ++ successTopics b.
Proof. unfold successTopics. apply flat_map_app. Qed.

Lemma classified_topics_ordinary (entries : list ModelEntry) :
  Forall (fun e => Forall classified (runs e)) entries ->
  Forall (fun t => JsObject.ordinaryKey t = true) (successTopics entries).
Proof.
  intros Hall. unfold successTopics. apply List.Forall_forall. intros t Ht.
  apply in_flat_map in Ht. destruct Ht as [e [He Ht]].
  apply in_flat_map in Ht. destruct Ht as [r [Hr Ht]].
  rewrite List.Forall_forall in Hall. specialize (Hall e He).
  rewrite List.Forall_forall in Hall. specialize (Hall r Hr).
  destruct Hall as [[Hs [text [_ [Htop _]]]] | [Hs _]]; rewrite Hs in Ht;
    [| destruct Ht].
  rewrite Htop in Ht. cbn [default] in Ht.
  pose proof (detectTopics_ordinary text) as Hord.
  rewrite List.Forall_forall in Hord. now apply Hord.
Qed.

(** X11. The topics that [main] itself attaches are ordinary keys: in a
    dataset that is written, the topics of the successful runs are those
    of the entries carried over from the persisted dataset followed by
    labels of the classifier. So a dataset built from scratch, or on top
    of a dataset with ordinary labels, meets the condition under which
    [topic_frequency] is ordered by count. *)
Theorem written_topics_ordinary (api : Api) (argv : list string)
    (apiKey : option string) (config : Config) (file : DataFile) (now : string)
    (w w' : World) (dataset : Dataset) :
  main api argv apiKey config file now w = (Ok (Some dataset), w') ->
  Forall (fun t => JsObject.ordinaryKey t = true)
         (successTopics (snd (loadExisting (append (parseArgs argv noArgs)) file))) ->
  Forall (fun t => JsObject.ordinaryKey t = true) (successTopics (ds_models dataset)).
Proof.
  rewrite main_unfold.
  destruct (negb (optTruthy apiKey) && negb (dryRun (parseArgs argv noArgs)));
    [discriminate |].
  destruct (dryRun (parseArgs argv noArgs)); [discriminate |].
  match goal with
  | |- context [modelLoop ?a ?p ?t ?ids ?k ?n ?ms ?rs ?w] =>
      pose proof (modelLoop_classified a p t ids k n ms rs w) as Hres;
      destruct (modelLoop a p t ids k n ms rs w) as [[results | e | c] w1]
  end; try discriminate.
  intros [= <- _] Hold. cbn [ds_models].
  destruct (Hres _ _ eq_refl) as [fresh [-> Hfresh]].
  rewrite successTopics_app. apply Forall_app. split; [exact Hold |].
  now apply classified_topics_ordinary.
Qed.

Lemma written_topics_ordinary_witness :
  Forall (fun t => JsObject.ordinaryKey t = true) (successTopics (ds_models demoDataset)).
Proof.
  apply (written_topics_ordinary (alwaysContent (JStr "The immortal jellyfish."))
           demoArgv (Some "sk-or-demo") demoConfig (Parsed (Some demoPersisted))
           "2026-01-01T00:00:00.000Z" [] (snd demoRun) demoDataset).
  - vm_compute. reflexivity.
  - repeat (apply List.Forall_cons; [reflexivity |]). apply List.Forall_nil.
Defined.

(** ** The requests of a whole run *)

Lemma issued_refl P w : issued P 0 w w.
Proof. exists []. rewrite app_nil_r. repeat split; [constructor | simpl; lia]. Qed.

Lemma issued_weaken (P Q : Request -> Prop) a b w w' :
  (forall r, P r -> Q r) -> a <= b -> issued P a w w' -> issued Q b w w'.
Proof.
  intros HPQ Hab [added [-> [Hall Hlen]]]. exists added.
  repeat split; [| lia]. eapply List.Forall_impl; [| exact Hall]. exact HPQ.
Qed.

Lemma bind_issued {A B : Type} P a b (m : M A) (f : A -> M B) w :
  issued P a w (snd (m w)) ->
  (forall x w1, issued P b w1 (snd (f x w1))) ->
  issued P (a + b) w (snd (bind m f w)).
Proof.
  intros Hm Hf. unfold bind. destruct (m w) as [[x | e | c] w1]; cbn [snd] in *;
    try (eapply issued_weaken; [| | exact Hm]; auto; lia).
  destruct Hm as [added [-> [Hall Hlen]]].
  destruct (Hf x (w ++ added)) as [added' [-> [Hall' Hlen']]].
  exists (added ++ added'). rewrite app_assoc, length_app.
  repeat split; [| lia]. apply Forall_app. now split.
Qed.

Lemma attemptRun_issued api prompt temperature modelId maxTokens w :
  issued (configured prompt temperature maxTokens [modelId]) 4 w
    (snd (attemptRun api prompt temperature modelId maxTokens w)).
Proof.
  destruct (attemptRun_log api prompt temperature modelId maxTokens w)
    as [k [Hk ->]].
  eexists. split; [reflexivity |]. split.
  - apply List.Forall_cons.
    + repeat split; try reflexivity; now left.
    + apply List.Forall_forall. intros r Hr. apply in_map_iff in Hr.
      destruct Hr as [b [<- Hb]]. apply In_firstn in Hb.
      repeat split; try reflexivity; [now left | now right].
  - cbn [length]. rewrite length_map, length_firstn. lia.
Qed.

Lemma runLoop_issued api prompt temperature modelId maxTokens remaining runs w :
  issued (configured prompt temperature maxTokens [modelId]) (4 * remaining) w
    (snd (runLoop api prompt temperature modelId maxTokens remaining runs w)).
Proof.
  revert runs w. induction remaining as [|n IH]; intros runs w; simpl runLoop.
  - apply issued_refl.
  - replace (4 * S n) with (4 + 4 * n) by lia.
    apply bind_issued; [apply attemptRun_issued | intros; apply IH].
Qed.

Lemma modelLoop_issued api prompt temperature existingIds maxTokens runsPerModel
    models results w :
  issued (configured prompt temperature maxTokens
            (map mc_id (queried existingIds models)))
         (4 * runsPerModel * length (queried existingIds models)) w
    (snd (modelLoop api prompt temperature existingIds maxTokens runsPerModel
            models results w)).
Proof.
  revert results w. induction models as [|m rest IH]; intros results w;
    cbn [modelLoop queried List.filter].
  - exists []. cbn [ret snd]. rewrite app_nil_r.
    repeat split; [constructor | simpl; lia].
  - fold (queried existingIds rest). case_bool_decide as Hin; cbn [negb].
    + apply IH.
    + cbn [map length].
      replace (4 * runsPerModel * S (length (queried existingIds rest)))
        with (4 * runsPerModel + 4 * runsPerModel * length (queried existingIds rest))
        by lia.
      apply bind_issued.
      * eapply issued_weaken; [| | apply runLoop_issued]; [| lia].
        intros r [Hm Hrest]. split; [| exact Hrest].
        destruct Hm as [<- | []]. now left.
      * intros runs w1. eapply issued_weaken; [| | apply IH]; [| lia].
        intros r [Hm Hrest]. split; [now right | exact Hrest].
Qed.

Lemma no_blocks prompt temperature maxTokens bound (models : list ModelConfig) :
  concat (map (fun _ : ModelConfig => @nil Request) models) = []
  /\ Forall2 (blockOf prompt temperature maxTokens bound) models
             (map (fun _ => []) models).
Proof.
  induction models as [|m rest [IHc IHf]]; cbn [map concat app].
  - split; [reflexivity | constructor].
  - split; [exact IHc |]. constructor; [| exact IHf].
    split; [simpl; lia | constructor].
Qed.

(** The log grows model by model, in the order of the catalog; a model
    that is not reached (an earlier one aborted the run) has an empty
    block. *)
Lemma modelLoop_blocks api prompt temperature existingIds maxTokens runsPerModel
    models :
  forall results w,
  exists blocks,
    snd (modelLoop api prompt temperature existingIds maxTokens runsPerModel
           models results w) = w ++ concat blocks
    /\ Forall2 (blockOf prompt temperature maxTokens (4 * runsPerModel))
               (queried existingIds models) blocks.
Proof.
  induction models as [|m rest IH]; intros results w;
    cbn [modelLoop queried List.filter].
  - exists []. cbn [ret snd concat]. rewrite app_nil_r. split; [reflexivity | constructor].
  - fold (queried existingIds rest). case_bool_decide as Hin; cbn [negb].
    + apply IH.
    + destruct (runLoop_issued api prompt temperature (mc_id m) maxTokens
                  runsPerModel [] w) as [added [Hw [Hall Hlen]]].
      assert (Hblock : blockOf prompt temperature maxTokens (4 * runsPerModel) m added)
        by (split; assumption).
      unfold bind.
      destruct (runLoop api prompt temperature (mc_id m) maxTokens runsPerModel [] w)
        as [[runs | e | c] w1]; cbn [snd] in Hw; subst w1.
      * destruct (IH (results ++ [entryOf m runs]) (w ++ added)) as [blocks [-> Hb]].
        exists (added :: blocks). cbn [concat]. rewrite app_assoc.
        split; [reflexivity | now constructor].
      * destruct (no_blocks prompt temperature maxTokens (4 * runsPerModel)
                    (queried existingIds rest)) as [Hc Hf].
        exists (added :: map (fun _ => []) (queried existingIds rest)).
        cbn [concat snd]. rewrite Hc, app_nil_r.
        split; [reflexivity | now constructor].
      * destruct (no_blocks prompt temperature maxTokens (4 * runsPerModel)
                    (queried existingIds rest)) as [Hc Hf].
        exists (added :: map (fun _ => []) (queried existingIds rest)).
        cbn [concat snd]. rewrite Hc, app_nil_r.
        split; [reflexivity | now constructor].
Qed.

(** X12. However a run ends, the requests it has issued come model by
    model, in catalog order, one block for each model of the filtered
    catalog that is not in the persisted dataset: a block holds at most
    4 x runs_per_model requests (none for a model the run did not
    reach), each for that model, with the configured prompt and
    temperature, and asking for the configured [max_tokens] or for
    2500, 5000 or 10000 tokens. *)
Theorem main_requests (api : Api) (argv : list string) (apiKey : option string)
    (config : Config) (file : DataFile) (now : string) (w : World) :
  let args := parseArgs argv noArgs in
  let toQuery :=
    queried (fst (loadExisting (append args) file))
            (applyFilter (filterStr args) (cfg_models config)) in
  exists blocks,
    snd (main api argv apiKey config file now w) = w ++ concat blocks
    /\ Forall2 (blockOf (cfg_prompt config) (cfg_temperature config)
                        (cfg_max_tokens config)
                        (4 * default 3 (cfg_runs_per_model config)))
               toQuery blocks.
Proof.
  intros args toQuery.
  destruct (no_blocks (cfg_prompt config) (cfg_temperature config)
              (cfg_max_tokens config) (4 * default 3 (cfg_runs_per_model config))
              toQuery) as [Hnone Hempty].
  subst args toQuery. rewrite main_unfold.
  destruct (negb (optTruthy apiKey) && negb (dryRun (parseArgs argv noArgs)));
    [| destruct (dryRun (parseArgs argv noArgs))];
    try (eexists; split; [| exact Hempty]; cbn [snd];
         now rewrite Hnone, app_nil_r).
  match goal with
  | |- context [modelLoop ?a ?p ?t ?ids ?k ?n ?ms ?rs ?w] =>
      destruct (modelLoop_blocks a p t ids k n ms rs w) as [blocks [Hlog Hb]];
      destruct (modelLoop a p t ids k n ms rs w) as [[results | e | c] w1]
  end; cbn [snd] in *; exists blocks; (split; [exact Hlog | exact Hb]).
Qed.

(** * Further properties of the classifier *)

Lemma StronglySorted_filter {A : Type} (R : A -> A -> Prop) (p : A -> bool) l :
  StronglySorted R l -> StronglySorted R (List.filter p l).
Proof.
  induction 1 as [|a l Hl IH Ha]; simpl; [constructor |].
  destruct (p a); [| exact IH]. constructor; [exact IH |].
  rewrite List.Forall_forall in *. intros b Hb. apply filter_In in Hb. now apply Ha.
Qed.

Lemma StronglySorted_to_map {A B : Type} (f : A -> B) (R : B -> B -> Prop) l :
  StronglySorted (fun a b => R (f a) (f b)) l -> StronglySorted R (map f l).
Proof.
  induction 1 as [|a l Hl IH Ha]; simpl; constructor; [exact IH |].
  rewrite List.Forall_forall in *. intros b Hb. apply in_map_iff in Hb.
  destruct Hb as [x [<- Hx]]. now apply Ha.
Qed.

Lemma registry_in_order :
  StronglySorted
    (fun a b => firstIndex (fst a) registryLabels < firstIndex (fst b) registryLabels)
    topicKeywords.
Proof.
  unfold topicKeywords.
  repeat (apply SSorted_cons;
          [| repeat (apply List.Forall_cons; [vm_compute; lia |]); apply List.Forall_nil]).
  apply SSorted_nil.
Qed.

(** X13. The classifier returns labels of the registry only, each at
    most once and in the order of the registry (so at most 18), and a
    label is returned exactly when one of its keywords matches the
    lower-cased text. *)
Theorem detectTopics_labels (text : string) :
  List.NoDup (detectTopics text)
  /\ length (detectTopics text) <= 18
  /\ StronglySorted
       (fun a b => firstIndex a registryLabels < firstIndex b registryLabels)
       (detectTopics text)
  /\ forall t,
       In t (detectTopics text)
       <-> exists keywords kw,
             In (t, keywords) topicKeywords /\ In kw keywords
             /\ RegExp.test kw (JsString.toLowerCase text) = true.
Proof.
  split; [apply detectTopics_NoDup |]. rewrite detectTopics_spec. split; [| split].
  - rewrite length_map.
    etransitivity; [apply filter_length_le | vm_compute; lia].
  - apply StronglySorted_to_map, StronglySorted_filter, registry_in_order.
  - intros t. rewrite in_map_iff. split.
    + intros [[t' kws] [Ht Hin]]. simpl in Ht. subst t'.
      apply filter_In in Hin. destruct Hin as [Hin Hm].
      unfold topicMatches in Hm. apply existsb_exists in Hm.
      destruct Hm as [kw [Hkw Htest]]. now exists kws, kw.
    + intros [kws [kw [Hin [Hkw Htest]]]]. exists (t, kws). split; [reflexivity |].
      apply filter_In. split; [exact Hin |].
      unfold topicMatches. apply existsb_exists. now exists kw.
Qed.

Lemma lowerChar_idempotent c :
  JsString.lowerChar (JsString.lowerChar c) = JsString.lowerChar c.
Proof. destruct c as [[] [] [] [] [] [] [] []]; reflexivity. Qed.

Lemma toLowerCase_idempotent s :
  JsString.toLowerCase (JsString.toLowerCase s) = JsString.toLowerCase s.
Proof.
  unfold JsString.toLowerCase. induction s as [|c s IH]; simpl; [reflexivity |].
  now rewrite lowerChar_idempotent, IH.
Qed.

(** X14. Classification does not see letter case: two texts with the
    same lower-casing get the same topics, and a text gets the topics
    of its own lower-casing. *)
Theorem detectTopics_case_insensitive (text1 text2 : string) :
  JsString.toLowerCase text1 = JsString.toLowerCase text2 ->
  detectTopics text1 = detectTopics text2
  /\ detectTopics (JsString.toLowerCase text1) = detectTopics text2.
Proof.
  intros H. unfold detectTopics. now rewrite toLowerCase_idempotent, H.
Qed.

Lemma detectTopics_case_insensitive_witness :
  detectTopics "HONEY NEVER SPOILS" = detectTopics "Honey never spoils"
  /\ detectTopics (JsString.toLowerCase "HONEY NEVER SPOILS")
     = detectTopics "Honey never spoils".
Proof.
  apply (detectTopics_case_insensitive "HONEY NEVER SPOILS" "Honey never spoils").
  reflexivity.
Defined.

Lemma trimEnd_empty s : JsString.trimEnd s = EmptyString -> allWhitespace s = true.
Proof.
  unfold allWhitespace. induction s as [|c s IH]; simpl; [reflexivity |].
  destruct (JsString.isWhitespace c); simpl; [| discriminate].
  destruct (String.eqb_spec (JsString.trimEnd s) EmptyString) as [He | Hne];
    [intros _; now apply IH | discriminate].
Qed.

Lemma trimStart_whitespace s :
  allWhitespace (JsString.trimStart s) = true -> allWhitespace s = true.
Proof.
  unfold allWhitespace. induction s as [|c s IH]; simpl; [reflexivity |].
  destruct (JsString.isWhitespace c) eqn:Hc; simpl; [exact IH |].
  now rewrite Hc.
Qed.

Lemma trim_empty_whitespace s : JsString.trim s = EmptyString -> allWhitespace s = true.
Proof. intros H. now apply trimStart_whitespace, trimEnd_empty. Qed.

Lemma lowerChar_whitespace c :
  JsString.isWhitespace (JsString.lowerChar c) = JsString.isWhitespace c.
Proof. destruct c as [[] [] [] [] [] [] [] []]; reflexivity. Qed.

Lemma toLowerCase_whitespace s :
  allWhitespace (JsString.toLowerCase s) = allWhitespace s.
Proof.
  unfold allWhitespace, JsString.toLowerCase.
  induction s as [|c s IH]; simpl; [reflexivity |].
  now rewrite lowerChar_whitespace, IH.
Qed.

Lemma search_whitespace c re text :
  JsString.isWhitespace c = false ->
  forallb JsString.isWhitespace text = true ->
  RegExp.search (RegExp.Lit c :: re) text = false.
Proof.
  intros Hc. induction text as [|x text IH]; simpl; [reflexivity |].
  intros Hall. apply andb_true_iff in Hall. destruct Hall as [Hx Hall].
  rewrite (IH Hall), orb_false_r.
  destruct (Ascii.eqb_spec c x) as [-> | Hne]; [congruence | reflexivity].
Qed.

Lemma test_whitespace kw text :
  startsWithInk kw = true -> allWhitespace text = true -> RegExp.test kw text = false.
Proof.
  unfold startsWithInk, RegExp.test, allWhitespace.
  destruct (RegExp.parse kw) as [|[c |] re]; try discriminate.
  intros Hc Hall. apply search_whitespace; [| exact Hall].
  now apply negb_true_iff in Hc.
Qed.

Lemma keywords_start_with_ink :
  forallb (fun e => forallb startsWithInk (snd e)) topicKeywords = true.
Proof. vm_compute. reflexivity. Qed.

(** X15. A text that is empty or consists of white space only has no
    topic: every keyword begins with a visible character. In particular
    the blank content that an exhausted retry ladder stores comes with
    an empty topic list. *)
Theorem blank_text_no_topics (text : string) :
  JsString.trim text = EmptyString -> detectTopics text = [].
Proof.
  intros Hblank. rewrite detectTopics_spec.
  assert (Hws : allWhitespace (JsString.toLowerCase text) = true).
  { rewrite toLowerCase_whitespace. now apply trim_empty_whitespace. }
  pose proof keywords_start_with_ink as Hink. rewrite forallb_forall in Hink.
  replace (List.filter (topicMatches (JsString.toLowerCase text)) topicKeywords)
    with (@nil (string * list string)); [reflexivity |].
  symmetry. induction topicKeywords as [|e l IH]; [reflexivity |].
  cbn [List.filter].
  assert (Hno : topicMatches (JsString.toLowerCase text) e = false).
  { unfold topicMatches. apply not_true_iff_false. intros Hm.
    apply existsb_exists in Hm. destruct Hm as [kw [Hkw Htest]].
    specialize (Hink e (or_introl eq_refl)). rewrite forallb_forall in Hink.
    rewrite (test_whitespace kw _ (Hink kw Hkw) Hws) in Htest. discriminate. }
  rewrite Hno. apply IH. intros x Hx. apply Hink. now right.
Qed.

Lemma blank_text_no_topics_witness :
  detectTopics (String.append "  " (String.append JsString.newline " ")) = [].
Proof.
  apply (blank_text_no_topics (String.append "  " (String.append JsString.newline " "))).
  reflexivity.
Defined.

(** * Further properties of the discovery script *)

(** ** License table and allow-list *)

Lemma prefix_trans (a b c : string) :
  String.prefix a b = true -> String.prefix b c = true -> String.prefix a c = true.
Proof.
  revert b c. induction a as [|x a IH]; intros [|y b] [|z c]; simpl; try easy.
  destruct (ascii_dec x y) as [-> | Hxy]; [| discriminate].
  destruct (ascii_dec y z) as [-> | Hyz]; [| discriminate].
  destruct (ascii_dec z z); [apply IH | congruence].
Qed.

Lemma firstLicense_entry entries modelId info :
  Discovery.firstLicense entries modelId = Some info ->
  exists entry,
    In entry entries
    /\ JsString.startsWith modelId (Discovery.prefix entry) = true
    /\ info = Discovery.mkLicenseInfo (Discovery.le_license entry)
                (Discovery.le_provider entry).
Proof.
  induction entries as [|e entries IH]; simpl; [discriminate |].
  destruct (JsString.startsWith modelId (Discovery.prefix e)) eqn:He.
  - intros [= <-]. exists e. auto.
  - intros H. destruct (IH H) as [entry [Hin Hrest]]. exists entry. auto.
Qed.

Lemma license_prefixes_allowed :
  forallb (fun entry =>
             existsb (fun q => String.prefix q (Discovery.prefix entry))
                     Discovery.ALLOWED_PREFIXES)
          Discovery.LICENSE_MAP = true.
Proof. vm_compute. reflexivity. Qed.

Lemma licensed_is_allowed modelId info :
  Discovery.getLicenseInfo modelId = Some info ->
  Discovery.isAllowedModel modelId = true.
Proof.
  intros H. apply firstLicense_entry in H. destruct H as [entry [Hin [Hp _]]].
  pose proof license_prefixes_allowed as Hall. rewrite forallb_forall in Hall.
  specialize (Hall entry Hin). apply existsb_exists in Hall.
  destruct Hall as [q [Hq Hqp]].
  unfold Discovery.isAllowedModel. apply existsb_exists. exists q.
  split; [exact Hq |]. unfold JsString.startsWith in *. eapply prefix_trans; eauto.
Qed.

(** The entry that answers a lookup is the first whose prefix fits:
    none of the entries before it does. *)
Lemma firstLicense_first entries modelId info :
  Discovery.firstLicense entries modelId = Some info ->
  exists before entry after,
    entries = before ++ entry :: after
    /\ List.Forall (fun e => JsString.startsWith modelId (Discovery.prefix e) = false)
                   before
    /\ JsString.startsWith modelId (Discovery.prefix entry) = true
    /\ info = Discovery.mkLicenseInfo (Discovery.le_license entry)
                (Discovery.le_provider entry).
Proof.
  induction entries as [|e entries IH]; simpl; [discriminate |].
  destruct (JsString.startsWith modelId (Discovery.prefix e)) eqn:He.
  - intros [= <-]. exists [], e, entries. repeat split; auto.
  - intros H. destruct (IH H) as (before & entry & after & -> & Hb & Hp & Hi).
    exists (e :: before), entry, after. repeat split; auto.
Qed.

(** X16. The allow-list is derived from the license table, so an id
    with a license entry always passes the provider check; the license
    and provider it gets are those of the first entry, in the order of
    the table, whose prefix it starts with: no entry before it fits.
    The converse fails: [allowed_without_license]. *)
Theorem license_implies_allowed (modelId : string) (info : Discovery.LicenseInfo) :
  Discovery.getLicenseInfo modelId = Some info ->
  Discovery.isAllowedModel modelId = true
  /\ exists before entry after,
       Discovery.LICENSE_MAP = before ++ entry :: after
       /\ List.Forall
            (fun e => JsString.startsWith modelId (Discovery.prefix e) = false) before
       /\ JsString.startsWith modelId (Discovery.prefix entry) = true
       /\ Discovery.li_license info = Discovery.le_license entry
       /\ Discovery.li_provider info = Discovery.le_provider entry.
Proof.
  intros H. split; [eapply licensed_is_allowed; exact H |].
  apply firstLicense_first in H.
  destruct H as (before & entry & after & Hsplit & Hb & Hp & ->).
  exists before, entry, after. auto.
Qed.

Lemma license_implies_allowed_witness :
  Discovery.isAllowedModel "google/gemini-2.5-pro" = true
  /\ exists before entry after,
       Discovery.LICENSE_MAP = before ++ entry :: after
       /\ List.Forall
            (fun e => JsString.startsWith "google/gemini-2.5-pro" (Discovery.prefix e)
                      = false) before
       /\ JsString.startsWith "google/gemini-2.5-pro" (Discovery.prefix entry) = true
       /\ "commercial" = Discovery.le_license entry
       /\ "Google" = Discovery.le_provider entry.
Proof.
  exact (license_implies_allowed "google/gemini-2.5-pro"
           (Discovery.mkLicenseInfo "commercial" "Google") eq_refl).
Defined.

(** A Microsoft model that is not a Phi passes the provider check and
    is then dropped for want of a license entry. *)
Example allowed_without_license :
  Discovery.isAllowedModel "microsoft/wizardlm-2" = true
  /\ Discovery.getLicenseInfo "microsoft/wizardlm-2" = None
  /\ Discovery.main [Discovery.mkCandidate "microsoft/wizardlm-2" "WizardLM 2"] [] [] = [].
Proof. repeat split; vm_compute; reflexivity. Qed.

(** ** Candidates and new models *)

Lemma uniqueFrom_app (seen : gset string) (l1 l2 : list string) :
  Discovery.uniqueFrom seen (l1 ++ l2)
  = Discovery.uniqueFrom seen l1
    ++ Discovery.uniqueFrom (seen ∪ list_to_set l1) l2.
Proof.
  revert seen. induction l1 as [|x l1 IH]; intros seen; simpl.
  - f_equal. set_solver.
  - case_bool_decide as Hx.
    + rewrite IH. do 2 f_equal. set_solver.
    + simpl. rewrite IH. do 3 f_equal. set_solver.
Qed.

Lemma uniqueFrom_In (seen : gset string) (l : list string) (x : string) :
  In x (Discovery.uniqueFrom seen l) <-> In x l /\ x ∉ seen.
Proof.
  revert seen. induction l as [|y l IH]; intros seen; simpl; [tauto |].
  case_bool_decide as Hy.
  - rewrite IH. split; [tauto |]. intros [[-> | Hin] Hx]; tauto.
  - simpl. rewrite IH. split.
    + intros [-> | [Hin Hx]]; [tauto |]. split; [tauto | set_solver].
    + intros [[-> | Hin] Hx]; [tauto |].
      destruct (string_dec y x) as [-> | Hne]; [tauto |]. right. split; [exact Hin |].
      set_solver.
Qed.

Lemma uniqueFrom_NoDup (seen : gset string) (l : list string) :
  List.NoDup (Discovery.uniqueFrom seen l).
Proof.
  revert seen. induction l as [|y l IH]; intros seen; simpl; [constructor |].
  case_bool_decide as Hy; [apply IH |].
  constructor; [| apply IH]. rewrite uniqueFrom_In. set_solver.
Qed.

Lemma addCandidates_ids (xs : list Discovery.Candidate) cands (seen : gset string) :
  map Discovery.cand_id (fst (fold_left Discovery.addCandidate xs (cands, seen)))
  = map Discovery.cand_id cands
    ++ Discovery.uniqueFrom seen
         (List.filter Discovery.isAllowedModel (map Discovery.cand_id xs))
  /\ snd (fold_left Discovery.addCandidate xs (cands, seen))
     = seen ∪ list_to_set
                (List.filter Discovery.isAllowedModel (map Discovery.cand_id xs)).
Proof.
  revert cands seen. induction xs as [|c xs IH]; intros cands seen;
    cbn [fold_left map List.filter].
  - cbn. rewrite app_nil_r. split; [reflexivity | set_solver].
  - unfold Discovery.addCandidate at 2 4.
    destruct (Discovery.isAllowedModel (Discovery.cand_id c)) eqn:Hallowed;
      cbn [Discovery.uniqueFrom]; case_bool_decide as Hseen; cbn [negb andb];
      destruct (IH cands seen) as [IH1 IH2];
      destruct (IH (cands ++ [c]) (seen ∪ {[Discovery.cand_id c]})) as [IH3 IH4].
    + rewrite IH1, IH2. split; [reflexivity | set_solver].
    + rewrite IH3, IH4, map_app, <- app_assoc. split; [reflexivity | set_solver].
    + rewrite IH1, IH2. split; reflexivity.
    + rewrite IH1, IH2. split; reflexivity.
Qed.

Lemma fold_left_map_arg {A B C : Type} (f : A -> C -> A) (g : B -> C) l a :
  fold_left (fun acc x => f acc (g x)) l a = fold_left f (map g l) a.
Proof. revert a. induction l as [|x l IH]; intros a; simpl; [reflexivity | apply IH]. Qed.

(** The candidate list: the allowed ids of the ranking followed by
    those of the catalog, first occurrences only. *)
Lemma buildCandidates_ids rankedIds allModels :
  map Discovery.cand_id (Discovery.buildCandidates rankedIds allModels)
  = Discovery.uniqueFrom ∅
      (List.filter Discovery.isAllowedModel
         (rankedIds ++ map Discovery.cand_id allModels)).
Proof.
  unfold Discovery.buildCandidates.
  rewrite (fold_left_map_arg Discovery.addCandidate
             (fun rid => Discovery.mkCandidate rid
                           (default EmptyString (Discovery.modelMapOf allModels !! rid)))).
  match goal with
  | |- context [fold_left Discovery.addCandidate (map ?g rankedIds) ?st] =>
      destruct (addCandidates_ids (map g rankedIds) [] ∅) as [H1 H2];
      destruct (fold_left Discovery.addCandidate (map g rankedIds) st)
        as [ranked seen] eqn:Hranked
  end.
  cbn [fst snd] in H1, H2.
  destruct (addCandidates_ids allModels ranked seen) as [H3 _].
  rewrite H3, H1, H2, map_map. cbn [Discovery.cand_id map app].
  rewrite map_id, List.filter_app, uniqueFrom_app. reflexivity.
Qed.

Lemma recordOf_id c : Discovery.my_id (recordOf c) = Discovery.cand_id c.
Proof. unfold recordOf. now destruct (Discovery.getLicenseInfo _). Qed.

(** The loop over the candidates is a filter followed by a map. *)
Lemma findNewModels_spec existingIds candidates acc :
  Discovery.findNewModels existingIds candidates acc
  = acc ++ map recordOf
             (List.filter (fun c => isNewId existingIds (Discovery.cand_id c))
                          candidates).
Proof.
  revert acc. induction candidates as [|c cs IH]; intros acc;
    cbn [Discovery.findNewModels List.filter].
  - cbn [map]. now rewrite app_nil_r.
  - assert (Hrec : forall info,
              Discovery.getLicenseInfo (Discovery.cand_id c) = Some info ->
              recordOf c
              = Discovery.mkModelYaml (Discovery.cand_id c)
                  (Discovery.deriveModelName (Discovery.cand_id c)
                     (Some (Discovery.cand_name c)))
                  (Discovery.li_provider info) (Discovery.li_license info)).
    { intros info Hinfo. unfold recordOf. now rewrite Hinfo. }
    unfold isNewId.
    case_bool_decide as Hex; cbn [negb andb]; [apply IH |].
    destruct (JsString.includes (Discovery.cand_id c) ":"); cbn [negb andb];
      [apply IH |].
    destruct (Discovery.getLicenseInfo (Discovery.cand_id c)) as [info |] eqn:Hinfo;
      [| apply IH].
    rewrite IH. cbn [map]. rewrite (Hrec info eq_refl). now rewrite <- app_assoc.
Qed.

Lemma filter_map_comm {A B : Type} (f : A -> B) (p : B -> bool) l :
  map f (List.filter (fun x => p (f x)) l) = List.filter p (map f l).
Proof.
  induction l as [|x l IH]; simpl; [reflexivity |].
  destruct (p (f x)); simpl; now rewrite IH.
Qed.

Lemma main_ids allModels rankedIds (yamlModels : list Discovery.ModelYaml) :
  map Discovery.my_id (Discovery.main allModels rankedIds yamlModels)
  = List.filter (isNewId (list_to_set (map Discovery.my_id yamlModels)))
      (Discovery.uniqueFrom ∅
         (List.filter Discovery.isAllowedModel
            (rankedIds ++ map Discovery.cand_id allModels))).
Proof.
  unfold Discovery.main. rewrite findNewModels_spec. cbn [app].
  rewrite map_map.
  rewrite (map_ext _ Discovery.cand_id recordOf_id).
  rewrite <- buildCandidates_ids.
  apply (filter_map_comm Discovery.cand_id
           (isNewId (list_to_set (map Discovery.my_id yamlModels)))).
Qed.

(** X17. The ids appended by one run are the ids of the ranking
    followed by those of the remote catalog, restricted to allowed
    providers, without repetition (first occurrence kept), and then
    restricted to the ids that are not in the YAML, have no variant
    suffix and have a license entry. In particular no id is appended
    twice, and ranked models come first. *)
Theorem main_new_ids (allModels : list Discovery.Candidate) (rankedIds : list string)
    (yamlModels : list Discovery.ModelYaml) :
  map Discovery.my_id (Discovery.main allModels rankedIds yamlModels)
  = List.filter (isNewId (list_to_set (map Discovery.my_id yamlModels)))
      (Discovery.uniqueFrom ∅
         (List.filter Discovery.isAllowedModel
            (rankedIds ++ map Discovery.cand_id allModels)))
  /\ List.NoDup (map Discovery.my_id (Discovery.main allModels rankedIds yamlModels)).
Proof.
  split; [apply main_ids |]. rewrite main_ids.
  apply List.NoDup_filter, uniqueFrom_NoDup.
Qed.

Lemma isNewId_spec (existingIds : gset string) modelId :
  isNewId existingIds modelId = true
  <-> (modelId ∉ existingIds)
      /\ JsString.includes modelId ":" = false
      /\ Discovery.getLicenseInfo modelId <> None.
Proof.
  unfold isNewId. rewrite !andb_true_iff, !negb_true_iff, bool_decide_eq_false.
  destruct (Discovery.getLicenseInfo modelId); intuition congruence.
Qed.

(** X18. An id is appended exactly when it occurs in the ranking or in
    the remote catalog, is not in the YAML, has no variant suffix and
    has a license entry; a ranked id needs no catalog entry. The record
    appended for it carries the license and provider of its license
    entry. *)
Theorem main_appends_exactly (allModels : list Discovery.Candidate)
    (rankedIds : list string) (yamlModels : list Discovery.ModelYaml) :
  (forall modelId,
     In modelId (map Discovery.my_id (Discovery.main allModels rankedIds yamlModels))
     <-> In modelId (rankedIds ++ map Discovery.cand_id allModels)
         /\ ~ In modelId (map Discovery.my_id yamlModels)
         /\ JsString.includes modelId ":" = false
         /\ Discovery.getLicenseInfo modelId <> None)
  /\ forall m, In m (Discovery.main allModels rankedIds yamlModels) ->
       Discovery.getLicenseInfo (Discovery.my_id m)
       = Some (Discovery.mkLicenseInfo (Discovery.my_license m) (Discovery.my_provider m)).
Proof.
  split.
  - intros modelId. rewrite main_ids, filter_In, uniqueFrom_In, filter_In, isNewId_spec.
    rewrite elem_of_list_to_set, list_elem_of_In. split.
    + intros [[[Hin _] _] Hnew]. tauto.
    + intros [Hin [Hyaml [Hvar Hlic]]]. repeat split; auto.
      * destruct (Discovery.getLicenseInfo modelId) as [info |] eqn:Hinfo;
          [| congruence]. eapply licensed_is_allowed; exact Hinfo.
      * apply not_elem_of_empty.
  - intros m Hm. unfold Discovery.main in Hm. rewrite findNewModels_spec in Hm.
    cbn [app] in Hm. apply in_map_iff in Hm. destruct Hm as [c [<- Hc]].
    apply filter_In in Hc. destruct Hc as [_ Hnew].
    apply isNewId_spec in Hnew. destruct Hnew as [_ [_ Hlic]].
    unfold recordOf.
    destruct (Discovery.getLicenseInfo (Discovery.cand_id c)) as [[lic prov] |] eqn:Hinfo;
      [| congruence].
    cbn [Discovery.my_id Discovery.my_license Discovery.my_provider
         Discovery.li_license Discovery.li_provider]. exact Hinfo.
Qed.

Lemma main_appends_exactly_witness :
  In "x-ai/grok-4" (map Discovery.my_id (Discovery.main [] ["x-ai/grok-4"] [])).
Proof.
  apply (proj1 (main_appends_exactly [] ["x-ai/grok-4"] []) "x-ai/grok-4").
  repeat split.
  - left. reflexivity.
  - intros [].
  - discriminate.
Defined.

(** X19. A second run on the same remote data, with the YAML extended
    by what the first run appended, finds nothing new: no id is ever
    appended twice across runs. *)
Theorem second_run_appends_nothing (allModels : list Discovery.Candidate)
    (rankedIds : list string) (yamlModels : list Discovery.ModelYaml) :
  Discovery.main allModels rankedIds
    (yamlModels ++ Discovery.main allModels rankedIds yamlModels)
  = [].
Proof.
  apply map_eq_nil with (f := Discovery.my_id).
  destruct (map Discovery.my_id
              (Discovery.main allModels rankedIds
                 (yamlModels ++ Discovery.main allModels rankedIds yamlModels)))
    as [|x l] eqn:Hids; [reflexivity |].
  assert (Hin : In x (map Discovery.my_id
                        (Discovery.main allModels rankedIds
                           (yamlModels ++ Discovery.main allModels rankedIds yamlModels))))
    by (rewrite Hids; now left).
  clear Hids. exfalso.
  rewrite main_ids, filter_In, isNewId_spec in Hin.
  destruct Hin as [Hcand [Hnot [Hvar Hlic]]].
  apply Hnot. rewrite elem_of_list_to_set, list_elem_of_In, map_app, in_app_iff.
  destruct (in_dec string_dec x (map Discovery.my_id yamlModels)) as [Hy | Hy];
    [now left | right].
  rewrite main_ids, filter_In, isNewId_spec. split; [exact Hcand |].
  repeat split; auto. now rewrite elem_of_list_to_set, list_elem_of_In.
Qed.

(** ** Display names *)

Lemma mapChars_length f s : String.length (JsString.mapChars f s) = String.length s.
Proof. induction s as [|c s IH]; simpl; [reflexivity | now rewrite IH]. Qed.

Lemma capitalizeWords_length b s :
  String.length (Discovery.capitalizeWords b s) = String.length s.
Proof. revert b. induction s as [|c s IH]; intros b; simpl; [reflexivity | now rewrite IH]. Qed.

Lemma upperChar_separator c :
  isSeparator (JsString.upperChar c) = isSeparator c.
Proof. destruct c as [[] [] [] [] [] [] [] []]; reflexivity. Qed.

Lemma separatorsToSpaces_clean s :
  existsb isSeparator (list_ascii_of_string (Discovery.separatorsToSpaces s)) = false.
Proof.
  unfold Discovery.separatorsToSpaces. induction s as [|c s IH]; simpl; [reflexivity |].
  rewrite IH, orb_false_r. fold (isSeparator c).
  destruct (isSeparator c) eqn:Hc; [reflexivity | exact Hc].
Qed.

Lemma capitalizeWords_clean b s :
  existsb isSeparator (list_ascii_of_string s) = false ->
  existsb isSeparator (list_ascii_of_string (Discovery.capitalizeWords b s)) = false.
Proof.
  revert b. induction s as [|c s IH]; intros b; simpl; [reflexivity |].
  intros H. apply orb_false_iff in H. destruct H as [Hc Hs].
  rewrite (IH _ Hs), orb_false_r.
  destruct (Discovery.isWordChar c && negb b); [| exact Hc].
  now rewrite upperChar_separator.
Qed.

(** X20. The display name of a new model is the remote name, trimmed,
    when that is not blank. Otherwise it is made from the part of the id
    after the first slash (from the whole id if there is no slash): it
    has the length of that part and contains neither hyphen nor
    underscore. *)
Theorem deriveModelName_cases (modelId apiName : string) :
  (JsString.trim apiName <> EmptyString ->
     Discovery.deriveModelName modelId (Some apiName) = JsString.trim apiName)
  /\ (JsString.trim apiName = EmptyString ->
        String.length (Discovery.deriveModelName modelId (Some apiName))
        = String.length (nth 1 (JsString.split "/"%char modelId) modelId)
        /\ existsb isSeparator
             (list_ascii_of_string (Discovery.deriveModelName modelId (Some apiName)))
           = false).
Proof.
  unfold Discovery.deriveModelName.
  change (default EmptyString (Some apiName)) with apiName.
  cbn [option_map optTruthy]. split.
  - intros Hname. destruct (JsString.trim apiName); [congruence | reflexivity].
  - intros ->. cbn [JsString.truthy String.eqb negb]. split.
    + rewrite capitalizeWords_length. unfold Discovery.separatorsToSpaces.
      now rewrite mapChars_length.
    + apply capitalizeWords_clean, separatorsToSpaces_clean.
Qed.

Lemma deriveModelName_cases_witness :
  Discovery.deriveModelName "openai/gpt-4o_mini" (Some " GPT-4o mini ") = "GPT-4o mini"
  /\ String.length (Discovery.deriveModelName "openai/gpt-4o_mini" (Some "  ")) = 11.
Proof.
  split.
  - exact (proj1 (deriveModelName_cases "openai/gpt-4o_mini" " GPT-4o mini ")
             ltac:(discriminate)).
  - exact (proj1 (proj2 (deriveModelName_cases "openai/gpt-4o_mini" "  ") eq_refl)).
Defined.

(** ** Writing the YAML back *)

Lemma string_append_assoc (a b c : string) :
  String.append (String.append a b) c = String.append a (String.append b c).
Proof.
  induction a as [|x a IH]; [reflexivity |].
  change (String x (String.append (String.append a b) c)
          = String x (String.append a (String.append b c))).
  now f_equal.
Qed.

Lemma append_empty_r (a : string) : String.append a EmptyString = a.
Proof.
  induction a as [|x a IH]; [reflexivity |].
  change (String x (String.append a EmptyString) = String x a). now f_equal.
Qed.

Lemma prefix_append (a b : string) : String.prefix a (String.append a b) = true.
Proof.
  induction a as [|x a IH]; simpl; [now destruct b |].
  destruct (ascii_dec x x); [exact IH | congruence].
Qed.

Lemma concatStrings_app l1 l2 :
  concatStrings (l1 ++ l2) = String.append (concatStrings l1) (concatStrings l2).
Proof.
  induction l1 as [|s l1 IH]; simpl; [reflexivity |].
  rewrite IH. symmetry. apply string_append_assoc.
Qed.

Lemma writeGroup group additions :
  fold_left (fun acc m => String.append acc (Discovery.yamlLines m)) group additions
  = String.append additions (concatStrings (map Discovery.yamlLines group)).
Proof.
  revert additions. induction group as [|m group IH]; intros additions; simpl.
  - now rewrite append_empty_r.
  - now rewrite IH, string_append_assoc.
Qed.

Lemma writeGroups groups additions :
  fold_left
    (fun acc group =>
       fold_left (fun acc0 m => String.append acc0 (Discovery.yamlLines m)) group acc)
    groups additions
  = String.append additions
      (concatStrings (map Discovery.yamlLines (concat groups))).
Proof.
  revert additions. induction groups as [|g groups IH]; intros additions; simpl.
  - now rewrite append_empty_r.
  - now rewrite IH, writeGroup, map_app, concatStrings_app, string_append_assoc.
Qed.

Lemma Permutation_concat {A : Type} (l l' : list (list A)) :
  Permutation l l' -> Permutation (concat l) (concat l').
Proof.
  induction 1 as [| x l l' _ IH | x y l | l l' l'' _ IH1 _ IH2]; simpl.
  - reflexivity.
  - now apply Permutation_app_head.
  - rewrite !app_assoc. apply Permutation_app_tail, Permutation_app_comm.
  - etransitivity; eauto.
Qed.

Lemma insertIndex_perm {V : Type} n k (v : V) o :
  Permutation (JsObject.insertIndex n k v o) ((k, v) :: o).
Proof.
  induction o as [|[k' v'] o IH]; simpl; [reflexivity |].
  destruct (JsObject.arrayIndex k'); [| reflexivity].
  destruct (n <? _)%N; [reflexivity |].
  rewrite IH. apply perm_swap.
Qed.

Lemma replace_group {A : Type} k (g : list A) x (o : JsObject.t (list A)) :
  JsObject.get k o = Some g ->
  Permutation (concat (map snd (JsObject.replace k (g ++ [x]) o)))
              (concat (map snd o) ++ [x]).
Proof.
  induction o as [|[k' v'] o IH]; simpl; [discriminate |].
  destruct (String.eqb k k').
  - intros [= ->]. simpl. rewrite <- !app_assoc.
    apply Permutation_app_head, Permutation_app_comm.
  - intros H. simpl. rewrite <- app_assoc. apply Permutation_app_head, IH, H.
Qed.

Lemma groupStep_perm {A : Type} k (x : A) (o : JsObject.t (list A)) :
  Permutation
    (concat (map snd (JsObject.set k (default [] (JsObject.get k o) ++ [x]) o)))
    (concat (map snd o) ++ [x]).
Proof.
  unfold JsObject.set. destruct (JsObject.get k o) as [g |] eqn:Hget; cbn [default].
  - now apply replace_group.
  - destruct (JsObject.arrayIndex k) as [n |].
    + etransitivity.
      * apply Permutation_concat, Permutation_map, insertIndex_perm.
      * simpl. apply Permutation_cons_append.
    + rewrite map_app, concat_app. simpl. reflexivity.
Qed.

Lemma groupLoop_throws newModels :
  forall o,
    existsb (fun m => Discovery.inherited (Discovery.my_license m)) newModels = true ->
    Discovery.groupLoop newModels o = None.
Proof.
  induction newModels as [|m ms IH]; intros o; simpl; [discriminate |].
  destruct (Discovery.inherited (Discovery.my_license m)); simpl; [reflexivity |].
  apply IH.
Qed.

Lemma groupLoop_perm newModels :
  forall o,
    existsb (fun m => Discovery.inherited (Discovery.my_license m)) newModels = false ->
    exists byLicense,
      Discovery.groupLoop newModels o = Some byLicense
      /\ Permutation (concat (map snd byLicense)) (concat (map snd o) ++ newModels).
Proof.
  induction newModels as [|m ms IH]; intros o; simpl.
  - intros _. exists o. split; [reflexivity | now rewrite app_nil_r].
  - destruct (Discovery.inherited (Discovery.my_license m)); simpl; [discriminate |].
    intros Hms.
    edestruct IH as [byLicense [Hloop Hperm]]; [exact Hms |].
    exists byLicense. split; [exact Hloop |].
    etransitivity; [exact Hperm |].
    change (m :: ms) with ([m] ++ ms). rewrite app_assoc.
    apply Permutation_app_tail, groupStep_perm.
Qed.

(** No license of the table is a name that objects inherit. *)
Lemma table_licenses_plain :
  forallb (fun entry => negb (Discovery.inherited (Discovery.le_license entry)))
          Discovery.LICENSE_MAP = true.
Proof. vm_compute. reflexivity. Qed.

Lemma recordOf_plain existingIds c :
  isNewId existingIds (Discovery.cand_id c) = true ->
  Discovery.inherited (Discovery.my_license (recordOf c)) = false.
Proof.
  unfold isNewId, recordOf.
  destruct (Discovery.getLicenseInfo (Discovery.cand_id c)) as [info |] eqn:Hinfo;
    [intros _ | now rewrite andb_false_r].
  apply firstLicense_entry in Hinfo. destruct Hinfo as [entry [Hin [_ ->]]].
  pose proof table_licenses_plain as Hall. rewrite forallb_forall in Hall.
  specialize (Hall entry Hin). now apply negb_true_iff in Hall.
Qed.

Lemma main_licenses_plain allModels rankedIds yamlModels :
  existsb (fun m => Discovery.inherited (Discovery.my_license m))
          (Discovery.main allModels rankedIds yamlModels) = false.
Proof.
  unfold Discovery.main. rewrite findNewModels_spec. cbn [app].
  induction (Discovery.buildCandidates rankedIds allModels) as [|c cs IH];
    [reflexivity |].
  cbn [List.filter].
  destruct (isNewId _ (Discovery.cand_id c)) eqn:Hnew; [| exact IH].
  cbn [map existsb]. now rewrite (recordOf_plain _ _ Hnew).
Qed.

(** X21. [appendModelsToYaml] only appends. Unless the license of a new
    model is a name that objects inherit from [Object.prototype] (then
    the grouping loop throws and nothing is written), the new content is
    the old content, unchanged, then a line break if the old content did
    not end with one, then the header and the five lines of every new
    model; each new model is written exactly once (the models are
    regrouped by license, nothing is dropped or repeated). The models
    that [main] finds take their license from the table, so for them
    the append does not throw. *)
Theorem appendModelsToYaml_appends (existing : string)
    (newModels : list Discovery.ModelYaml) :
  (if existsb (fun m => Discovery.inherited (Discovery.my_license m)) newModels
   then Discovery.appendModelsToYaml existing newModels = None
   else
     exists order content,
       Permutation order newModels
       /\ Discovery.appendModelsToYaml existing newModels = Some content
       /\ content
          = String.append existing
              (String.append
                 (if JsString.endsWith existing JsString.newline
                  then EmptyString else JsString.newline)
                 (String.append Discovery.additionsHeader
                    (concatStrings (map Discovery.yamlLines order))))
       /\ String.prefix existing content = true)
  /\ forall allModels rankedIds yamlModels,
       Discovery.appendModelsToYaml existing
         (Discovery.main allModels rankedIds yamlModels) <> None.
Proof.
  assert (Hplain : forall models,
            existsb (fun m => Discovery.inherited (Discovery.my_license m)) models
            = false ->
            exists order content,
              Permutation order models
              /\ Discovery.appendModelsToYaml existing models = Some content
              /\ content
                 = String.append existing
                     (String.append
                        (if JsString.endsWith existing JsString.newline
                         then EmptyString else JsString.newline)
                        (String.append Discovery.additionsHeader
                           (concatStrings (map Discovery.yamlLines order))))
              /\ String.prefix existing content = true).
  { intros models Hmodels.
    destruct (groupLoop_perm models [] Hmodels) as [byLicense [Hloop Hperm]].
    exists (concat (map snd byLicense)). eexists.
    split; [exact Hperm |].
    unfold Discovery.appendModelsToYaml, Discovery.groupByLicense. rewrite Hloop.
    split; [reflexivity |].
    assert (Heq : String.append
                    (if JsString.endsWith existing JsString.newline then existing
                     else String.append existing JsString.newline)
                    (Discovery.additionsOf byLicense)
                  = String.append existing
                      (String.append
                         (if JsString.endsWith existing JsString.newline
                          then EmptyString else JsString.newline)
                         (String.append Discovery.additionsHeader
                            (concatStrings
                               (map Discovery.yamlLines (concat (map snd byLicense))))))).
    { unfold Discovery.additionsOf, JsObject.entries. rewrite writeGroups.
      destruct (JsString.endsWith existing JsString.newline);
        [reflexivity | now rewrite string_append_assoc]. }
    split; [exact Heq |]. rewrite Heq. apply prefix_append. }
  split.
  - destruct (existsb _ newModels) eqn:Hany.
    + unfold Discovery.appendModelsToYaml, Discovery.groupByLicense.
      now rewrite (groupLoop_throws _ _ Hany).
    + apply Hplain, Hany.
  - intros allModels rankedIds yamlModels.
    destruct (Hplain _ (main_licenses_plain allModels rankedIds yamlModels))
      as (order & content & _ & Heq & _).
    rewrite Heq. discriminate.
Qed.

(** A model whose license is [constructor]: the append throws. *)
Example constructor_license_throws :
  Discovery.appendModelsToYaml "models:"
    [Discovery.mkModelYaml "acme/one" "One" "Acme" "constructor"] = None.
Proof. reflexivity. Qed.

(** * Further properties of the patterns *)

Lemma append_cons c s t : String.append (String c s) t = String c (String.append s t).
Proof. reflexivity. Qed.

Lemma matchHere_literal_iff l re text :
  RegExp.matchHere (map RegExp.Lit l ++ re) text = true
  <-> exists rest, text = l ++ rest /\ RegExp.matchHere re rest = true.
Proof.
  revert text. induction l as [|c l IH]; intros text; simpl.
  - split; [intros H; now exists text | intros [rest [-> H]]; exact H].
  - destruct text as [|x text].
    + split; [discriminate | intros [rest [H _]]; discriminate].
    + rewrite andb_true_iff, IH. split.
      * intros [Hc [rest [-> H]]]. apply Ascii.eqb_eq in Hc. subst x. now exists rest.
      * intros [rest [[= -> ->] H]]. split; [apply Ascii.eqb_refl | now exists rest].
Qed.

Lemma starFrom_iff k text :
  RegExp.starFrom k text = true
  <-> exists gap rest, text = gap ++ rest /\ oneLine gap = true /\ k rest = true.
Proof.
  unfold oneLine. induction text as [|c text IH]; simpl.
  - rewrite orb_false_r. split.
    + intros H. now exists [], [].
    + intros [gap [rest [Heq [_ H]]]]. symmetry in Heq.
      apply app_eq_nil in Heq. destruct Heq as [_ ->]. exact H.
  - rewrite orb_true_iff, andb_true_iff, IH. split.
    + intros [H | [Hc [gap [rest [-> [Hgap H]]]]]].
      * now exists [], (c :: text).
      * exists (c :: gap), rest. simpl. now rewrite Hc, Hgap.
    + intros [[|x gap] [rest [Heq [Hgap H]]]]; simpl in Heq.
      * subst rest. now left.
      * injection Heq as <- ->. simpl in Hgap. apply andb_true_iff in Hgap.
        right. split; [tauto |]. exists gap, rest. tauto.
Qed.

Lemma search_iff re text :
  RegExp.search re text = true
  <-> exists pre rest, text = pre ++ rest /\ RegExp.matchHere re rest = true.
Proof.
  induction text as [|c text IH]; simpl.
  - rewrite orb_false_r. split.
    + intros H. now exists [], [].
    + intros [pre [rest [Heq H]]]. symmetry in Heq.
      apply app_eq_nil in Heq. destruct Heq as [_ ->]. exact H.
  - rewrite orb_true_iff, IH. split.
    + intros [H | [pre [rest [-> H]]]].
      * now exists [], (c :: text).
      * now exists (c :: pre), rest.
    + intros [[|x pre] [rest [Heq H]]]; simpl in Heq.
      * subst rest. now left.
      * injection Heq as <- ->. right. now exists pre, rest.
Qed.

Lemma parse_dotstar a b :
  literal a ->
  RegExp.parse (String.append a (String.append ".*" b))
  = map RegExp.Lit (list_ascii_of_string a) ++ RegExp.AnyStar :: RegExp.parse b.
Proof.
  unfold literal. induction a as [|c a IH]; [reflexivity |].
  destruct a as [|d a].
  - intros _. rewrite append_cons. cbn [RegExp.parse String.append].
    change (String.append EmptyString (String.append ".*" b)) with (String "." (String "*" b)).
    cbn [RegExp.parse]. replace (Ascii.eqb "." "*") with false by reflexivity.
    rewrite andb_false_r. reflexivity.
  - rewrite !append_cons. cbn [RegExp.parse list_ascii_of_string map].
    destruct (Ascii.eqb c "." && Ascii.eqb d "*"); [discriminate |].
    intros [= H]. cbn [app]. f_equal. rewrite <- append_cons. apply IH. exact H.
Qed.

(** X22. On a text whose code units are all below 256 (the texts a
    [string] holds), a keyword of the form [a.*b], with [a] and [b] free
    of [.*], matches exactly when the text contains [a] and, later, [b]
    with no line feed or carriage return in between. (The dot also stops
    at U+2028 and U+2029, which are not such code units.) *)
Theorem dotstar_same_line (a b text : string) :
  literal a -> literal b ->
  RegExp.test (String.append a (String.append ".*" b)) text = true
  <-> exists pre gap post,
        list_ascii_of_string text
        = pre ++ list_ascii_of_string a ++ gap ++ list_ascii_of_string b ++ post
        /\ oneLine gap = true.
Proof.
  intros Ha Hb. unfold RegExp.test. rewrite (parse_dotstar a b Ha), Hb, search_iff.
  split.
  - intros [pre [rest [Htext Hm]]].
    apply matchHere_literal_iff in Hm. destruct Hm as [rest1 [-> Hm]].
    cbn [RegExp.matchHere] in Hm. apply starFrom_iff in Hm.
    destruct Hm as [gap [rest2 [-> [Hgap Hm]]]].
    rewrite <- (app_nil_r (map RegExp.Lit (list_ascii_of_string b))) in Hm.
    apply matchHere_literal_iff in Hm. destruct Hm as [post [-> _]].
    now exists pre, gap, post.
  - intros [pre [gap [post [Htext Hgap]]]].
    exists pre, (list_ascii_of_string a ++ gap ++ list_ascii_of_string b ++ post).
    split; [exact Htext |]. apply matchHere_literal_iff.
    exists (gap ++ list_ascii_of_string b ++ post). split; [reflexivity |].
    cbn [RegExp.matchHere]. apply starFrom_iff.
    exists gap, (list_ascii_of_string b ++ post). repeat split; auto.
    rewrite <- (app_nil_r (map RegExp.Lit (list_ascii_of_string b))).
    apply matchHere_literal_iff. now exists post.
Qed.

Lemma dotstar_same_line_witness :
  RegExp.test "banana.*radioactive" "a banana is slightly radioactive" = true.
Proof.
  apply (proj2 (dotstar_same_line "banana" "radioactive"
                  "a banana is slightly radioactive" eq_refl eq_refl)).
  exists (list_ascii_of_string "a "), (list_ascii_of_string " is slightly "), [].
  split; reflexivity.
Defined.

(** Across a line break the same keyword does not match. *)
Example dotstar_not_across_lines :
  RegExp.test "banana.*radioactive"
    (String.append "a banana" (String.append JsString.newline "is radioactive"))
  = false.
Proof. vm_compute. reflexivity. Qed.

(** * Further properties of the merge *)

Lemma applyFilter_is_filter filterStr models :
  exists p, applyFilter filterStr models = List.filter p models.
Proof.
  unfold applyFilter. destruct filterStr as [fs |].
  - destruct (JsString.truthy fs); [eauto |].
    exists (fun _ => true). symmetry. now apply filter_all.
  - exists (fun _ => true). symmetry. now apply filter_all.
Qed.

Lemma NoDup_map_filter {A B : Type} (f : A -> B) (p : A -> bool) l :
  List.NoDup (map f l) -> List.NoDup (map f (List.filter p l)).
Proof.
  induction l as [|x l IH]; simpl; [constructor |].
  intros Hnd. inversion Hnd as [|? ? Hx Hl]; subst.
  destruct (p x); simpl; [| now apply IH].
  constructor; [| now apply IH].
  intros Hin. apply Hx. apply in_map_iff in Hin. destruct Hin as [y [Hy Hin]].
  apply filter_In in Hin. apply in_map_iff. exists y. tauto.
Qed.

Lemma NoDup_app_disjoint {A : Type} (l1 l2 : list A) :
  List.NoDup l1 -> List.NoDup l2 -> (forall x, In x l2 -> ~ In x l1) ->
  List.NoDup (l1 ++ l2).
Proof.
  induction l1 as [|a l1 IH]; simpl; intros H1 H2 Hd; [exact H2 |].
  inversion H1 as [|? ? Ha Hl1]; subst. constructor.
  - rewrite in_app_iff. intros [H | H]; [tauto |]. apply (Hd a H). now left.
  - apply IH; auto. intros x Hx Hin. apply (Hd x Hx). now right.
Qed.

(** X23. Ids stay unique: when the ids of the catalog are pairwise
    distinct and so are those of the entries carried over from the
    persisted dataset, the ids of a written dataset are pairwise
    distinct. *)
Theorem written_ids_unique (api : Api) (argv : list string) (apiKey : option string)
    (config : Config) (file : DataFile) (now : string) (w w' : World)
    (dataset : Dataset) :
  List.NoDup (map mc_id (cfg_models config)) ->
  List.NoDup (map id (snd (loadExisting (append (parseArgs argv noArgs)) file))) ->
  main api argv apiKey config file now w = (Ok (Some dataset), w') ->
  List.NoDup (map id (ds_models dataset)).
Proof.
  intros Hcat Hold. rewrite main_unfold.
  destruct (negb (optTruthy apiKey) && negb (dryRun (parseArgs argv noArgs)));
    [discriminate |].
  destruct (dryRun (parseArgs argv noArgs)); [discriminate |].
  match goal with
  | |- context [modelLoop ?a ?p ?t ?ids ?k ?n ?ms ?rs ?w] =>
      pose proof (modelLoop_results a p t ids k n ms rs w) as Hres;
      destruct (modelLoop a p t ids k n ms rs w) as [[results | e | c] w1]
  end; try discriminate.
  intros [= <- _]. cbn [ds_models].
  destruct (Hres _ _ eq_refl) as [fresh [-> Hfresh]].
  apply fresh_ids in Hfresh. destruct Hfresh as [Hids _].
  rewrite map_app. apply NoDup_app_disjoint; [exact Hold | |].
  - rewrite Hids. unfold queried. apply NoDup_map_filter.
    destruct (applyFilter_is_filter (filterStr (parseArgs argv noArgs))
                (cfg_models config)) as [p ->].
    now apply NoDup_map_filter.
  - intros x Hx Hin. rewrite Hids in Hx. apply in_map_iff in Hx.
    destruct Hx as [m [<- Hm]]. unfold queried in Hm. apply filter_In in Hm.
    destruct Hm as [_ Hnot]. apply negb_true_iff, bool_decide_eq_false in Hnot.
    apply Hnot. unfold loadExisting in *.
    destruct (append (parseArgs argv noArgs)); [| destruct Hin].
    destruct file as [| old]; [destruct Hin |].
    cbn [fst snd] in *. now apply collectIds_spec.
Qed.

Lemma written_ids_unique_witness : List.NoDup (map id (ds_models demoDataset)).
Proof.
  apply (written_ids_unique (alwaysContent (JStr "The immortal jellyfish."))
           demoArgv (Some "sk-or-demo") demoConfig (Parsed (Some demoPersisted))
           "2026-01-01T00:00:00.000Z" [] (snd demoRun) demoDataset).
  - repeat (apply List.NoDup_cons; [simpl; intuition discriminate |]).
    apply List.NoDup_nil.
  - repeat (apply List.NoDup_cons; [simpl; intuition discriminate |]).
    apply List.NoDup_nil.
  - vm_compute. reflexivity.
Defined.

(** A catalog that lists an id twice gets it queried twice and written
    twice. *)
Example duplicate_catalog_id_written_twice :
  let twice := mkModelConfig "qwen/qwen3" "Qwen 3" "Alibaba" "open-source" None in
  exists dataset w',
    main timingOut [] (Some "sk-or-demo")
         (mkConfig "Tell me something" (7 # 10) 1000%Z (Some 1) [twice; twice])
         Unreadable "now" []
    = (Ok (Some dataset), w')
    /\ map id (ds_models dataset) = ["qwen/qwen3"; "qwen/qwen3"]
    /\ length w' = 2.
Proof. eexists _, _. repeat split; vm_compute; reflexivity. Qed.

Lemma modelLoop_all_skipped api prompt temperature (existingIds : gset string)
    maxTokens runsPerModel models results w :
  (forall m, In m models -> mc_id m ∈ existingIds) ->
  modelLoop api prompt temperature existingIds maxTokens runsPerModel models results w
  = (Ok results, w).
Proof.
  induction models as [|m models IH]; intros Hall; simpl; [reflexivity |].
  rewrite bool_decide_eq_true_2 by (apply Hall; now left).
  apply IH. intros m' Hm'. apply Hall. now right.
Qed.

(** X24. Re-running with [--append] on the dataset just written, with
    the same catalog and filter, issues no request at all and writes
    the same models again, whatever the API would answer now. *)
Theorem append_rerun_is_idle (api api' : Api) (argv argv' : list string)
    (apiKey apiKey' : option string) (config : Config) (file : DataFile)
    (now now' : string) (w w1 w' : World) (dataset : Dataset) :
  main api argv apiKey config file now w = (Ok (Some dataset), w1) ->
  append (parseArgs argv' noArgs) = true ->
  dryRun (parseArgs argv' noArgs) = false ->
  filterStr (parseArgs argv' noArgs) = filterStr (parseArgs argv noArgs) ->
  optTruthy apiKey' = true ->
  exists dataset',
    main api' argv' apiKey' config (Parsed (Some (ds_models dataset))) now' w'
    = (Ok (Some dataset'), w')
    /\ ds_models dataset' = ds_models dataset
    /\ ds_stats dataset' = ds_stats dataset.
Proof.
  intros Hfirst Happ Hdry Hfilter Hkey.
  rewrite main_unfold in Hfirst.
  destruct (negb (optTruthy apiKey) && negb (dryRun (parseArgs argv noArgs)));
    [discriminate |].
  destruct (dryRun (parseArgs argv noArgs)); [discriminate |].
  match type of Hfirst with
  | context [modelLoop ?a ?p ?t ?ids ?k ?n ?ms ?rs ?w0] =>
      pose proof (modelLoop_results a p t ids k n ms rs w0) as Hres;
      destruct (modelLoop a p t ids k n ms rs w0) as [[results | e | c] w2]
  end; try discriminate.
  injection Hfirst as <- _. cbn [ds_models ds_stats].
  destruct (Hres _ _ eq_refl) as [fresh [-> Hfresh]].
  apply fresh_ids in Hfresh. destruct Hfresh as [Hids _].
  rewrite main_unfold, Happ, Hdry, Hkey, Hfilter, loadExisting_append.
  cbn [negb andb fst snd]. rewrite modelLoop_all_skipped.
  - eexists. split; [reflexivity |]. split; reflexivity.
  - intros m Hm. apply collectIds_spec. rewrite map_app, in_app_iff.
    match goal with
    | |- In _ (map id ?old) \/ _ =>
        destruct (in_dec string_dec (mc_id m) (map id old)) as [Hin | Hnot];
        [now left | right]
    end.
    rewrite Hids. apply in_map. unfold queried. apply filter_In.
    split; [exact Hm |]. apply negb_true_iff, bool_decide_eq_false.
    intros Hin. apply Hnot. unfold loadExisting in *.
    destruct (append (parseArgs argv noArgs));
      [| cbn [fst] in Hin; now apply not_elem_of_empty in Hin].
    destruct file as [| old]; [cbn [fst] in Hin; now apply not_elem_of_empty in Hin |].
    cbn [fst snd] in *. now apply collectIds_spec.
Qed.

Lemma append_rerun_is_idle_witness :
  exists dataset',
    main timingOut ["--filter"; "GPT , claude"; "--append"] (Some "sk-or-other")
         demoConfig (Parsed (Some (ds_models demoDataset))) "2026-02-01T00:00:00.000Z" []
    = (Ok (Some dataset'), [])
    /\ ds_models dataset' = ds_models demoDataset
    /\ ds_stats dataset' = ds_stats demoDataset.
Proof.
  apply (append_rerun_is_idle (alwaysContent (JStr "The immortal jellyfish.")) timingOut
           demoArgv ["--filter"; "GPT , claude"; "--append"]
           (Some "sk-or-demo") (Some "sk-or-other") demoConfig
           (Parsed (Some demoPersisted)) "2026-01-01T00:00:00.000Z"
           "2026-02-01T00:00:00.000Z" [] (snd demoRun) [] demoDataset).
  - vm_compute. reflexivity.
  - reflexivity.
  - reflexivity.
  - reflexivity.
  - reflexivity.
Defined.

(** ** Letter case of the filter *)

Lemma lowerChar_comma c :
  Ascii.eqb (JsString.lowerChar c) ","%char = Ascii.eqb c ","%char.
Proof. destruct c as [[] [] [] [] [] [] [] []]; reflexivity. Qed.

Lemma split_lower s :
  JsString.split ","%char (JsString.toLowerCase s)
  = map JsString.toLowerCase (JsString.split ","%char s).
Proof.
  unfold JsString.toLowerCase. induction s as [|c s IH]; simpl; [reflexivity |].
  rewrite lowerChar_comma, IH. destruct (Ascii.eqb c ","); [reflexivity |].
  destruct (JsString.split "," s); reflexivity.
Qed.

Lemma trimStart_lower s :
  JsString.trimStart (JsString.toLowerCase s)
  = JsString.toLowerCase (JsString.trimStart s).
Proof.
  unfold JsString.toLowerCase. induction s as [|c s IH]; simpl; [reflexivity |].
  rewrite lowerChar_whitespace. destruct (JsString.isWhitespace c); [exact IH | reflexivity].
Qed.

Lemma trimEnd_lower s :
  JsString.trimEnd (JsString.toLowerCase s)
  = JsString.toLowerCase (JsString.trimEnd s).
Proof.
  unfold JsString.toLowerCase. induction s as [|c s IH]; simpl; [reflexivity |].
  rewrite lowerChar_whitespace, IH.
  assert (He : String.eqb (JsString.mapChars JsString.lowerChar (JsString.trimEnd s))
                          EmptyString
               = String.eqb (JsString.trimEnd s) EmptyString)
    by (destruct (JsString.trimEnd s); reflexivity).
  rewrite He.
  destruct (JsString.isWhitespace c && String.eqb (JsString.trimEnd s) EmptyString);
    reflexivity.
Qed.

Lemma trim_lower s :
  JsString.trim (JsString.toLowerCase s) = JsString.toLowerCase (JsString.trim s).
Proof. unfold JsString.trim. now rewrite trimStart_lower, trimEnd_lower. Qed.

Lemma filters_lower fs :
  map (fun f => JsString.toLowerCase (JsString.trim f))
      (JsString.split ","%char (JsString.toLowerCase fs))
  = map (fun f => JsString.toLowerCase (JsString.trim f)) (JsString.split ","%char fs).
Proof.
  rewrite split_lower, map_map. apply map_ext. intros f.
  now rewrite trim_lower, toLowerCase_idempotent.
Qed.

Lemma applyFilter_lower fs models :
  applyFilter (Some (JsString.toLowerCase fs)) models = applyFilter (Some fs) models.
Proof.
  unfold applyFilter.
  assert (Ht : JsString.truthy (JsString.toLowerCase fs) = JsString.truthy fs)
    by (destruct fs; reflexivity).
  rewrite Ht, filters_lower. reflexivity.
Qed.

(** X25. The filter does not see letter case: two filter strings with
    the same lower-casing select the same models, and so do a filter
    and its lower-casing. *)
Theorem applyFilter_case_insensitive (fs1 fs2 : string) (models : list ModelConfig) :
  JsString.toLowerCase fs1 = JsString.toLowerCase fs2 ->
  applyFilter (Some fs1) models = applyFilter (Some fs2) models
  /\ applyFilter (Some (JsString.toLowerCase fs1)) models = applyFilter (Some fs1) models.
Proof.
  intros H. split; [| apply applyFilter_lower].
  now rewrite <- (applyFilter_lower fs1), <- (applyFilter_lower fs2), H.
Qed.

Lemma applyFilter_case_insensitive_witness :
  applyFilter (Some "GPT-5, QWEN") (cfg_models demoConfig)
  = applyFilter (Some "gpt-5, Qwen") (cfg_models demoConfig).
Proof.
  exact (proj1 (applyFilter_case_insensitive "GPT-5, QWEN" "gpt-5, Qwen"
                  (cfg_models demoConfig) eq_refl)).
Defined.
